(** * lunchmoney-fintoc-api: categorization and deduplication engine

  A shallow embedding of the JavaScript sources

    - src/categorize.js     (similarity scorer, category resolver,
                             [sanitizePayee], [assignCategoryId])
    - src/memory.js         ([loadMemory], [saveMemory])
    - src/utils.js          ([withRetry], [shouldRetryHttpError],
                             [generateTransactionFingerprint], [batchArray])
    - src/sync.js           ([sync], Gmail source)
    - src/learnLunchMoney.js ([buildMemoryFromLunchMoney])

  and, around them,

    - src/utils.js          ([RateLimiter], [sanitizeErrorForLogging])
    - src/memory.js         ([clearMemory], [getMemoryStats])
    - src/fetchLM.js        ([fetchTransactions])
    - src/fetchFintoc.js    ([fetchFintocTransactions])
    - src/config.js         ([loadConfig])
    - the command line      ([run])

  followed by the properties proved about them.

  Modelling conventions.
  - A JavaScript string whose UTF-16 code units are all below 256 is a
    [string], one [ascii] per code unit.
  - An ordinary object used as a dictionary is the list of its own
    properties in creation order ([JsObject]); [Object_entries] gives the
    enumeration order of the language: array-index keys first, ascending,
    then the remaining keys in creation order.  Properties inherited from
    [Object.prototype] are not part of the model.
  - A [Set] of strings on which only [add], [has], [size] and an
    order-insensitive traversal are used is a [gset string].
  - Numbers that are amounts are kept abstract ([JsNumber]); similarity
    ratings are quotients of two small naturals and are kept as exact
    rationals.
  - Module-level variables, the memory file, the console and the remote
    services form the [World]; what the remote services and the file
    system answer is given by an [Env] of oracles indexed by the number of
    external calls made so far.  [async] code is sequential: every call is
    awaited. *)

From stdpp Require Import gmap strings list sets sorting.
From Stdlib Require Import QArith Ascii String DecimalString DecimalZ.

Local Open Scope Z_scope.
Local Open Scope nat_scope.

(* ================================================================= *)
(** ** JavaScript strings *)

Module Js.

(** Truthiness of a string value: every string but the empty one. *)
Definition truthy (s : string) : bool := bool_decide (s ≠ "").

Definition in_range (lo hi : nat) (c : ascii) : bool :=
  Nat.leb lo (nat_of_ascii c) && Nat.leb (nat_of_ascii c) hi.

(** [toLowerCase] on one code unit below 256: A-Z, and the upper-case
    letters of Latin-1 (U+00C0-U+00DE without the multiplication sign). *)
Definition toLowerChar (c : ascii) : ascii :=
  if in_range 65 90 c
     || (in_range 192 222 c && negb (Nat.eqb (nat_of_ascii c) 215))
  then ascii_of_nat (nat_of_ascii c + 32)
  else c.

Fixpoint toLowerCase (s : string) : string :=
  match s with
  | EmptyString => EmptyString
  | String c r => String (toLowerChar c) (toLowerCase r)
  end.

(** White space removed by [trim], among the code units below 256:
    TAB, LF, VT, FF, CR, SPACE and NO-BREAK SPACE. *)
Definition isWhiteSpace (c : ascii) : bool :=
  in_range 9 13 c || Nat.eqb (nat_of_ascii c) 32
  || Nat.eqb (nat_of_ascii c) 160.

Fixpoint trimStart (s : string) : string :=
  match s with
  | EmptyString => EmptyString
  | String c r => if isWhiteSpace c then trimStart r else s
  end.

Fixpoint trimEnd (s : string) : string :=
  match s with
  | EmptyString => EmptyString
  | String c r =>
      match trimEnd r with
      | EmptyString => if isWhiteSpace c then EmptyString
                       else String c EmptyString
      | r' => String c r'
      end
  end.

Definition trim (s : string) : string := trimEnd (trimStart s).

(** [s.includes(t)]: [t] occurs in [s] as a contiguous substring. *)
Fixpoint includes (s t : string) : bool :=
  String.prefix t s
  || match s with
     | EmptyString => false
     | String _ r => includes r t
       end.

(** [s.substr(i, n)] and [s.substring(0, n)] for in-range arguments. *)
Definition substr (s : string) (i n : nat) : string := String.substring i n s.
Definition substring0 (s : string) (n : nat) : string := String.substring 0 n s.

(** [s.replace(/[cs]/g, '')]: drop every code unit satisfying [p]. *)
Fixpoint removeChars (p : ascii → bool) (s : string) : string :=
  match s with
  | EmptyString => EmptyString
  | String c r => if p c then removeChars p r else String c (removeChars p r)
  end.

(** [s.repeat(n)] *)
Fixpoint repeat (s : string) (n : nat) : string :=
  match n with
  | 0 => EmptyString
  | S n' => s +:+ repeat s n'
  end.

Definition occurs (c : ascii) (s : string) : Prop :=
  c ∈ list_ascii_of_string s.

(** Decimal rendering of an integer, as a template literal gives it. *)
Definition intToString (z : Z) : string :=
  NilZero.string_of_int (Z.to_int z).

End Js.

(** Truthiness of a value that is [null]/[undefined] or a string. *)
Definition truthyOpt (x : option string) : bool :=
  match x with
  | Some s => Js.truthy s
  | None => false
  end.

(** [a || b] on such values, and [x || '']. *)
Definition orElse (a b : option string) : option string :=
  if truthyOpt a then a else b.

Definition orEmpty (x : option string) : string := default "" x.

(* ================================================================= *)
(** ** Ordinary objects used as dictionaries *)

Abbreviation JsObject V := (list (string * V)).

Section JsObject.
Context {V : Type}.

(** [o[k]] on own properties. *)
Fixpoint obj_get (o : JsObject V) (k : string) : option V :=
  match o with
  | [] => None
  | (k', v) :: r => if decide (k' = k) then Some v else obj_get r k
  end.

(** [o[k] = v]: an existing property keeps its place, a new one is
    created last. *)
Fixpoint obj_set (o : JsObject V) (k : string) (v : V) : JsObject V :=
  match o with
  | [] => [(k, v)]
  | (k', v') :: r =>
      if decide (k' = k) then (k', v) :: r else (k', v') :: obj_set r k v
  end.

Definition isDigit (c : ascii) : bool := Js.in_range 48 57 c.

Fixpoint digitsValue (acc : N) (s : string) : option N :=
  match s with
  | EmptyString => Some acc
  | String c r =>
      if isDigit c
      then digitsValue (10 * acc + N.of_nat (nat_of_ascii c - 48))%N r
      else None
  end.

(** A property key is an array index when it is the canonical decimal
    form of an integer in [0, 2^32 - 2]. *)
Definition arrayIndex (k : string) : option N :=
  match k with
  | EmptyString => None
  | String c r =>
      if (negb (Nat.eqb (nat_of_ascii c) 48) || bool_decide (r = ""))
         && Nat.leb (String.length k) 10
      then match digitsValue 0 k with
           | Some n => if (n <? 4294967295)%N then Some n else None
           | None => None
           end
      else None
  end.

Fixpoint insertIndexed (e : N * (string * V)) (l : list (N * (string * V)))
  : list (N * (string * V)) :=
  match l with
  | [] => [e]
  | e' :: r => if (e.1 <=? e'.1)%N then e :: l else e' :: insertIndexed e r
  end.

Fixpoint indexedEntries (o : JsObject V) : list (N * (string * V)) :=
  match o with
  | [] => []
  | (k, v) :: r =>
      match arrayIndex k with
      | Some n => insertIndexed (n, (k, v)) (indexedEntries r)
      | None => indexedEntries r
      end
  end.

Definition namedEntries (o : JsObject V) : JsObject V :=
  filter (λ e, arrayIndex e.1 = None) o.

(** [Object.entries(o)]. *)
Definition Object_entries (o : JsObject V) : list (string * V) :=
  (snd <$> indexedEntries o) ++ namedEntries o.

(** [Object.keys(o)]. *)
Definition Object_keys (o : JsObject V) : list string :=
  fst <$> Object_entries o.

End JsObject.

(* ================================================================= *)
(** ** Exceptions, the world and its monad *)

Record JsError := mkError {
  err_message : string;
  err_status : option nat        (* [error.response.status], when present *)
}.

Inductive Result (A : Type) : Type :=
| Ok (a : A)
| Throw (e : JsError).
Arguments Ok {A} a.
Arguments Throw {A} e.

Inductive MatchSource :=
| config_rule
| memory_exact
| memory_fuzzy (rating : Q).

(** What is written to the console, by the statement that writes it. *)
Inductive LogEvent :=
| LogLoadMemoryWarning
| LogSaveMemoryError
| LogLearned (payee category : string) (source : MatchSource)
| LogCategoryNotFound (category : string)
| LogCategoryLookupError (category message : string)
| LogRetry (attempt : nat) (message : string)
| LogGmailFound (n : nat)
| LogGmailFetchError (message : string)
| LogNoTransactions
| LogProcessing (n : nat)
| LogExistingFetchError (message : string)
| LogExistingFound (n : nat)
| LogDuplicateSkipped (method date amount payee : string)
| LogCategorizeFailed (payee message : string)
| LogProcessingFailed (date payee message : string)
| LogProcessingSummary (new skipped errors : nat)
| LogNoNewTransactions
| LogDryRun (n : nat)
| LogDryRunNew (date amount payee : string) (category_id : option N)
| LogInsertingBatch (i batches size : nat)
| LogBatchInserted (i size : nat)
| LogBatchInsertError (i : nat) (message : string)
| LogFinalSummary (inserted failedBatches processingErrors : nat)
| LogLearningFrom (startDate : string)
| LogHistoryFound (n : nat)
| LogLearningStats (processed learned payees categories : nat)
| LogMemorySaved
| LogLearningError (message : string).

(** The memory file [categorization_memory.json]: absent, not parsable,
  or holding an object of strings. *)
Inductive FileState :=
| FileAbsent
| FileCorrupt
| FileObject (o : JsObject string).

Record World := mkWorld {
  categoriesCache : option (JsObject N);    (* [let categoriesCache = null] *)
memoryCache : option (JsObject string);   (* [let memoryCache = null] *)
memoryFile : FileState;
clock : nat;                              (* external calls made so far *)
console : list LogEvent                   (* oldest first *)
}.

Definition M (A : Type) : Type := World → Result A * World.

Definition ret {A} (a : A) : M A := λ w, (Ok a, w).
Definition throw {A} (e : JsError) : M A := λ w, (Throw e, w).
Definition bind {A B} (c : M A) (k : A → M B) : M B :=
  λ w, match c w with
       | (Ok a, w') => k a w'
       | (Throw e, w') => (Throw e, w')
       end.
Definition tryCatch {A} (body : M A) (handler : JsError → M A) : M A :=
  λ w, match body w with
       | (Ok a, w') => (Ok a, w')
       | (Throw e, w') => handler e w'
       end.

Notation "'let!' x ':=' c 'in' k" := (bind c (λ x, k))
  (at level 10, x name, c at level 100, k at level 200, only parsing).
Notation "'do!' c 'in' k" := (bind c (λ _, k))
  (at level 10, c at level 100, k at level 200, only parsing).

Definition getWorld : M World := λ w, (Ok w, w).
Definition log (ev : LogEvent) : M unit :=
  λ w, (Ok tt, mkWorld (categoriesCache w) (memoryCache w) (memoryFile w)
                     (clock w) (console w ++ [ev])).
Definition tick : M nat :=
  λ w, (Ok (clock w),
      mkWorld (categoriesCache w) (memoryCache w) (memoryFile w)
              (S (clock w)) (console w)).
Definition setCategoriesCache (c : option (JsObject N)) : M unit :=
  λ w, (Ok tt, mkWorld c (memoryCache w) (memoryFile w) (clock w) (console w)).
Definition setMemoryCache (c : option (JsObject string)) : M unit :=
  λ w, (Ok tt, mkWorld (categoriesCache w) c (memoryFile w) (clock w) (console w)).
Definition setMemoryFile (f : FileState) : M unit :=
  λ w, (Ok tt, mkWorld (categoriesCache w) (memoryCache w) f (clock w) (console w)).

(** A call to a remote service or to the file system: the oracle answers
  by the number of external calls made before this one. *)
Definition external {A} (oracle : nat → Result A) : M A :=
  let! n := tick in λ w, (oracle n, w).

(** The answers of the collaborators, by external call number. *)
Record Category := mkCategory {
  cat_name : string;
  cat_id : option N              (* [cat.id], absent when null *)
}.

(* ================================================================= *)
(** ** categorize.js: similarity scorer *)

(** [for (let i = 0; i < a.length - 1; i++) set.add(a.substr(i, 2))] *)
Definition bigramLoop (a : string) : gset string :=
  foldl (λ set i, set ∪ {[ Js.substr a i 2 ]}) ∅ (seq 0 (String.length a - 1)).

Definition ratio (n d : nat) : Q :=
  (inject_Z (Z.of_nat n) / inject_Z (Z.of_nat d))%Q.

Definition calculateSimilarity (str1 str2 : string) : Q :=
  if negb (Js.truthy str1) || negb (Js.truthy str2) then 0%Q
  else
    let a := Js.toLowerCase str1 in
    let b := Js.toLowerCase str2 in
    if decide (a = b) then 1%Q
    else if Nat.ltb (String.length a) 2 || Nat.ltb (String.length b) 2 then 0%Q
    else
      let aBigrams := bigramLoop a in
      let bBigrams := bigramLoop b in
      let intersection := filter (λ x, x ∈ bBigrams) aBigrams in
      ratio (2 * size intersection) (size aBigrams + size bBigrams).

Record BestMatch := mkBestMatch {
  bm_target : option string;
  bm_rating : Q
}.

Definition findBestMatch (target : string) (candidates : list string)
  : BestMatch :=
  foldl (λ bestMatch candidate,
           let rating := calculateSimilarity target candidate in
           if negb (Qle_bool rating (bm_rating bestMatch))
           then mkBestMatch (Some candidate) rating
           else bestMatch)
        (mkBestMatch None 0%Q) candidates.

(** The Dice coefficient of the specification, on bigram sets defined by
    recursion on the string. *)
Fixpoint bigramSet (s : string) : gset string :=
  match s with
  | String c1 (String c2 _ as r) =>
      {[ String c1 (String c2 EmptyString) ]} ∪ bigramSet r
  | _ => ∅
  end.

Definition diceCoefficient (a b : string) : Q :=
  let A := bigramSet (Js.toLowerCase a) in
  let B := bigramSet (Js.toLowerCase b) in
  ratio (2 * size (A ∩ B)) (size A + size B).

(* ================================================================= *)
(** ** memory.js *)

Record Env := mkEnv {
  http_get_categories : nat → Result (list Category);
  fs_write_ok : nat → bool
}.

(** [loadMemory()]: the parsed file, or [{}] when the file is missing or
    cannot be parsed (the latter with a warning). *)
Definition loadMemory : M (JsObject string) :=
  let! w := getWorld in
  match memoryFile w with
  | FileObject o => ret o
  | FileCorrupt => do! log LogLoadMemoryWarning in ret []
  | FileAbsent => ret []
  end.

(** [saveMemory(memory)]: [JSON.stringify] writes the properties in
    enumeration order; a failed write is logged and swallowed. *)
Definition saveMemory (env : Env) (memory : JsObject string) : M unit :=
  let! n := tick in
  if fs_write_ok env n
  then setMemoryFile (FileObject (Object_entries memory))
  else log LogSaveMemoryError.

(* ================================================================= *)
(** ** categorize.js: category resolver and categorization engine *)

Definition getCategoriesMap (env : Env) : M (JsObject N) :=
  let! w := getWorld in
  match categoriesCache w with
  | Some cache => ret cache
  | None =>
      tryCatch
        (let! categories := external (http_get_categories env) in
         let map :=
           foldl (λ map cat,
                    match cat_id cat with
                    | Some id =>
                        if Js.truthy (cat_name cat)
                        then obj_set map (Js.toLowerCase (cat_name cat)) id
                        else map
                    | None => map
                    end) [] categories in
         do! setCategoriesCache (Some map) in
         ret map)
        (λ err, throw (mkError ("Failed to fetch categories: "
                                 +:+ err_message err) None))
  end.

(** [categories[name] || null]: an id of 0 is falsy. *)
Definition orNull (id : option N) : option N :=
  match id with
  | Some 0%N => None
  | _ => id
  end.

Definition getCategoryId (env : Env) (categoryName : string) : M (option N) :=
  if negb (Js.truthy categoryName) then ret None
  else
    let! categories := getCategoriesMap env in
    ret (orNull (obj_get categories (Js.toLowerCase categoryName))).

(** The character class of the regular expression in [sanitizePayee]:
    less-than, greater-than, double quote (code 34), single quote, slash
    and backslash. *)
Definition dangerous (c : ascii) : bool :=
  bool_decide (c ∈ ["<"; ">"; "034"; "'"; "/"; "\"]%char).

Definition sanitizePayee (payee : string) : string :=
  if negb (Js.truthy payee) then ""
  else Js.substring0 (Js.trim (Js.removeChars dangerous payee)) 255.

(** The first entry of a dictionary whose key, lower-cased, occurs in
    [lowerPayee]: the [for ... of Object.entries(..)] loops with [break]. *)
Definition firstIncluded (lowerPayee : string) (o : JsObject string)
  : option (string * string) :=
  find (λ e, Js.includes lowerPayee (Js.toLowerCase e.1)) (Object_entries o).

(** [matchSource === 'config_rule'] *)
Definition isConfigRule (matchSource : option MatchSource) : bool :=
  match matchSource with
  | Some config_rule => true
  | _ => false
  end.

Definition typeErrorNullObject : JsError :=
  mkError "Cannot convert undefined or null to object" None.

(** Steps 1 to 3 of [assignCategoryId]: the values of [categoryName] and
    [matchSource] when step 4 is reached. *)
Definition matchCategory (sanitizedPayee : string)
    (categoryRules memoryCache : JsObject string)
  : option string * option MatchSource :=
  (* 1. Exact config rule match (highest priority) *)
  let lowerPayee := Js.toLowerCase sanitizedPayee in
  let '(categoryName, matchSource) :=
    match firstIncluded lowerPayee categoryRules with
    | Some (_, category) => (Some category, Some config_rule)
    | None => (None, None)
    end in
  (* 2. Exact memory match *)
  let '(categoryName, matchSource) :=
    if negb (truthyOpt categoryName)
    then match firstIncluded lowerPayee memoryCache with
         | Some (_, category) => (Some category, Some memory_exact)
         | None => (categoryName, matchSource)
         end
    else (categoryName, matchSource) in
  (* 3. Fuzzy memory match (70% similarity threshold) *)
  if negb (truthyOpt categoryName)
     && Nat.ltb 0 (List.length (Object_keys memoryCache))
  then
    let memorizedPayees := Object_keys memoryCache in
    let bestMatch := findBestMatch sanitizedPayee memorizedPayees in
    if Qle_bool (7 # 10) (bm_rating bestMatch)
    then (bm_target bestMatch ≫= obj_get memoryCache,
          Some (memory_fuzzy (bm_rating bestMatch)))
    else (categoryName, matchSource)
  else (categoryName, matchSource).

(** Step 4: save a successful match to memory (except config rules). *)
Definition learnMatch (env : Env) (sanitizedPayee : string)
    (memory : JsObject string) (categoryName : option string)
    (matchSource : option MatchSource) : M unit :=
  if truthyOpt categoryName && negb (isConfigRule matchSource)
  then
    let existingEntry := obj_get memory sanitizedPayee in
    if negb (truthyOpt existingEntry)
       || negb (bool_decide (existingEntry = categoryName))
    then
      let memory' := obj_set memory sanitizedPayee (orEmpty categoryName) in
      do! setMemoryCache (Some memory') in
      do! saveMemory env memory' in
      log (LogLearned sanitizedPayee (orEmpty categoryName)
             (default memory_exact matchSource))
    else ret tt
  else ret tt.

(** Step 5: look up the category id; an error of the lookup is logged. *)
Definition lookUpCategory (env : Env) (categoryName : option string)
  : M (option N) :=
  if truthyOpt categoryName
  then
    tryCatch
      (let! categoryId := getCategoryId env (orEmpty categoryName) in
       match categoryId with
       | Some id => ret (Some id)
       | None =>
           do! log (LogCategoryNotFound (orEmpty categoryName)) in ret None
       end)
      (λ err,
         do! log (LogCategoryLookupError (orEmpty categoryName)
                    (err_message err)) in
         ret None)
  else ret None.

(** [if (!memoryCache) memoryCache = loadMemory()] *)
Definition loadMemoryOnce : M (JsObject string) :=
  let! w := getWorld in
  match memoryCache w with
  | Some m => ret m
  | None => let! m := loadMemory in
            do! setMemoryCache (Some m) in
            ret m
  end.

(** [assignCategoryId(token, payee, categoryRules)].  [categoryRules] is
    [None] when the caller passes [null], on which [Object.entries]
    throws. *)
Definition assignCategoryId (env : Env) (payee : string)
    (categoryRules : option (JsObject string)) : M (option N) :=
  if negb (Js.truthy payee) then ret None
  else
    let sanitizedPayee := sanitizePayee payee in
    if negb (Js.truthy sanitizedPayee) then ret None
    else
      (* Load memory once per sync session *)
      let! memory := loadMemoryOnce in
      let! rules :=
        match categoryRules with
        | Some r => ret r
        | None => throw typeErrorNullObject
        end in
      let '(categoryName, matchSource) :=
        matchCategory sanitizedPayee rules memory in
      do! learnMatch env sanitizedPayee memory categoryName matchSource in
      lookUpCategory env categoryName.

(* ================================================================= *)
(** ** utils.js *)

(** The two renderings of a JavaScript number that the program uses. *)
Class JsNumber (num : Type) := {
  num_toString : num → string;     (* the template literal [`${x}`] *)
  num_toFixed2 : num → string      (* [x.toFixed(2)] *)
}.

(** [crypto.createHash('sha256').update(key).digest('hex')] *)
Class Sha256 := sha256_hex : string → string.

(** [shouldRetryHttpError(error)] *)
Definition shouldRetryHttpError (error : JsError) : bool :=
  match err_status error with
  | None => true                                   (* network error *)
  | Some status => Nat.leb 500 status || Nat.eqb status 429
  end.

(** [withRetry(fn, maxRetries, baseDelay, shouldRetry)]: the loop over
    [attempt], entered with [attempt] and [maxRetries - attempt]; the
    delay between two attempts only passes time. *)
Fixpoint withRetryFrom {A} (fn : M A) (shouldRetry : option (JsError → bool))
    (attempt retriesLeft : nat) : M A :=
  tryCatch fn
    (λ error,
       match retriesLeft with
       | 0 => throw error                     (* attempt === maxRetries *)
       | S retriesLeft' =>
           if match shouldRetry with
              | Some p => negb (p error)
              | None => false
              end
           then throw error
           else
             do! log (LogRetry (attempt + 1) (err_message error)) in
             withRetryFrom fn shouldRetry (S attempt) retriesLeft'
       end).

Definition withRetry {A} (fn : M A) (maxRetries : nat)
    (shouldRetry : option (JsError → bool)) : M A :=
  withRetryFrom fn shouldRetry 0 maxRetries.

(** [batchArray(array, batchSize)], for a positive [batchSize]. *)
Fixpoint batchLoop {A} (fuel : nat) (array : list A) (batchSize : nat)
  : list (list A) :=
  match fuel, array with
  | S fuel', _ :: _ =>
      take batchSize array :: batchLoop fuel' (drop batchSize array) batchSize
  | _, _ => []
  end.

Definition batchArray {A} (array : list A) (batchSize : nat) : list (list A) :=
  batchLoop (List.length array) array batchSize.

(** The object literal handed to [generateTransactionFingerprint]. *)
Record TxIdentity (num : Type) := mkTxIdentity {
  id_date : string;
  id_amount : num;
  id_payee : string;
  id_reference : option string       (* [undefined] or a string *)
}.
Arguments mkTxIdentity {num} _ _ _ _.
Arguments id_date {num} _.
Arguments id_amount {num} _.
Arguments id_payee {num} _.
Arguments id_reference {num} _.

Section Fingerprint.
Context {num : Type} `{JsNumber num} `{Sha256}.

(** The string that is hashed. *)
Definition fingerprintKey (transaction : TxIdentity num) : string :=
  id_date transaction +:+ "-" +:+ num_toString (id_amount transaction)
  +:+ "-" +:+ id_payee transaction
  +:+ "-" +:+ orEmpty (id_reference transaction).

Definition generateTransactionFingerprint (transaction : TxIdentity num)
  : string :=
  sha256_hex (fingerprintKey transaction).

End Fingerprint.

(** The tuple (date, amount, payee, reference-or-empty) of the
    specification. *)
Definition identityTuple {num} (t : TxIdentity num)
  : string * num * string * string :=
  (id_date t, id_amount t, id_payee t, orEmpty (id_reference t)).

(* ================================================================= *)
(** ** sync.js *)

(** A movement as [fetchBancoChileEmails] returns it. *)
Record Movement (num : Type) := mkMovement {
  mv_date : string;
  mv_amount : num;
  mv_payee : string;
  mv_reference : option string
}.
Arguments mkMovement {num} _ _ _ _.
Arguments mv_date {num} _.
Arguments mv_amount {num} _.
Arguments mv_payee {num} _.
Arguments mv_reference {num} _.

(** A transaction of the target system, with the fields [sync] reads. *)
Record ExistingTx (num : Type) := mkExistingTx {
  ex_date : string;
  ex_amount : num;
  ex_payee : option string;
  ex_external_id : option string;
  ex_id : option N
}.
Arguments mkExistingTx {num} _ _ _ _ _.
Arguments ex_date {num} _.
Arguments ex_amount {num} _.
Arguments ex_payee {num} _.
Arguments ex_external_id {num} _.
Arguments ex_id {num} _.

(** The object posted for a new transaction.  [tx_asset_id] keeps the
    argument of [parseInt]. *)
Record Transaction := mkTransaction {
  tx_date : string;
  tx_amount : string;
  tx_payee : string;
  tx_currency : string;
  tx_category_id : option N;
  tx_asset_id : option string;
  tx_external_id : option string
}.

Inductive DuplicateMethod := method_fingerprint | method_simple.

Record DuplicateInfo := mkDuplicateInfo {
  dup_date : string;
  dup_amount : string;
  dup_payee : string;
  dup_method : DuplicateMethod
}.

Inductive Step := step_categorization | step_processing.

Record ProcessingError (num : Type) := mkProcessingError {
  pe_transaction : Movement num;
  pe_error : string;
  pe_step : Step
}.
Arguments mkProcessingError {num} _ _ _.
Arguments pe_transaction {num} _.
Arguments pe_error {num} _.
Arguments pe_step {num} _.

Record InsertionError := mkInsertionError {
  batchIndex : nat;
  batchSize : nat;
  ie_error : string
}.

(** The object [sync] returns; the last four fields are absent from
    some of its three shapes. *)
Record Summary (num : Type) := mkSummary {
  sum_success : bool;
  sum_processed : nat;
  sum_inserted : nat;
  sum_skipped : nat;
  sum_errors : nat;
  sum_dryRun : option bool;
  sum_batches : option nat;
  sum_insertionErrors : option (list InsertionError);
  sum_processingErrors : option (list (ProcessingError num))
}.
Arguments mkSummary {num} _ _ _ _ _ _ _ _ _.
Arguments sum_success {num} _.
Arguments sum_processed {num} _.
Arguments sum_inserted {num} _.
Arguments sum_skipped {num} _.
Arguments sum_errors {num} _.
Arguments sum_dryRun {num} _.
Arguments sum_batches {num} _.
Arguments sum_insertionErrors {num} _.
Arguments sum_processingErrors {num} _.

(** The configuration object, with the fields [sync] destructures.
    [categoryRules] is [None] for [null]; [currency] is [None] when the
    caller's object has no such string. *)
Record Config := mkConfig {
  lunchmoneyToken : string;
  daysToSync : nat;
  categoryRules : option (JsObject string);
  currency : option string;
  lunchmoneyAssetId : option string;
  gmailClientId : option string;
  gmailClientSecret : option string;
  gmailRefreshToken : option string;
  gmailUser : string
}.

(** The remote collaborators of [sync] and of the learning step. *)
Record HistoryTx := mkHistoryTx {
  h_payee : string;
  h_category_name : option string
}.

Record SyncEnv (num : Type) := mkSyncEnv {
  base_env :> Env;
  fetchBancoChileEmails : nat → Result (list (Movement num));
  fetchTransactions : nat → Result (list (ExistingTx num));
  post_transactions : nat → Result unit;
  fetchTransactionsForLearning : nat → Result (list HistoryTx)
}.
Arguments base_env {num} _.
Arguments fetchBancoChileEmails {num} _ _.
Arguments fetchTransactions {num} _ _.
Arguments post_transactions {num} _ _.
Arguments fetchTransactionsForLearning {num} _ _.

(** The local variables of the loop over the movements. *)
Record LoopState (num : Type) := mkLoopState {
  existingFingerprints : gset string;
  existingSimpleKeys : gset string;
  newTransactions : list Transaction;
  skippedDuplicates : list DuplicateInfo;
  processingErrors : list (ProcessingError num)
}.
Arguments mkLoopState {num} _ _ _ _ _.
Arguments existingFingerprints {num} _.
Arguments existingSimpleKeys {num} _.
Arguments newTransactions {num} _.
Arguments skippedDuplicates {num} _.
Arguments processingErrors {num} _.

(** [for (const x of l) body], with the local variables threaded. *)
Fixpoint forEachM {S A} (body : S → A → M S) (s : S) (l : list A) : M S :=
  match l with
  | [] => ret s
  | x :: r => let! s' := body s x in forEachM body s' r
  end.

Definition typeErrorToLowerCase : JsError :=
  mkError "Cannot read properties of undefined (reading 'toLowerCase')" None.

Section Sync.
Context {num : Type} `{JsNumber num} `{Sha256}.

(** [`${tx.date}-${Number(tx.amount).toFixed(2)}`] *)
Definition simpleKeyOf (date : string) (amount : num) : string :=
  date +:+ "-" +:+ num_toFixed2 amount.

(** A numeric [tx.id] as the fingerprint renders it; 0 is falsy. *)
Definition idReference (id : option N) : option string :=
  match id with
  | Some 0%N | None => None
  | Some n => Some (Js.intToString (Z.of_N n))
  end.

Definition existingIdentity (tx : ExistingTx num) : TxIdentity num :=
  mkTxIdentity (ex_date tx) (ex_amount tx) (orEmpty (ex_payee tx))
    (orElse (ex_external_id tx) (idReference (ex_id tx))).

Definition movementIdentity (movement : Movement num) : TxIdentity num :=
  mkTxIdentity (mv_date movement) (mv_amount movement) (mv_payee movement)
    (mv_reference movement).

(** The loop over [existing] that fills the two sets. *)
Definition collectExisting (existing : list (ExistingTx num))
  : gset string * gset string :=
  foldl (λ '(existingFingerprints, existingSimpleKeys) tx,
           let simpleKey := simpleKeyOf (ex_date tx) (ex_amount tx) in
           let fingerprint :=
             generateTransactionFingerprint (existingIdentity tx) in
           (existingFingerprints ∪ {[ fingerprint ]},
            existingSimpleKeys ∪ {[ simpleKey ]}))
        (∅, ∅) existing.

Definition isDuplicate (st : LoopState num) (movement : Movement num) : bool :=
  bool_decide (simpleKeyOf (mv_date movement) (mv_amount movement)
                 ∈ existingSimpleKeys st)
  || bool_decide (generateTransactionFingerprint (movementIdentity movement)
                    ∈ existingFingerprints st).

Definition buildTransaction (config : Config) (cur : string)
    (movement : Movement num) (categoryId : option N) : Transaction :=
  {| tx_date := mv_date movement;
     tx_amount := num_toFixed2 (mv_amount movement);
     tx_payee := mv_payee movement;
     tx_currency := Js.toLowerCase cur;
     tx_category_id := orNull categoryId;
     tx_asset_id := if truthyOpt (lunchmoneyAssetId config)
                    then lunchmoneyAssetId config else None;
     tx_external_id := if truthyOpt (mv_reference movement)
                       then mv_reference movement else None |}.

(** The body of [for (const movement of movements) { try { .. } catch .. }].
    Once the categorization has been attempted, [currency.toLowerCase()]
    is the one statement of the [try] block that can still throw; the outer
    [catch] then records the movement with step 'processing'. *)
Definition processMovement (env : Env) (config : Config)
    (st : LoopState num) (movement : Movement num) : M (LoopState num) :=
  (* Check for duplicates using both methods *)
  let simpleKey := simpleKeyOf (mv_date movement) (mv_amount movement) in
  let fingerprint :=
    generateTransactionFingerprint (movementIdentity movement) in
  if bool_decide (simpleKey ∈ existingSimpleKeys st)
     || bool_decide (fingerprint ∈ existingFingerprints st)
  then
    let duplicateInfo :=
      {| dup_date := mv_date movement;
         dup_amount := num_toFixed2 (mv_amount movement);
         dup_payee := mv_payee movement;
         dup_method := if bool_decide (fingerprint ∈ existingFingerprints st)
                       then method_fingerprint else method_simple |} in
    do! log (LogDuplicateSkipped
               (match dup_method duplicateInfo with
                | method_fingerprint => "fingerprint"
                | method_simple => "simple"
                end)
               (mv_date movement) (num_toFixed2 (mv_amount movement))
               (mv_payee movement)) in
    (* continue *)
    ret (mkLoopState (existingFingerprints st) (existingSimpleKeys st)
           (newTransactions st)
           (skippedDuplicates st ++ [duplicateInfo])
           (processingErrors st))
  else
    (* Assign category with retry logic *)
    let! categorized :=
      tryCatch
        (let! categoryId :=
           withRetry
             (assignCategoryId env (mv_payee movement) (categoryRules config))
             2 None in
         ret (categoryId, processingErrors st))
        (λ err,
           do! log (LogCategorizeFailed (mv_payee movement) (err_message err)) in
           (* Continue without category rather than failing the entire
              transaction *)
           ret (None,
                processingErrors st
                  ++ [mkProcessingError movement (err_message err)
                        step_categorization])) in
    let '(categoryId, processingErrors1) := categorized in
    match currency config with
    | Some cur =>
        let transaction := buildTransaction config cur movement categoryId in
        (* Add to our tracking sets to prevent duplicates within this batch *)
        ret (mkLoopState (existingFingerprints st ∪ {[ fingerprint ]})
               (existingSimpleKeys st ∪ {[ simpleKey ]})
               (newTransactions st ++ [transaction])
               (skippedDuplicates st)
               processingErrors1)
    | None =>
        let err := typeErrorToLowerCase in
        do! log (LogProcessingFailed (mv_date movement) (mv_payee movement)
                   (err_message err)) in
        ret (mkLoopState (existingFingerprints st) (existingSimpleKeys st)
               (newTransactions st)
               (skippedDuplicates st)
               (processingErrors1
                  ++ [mkProcessingError movement (err_message err)
                        step_processing]))
    end.

Definition processMovements (env : Env) (config : Config)
    (st : LoopState num) (movements : list (Movement num))
  : M (LoopState num) :=
  forEachM (processMovement env config) st movements.

(** The body of the loop over the batches; the locals are
    [totalInserted] and [insertionErrors]. *)
Definition insertBatch (env : SyncEnv num) (nbatches : nat)
    (acc : nat * list InsertionError) (ib : nat * list Transaction)
  : M (nat * list InsertionError) :=
  let '(totalInserted, insertionErrors) := acc in
  let '(i, batch) := ib in
  do! log (LogInsertingBatch (i + 1) nbatches (List.length batch)) in
  tryCatch
    (do! withRetry (external (post_transactions env)) 3
           (Some shouldRetryHttpError) in
     do! log (LogBatchInserted (i + 1) (List.length batch)) in
     ret (totalInserted + List.length batch, insertionErrors))
    (λ err,
       do! log (LogBatchInsertError (i + 1) (err_message err)) in
       ret (totalInserted,
            insertionErrors
              ++ [mkInsertionError i (List.length batch) (err_message err)])).

(** [sync({ config, dryRun })]; [None] is a run that returns no summary. *)
Definition sync (env : SyncEnv num) (config : Config) (dryRun : bool)
  : M (option (Summary num)) :=
  (* Fetch Gmail Banco de Chile transactions if configured *)
  let! movements :=
    if truthyOpt (gmailClientId config)
       && truthyOpt (gmailClientSecret config)
       && truthyOpt (gmailRefreshToken config)
    then
      tryCatch
        (let! gmailTx :=
           withRetry (external (fetchBancoChileEmails env)) 3
             (Some shouldRetryHttpError) in
         do! log (LogGmailFound (List.length gmailTx)) in
         ret gmailTx)
        (λ err, do! log (LogGmailFetchError (err_message err)) in ret [])
    else ret [] in
  if Nat.eqb (List.length movements) 0
  then do! log LogNoTransactions in ret None
  else
    do! log (LogProcessing (List.length movements)) in
    (* Fetch existing Lunch Money transactions for dedupe with retry logic *)
    let! fetched :=
      tryCatch
        (let! existing :=
           withRetry (external (fetchTransactions env)) 3
             (Some shouldRetryHttpError) in
         ret (Some existing))
        (λ err, do! log (LogExistingFetchError (err_message err)) in ret None)
    in
    match fetched with
    | None => ret None
    | Some existing =>
        do! log (LogExistingFound (List.length existing)) in
        let '(fingerprints, simpleKeys) := collectExisting existing in
        let! st :=
          processMovements env config
            (mkLoopState fingerprints simpleKeys [] [] []) movements in
        (* Summary of processing *)
        do! log (LogProcessingSummary (List.length (newTransactions st))
                   (List.length (skippedDuplicates st))
                   (List.length (processingErrors st))) in
        if Nat.eqb (List.length (newTransactions st)) 0
        then
          do! log LogNoNewTransactions in
          ret (Some (mkSummary true (List.length movements) 0
                       (List.length (skippedDuplicates st))
                       (List.length (processingErrors st))
                       None None None None))
        else if dryRun
        then
          do! log (LogDryRun (List.length (newTransactions st))) in
          do! forEachM
                (λ _ tx, log (LogDryRunNew (tx_date tx) (tx_amount tx)
                                (tx_payee tx) (tx_category_id tx)))
                tt (newTransactions st) in
          ret (Some (mkSummary true (List.length movements)
                       (List.length (newTransactions st))
                       (List.length (skippedDuplicates st))
                       (List.length (processingErrors st))
                       (Some true) None None None))
        else
          (* Insert new transactions with batching for large sets *)
          let batchSize := 50 in
          let batches := batchArray (newTransactions st) batchSize in
          let! inserted :=
            forEachM (insertBatch env (List.length batches)) (0, [])
              (imap (λ i batch, (i, batch)) batches) in
          let '(totalInserted, insertionErrors) := inserted in
          do! log (LogFinalSummary totalInserted (List.length insertionErrors)
                     (List.length (processingErrors st))) in
          ret (Some (mkSummary
                       (Nat.eqb (List.length insertionErrors) 0)
                       (List.length movements)
                       totalInserted
                       (List.length (skippedDuplicates st))
                       (List.length (processingErrors st)
                        + List.length insertionErrors)
                       None
                       (Some (List.length batches))
                       (Some insertionErrors)
                       (Some (processingErrors st))))
    end.

End Sync.

(* ================================================================= *)
(** ** learnLunchMoney.js *)

(** Only learn from transactions that have both payee and category. *)
Definition learnable (tx : HistoryTx) : bool :=
  Js.truthy (h_payee tx) && truthyOpt (h_category_name tx)
  && Js.truthy (Js.trim (h_payee tx))
  && Js.truthy (Js.trim (orEmpty (h_category_name tx))).

(** The body of the first loop: count the category under the payee. *)
Definition recordCategory (categoryStats : JsObject (JsObject nat))
    (tx : HistoryTx) : JsObject (JsObject nat) :=
  if learnable tx then
    let payee := Js.trim (h_payee tx) in
    let category := Js.trim (orEmpty (h_category_name tx)) in
    let categoryStats :=
      match obj_get categoryStats payee with
      | Some _ => categoryStats
      | None => obj_set categoryStats payee []
      end in
    let counts := default [] (obj_get categoryStats payee) in
    let counts :=
      match obj_get counts category with
      | Some (S _) => counts
      | _ => obj_set counts category 0
      end in
    let counts :=
      obj_set counts category (default 0 (obj_get counts category) + 1) in
    obj_set categoryStats payee counts
  else categoryStats.

(** The inner loop: the most frequently used category of a payee. *)
Definition preferredCategory (categories : JsObject nat)
  : nat * option string :=
  foldl (λ '(maxCount, preferredCategory) '(category, count),
           if Nat.ltb maxCount count
           then (count, Some category)
           else (maxCount, preferredCategory))
        (0, None) (Object_entries categories).

(** The body of the second loop. *)
Definition learnPayee (memory : JsObject string)
    (entry : string * JsObject nat) : JsObject string :=
  let '(payee, categories) := entry in
  let '(maxCount, preferredCategory) := preferredCategory categories in
  match preferredCategory with
  | Some category =>
      if Js.truthy category && Nat.leb 2 maxCount   (* at least 2 occurrences *)
      then obj_set memory payee category
      else memory
  | None => memory
  end.

(** Both loops of [buildMemoryFromLunchMoney], on a fetched history. *)
Definition learnFromHistory (history : list HistoryTx) : JsObject string :=
  let categoryStats := foldl recordCategory [] history in
  foldl learnPayee [] (Object_entries categoryStats).

Definition buildMemoryFromLunchMoney {num} (env : SyncEnv num)
    (startDate : string) (saveToFile : bool) : M (JsObject string) :=
  do! log (LogLearningFrom startDate) in
  tryCatch
    (let! history :=
       withRetry (external (fetchTransactionsForLearning env)) 3
         (Some shouldRetryHttpError) in
     do! log (LogHistoryFound (List.length history)) in
     let memory := learnFromHistory history in
     do! log (LogLearningStats (List.length history)
                (List.length (Object_keys memory))
                (List.length (Object_keys memory))
                (size (list_to_set (snd <$> Object_entries memory)
                         : gset string))) in
     do! (if saveToFile
          then do! saveMemory env memory in log LogMemorySaved
          else ret tt) in
     ret memory)
    (λ error,
       do! log (LogLearningError (err_message error)) in
       throw error).




(** The order in which an object enumerates keys created in the order
    [keys]. *)
Definition keyOrder (keys : list string) : list string :=
  Object_keys ((λ k, (k, tt)) <$> keys).

(** An instance of the number renderings on integer amounts, as the Gmail
    parser produces them: [`${x}`] is the decimal form and [toFixed(2)]
    appends two zero decimals. *)
#[export] Instance integerAmounts : JsNumber Z := {
  num_toString z := Js.intToString z;
  num_toFixed2 z := Js.intToString z +:+ ".00"
}.

(* ================================================================= *)
(** ** Notions of the specification *)

(** Two identities differ in exactly one of the four fields of the
    tuple. *)
Definition differInOneField {num} (t1 t2 : TxIdentity num) : Prop :=
  (id_date t1 ≠ id_date t2 ∧ id_amount t1 = id_amount t2
   ∧ id_payee t1 = id_payee t2
   ∧ orEmpty (id_reference t1) = orEmpty (id_reference t2))
  ∨ (id_date t1 = id_date t2 ∧ id_amount t1 ≠ id_amount t2
     ∧ id_payee t1 = id_payee t2
     ∧ orEmpty (id_reference t1) = orEmpty (id_reference t2))
  ∨ (id_date t1 = id_date t2 ∧ id_amount t1 = id_amount t2
     ∧ id_payee t1 ≠ id_payee t2
     ∧ orEmpty (id_reference t1) = orEmpty (id_reference t2))
  ∨ (id_date t1 = id_date t2 ∧ id_amount t1 = id_amount t2
     ∧ id_payee t1 = id_payee t2
     ∧ orEmpty (id_reference t1) ≠ orEmpty (id_reference t2)).

(** The learned memory as the program sees it: the cache once it is
    loaded, before that what [loadMemory] reads from the file. *)
Definition fileMemory (f : FileState) : JsObject string :=
  match f with
  | FileObject o => o
  | FileCorrupt | FileAbsent => []
  end.

Definition currentMemory (w : World) : JsObject string :=
  match memoryCache w with
  | Some m => m
  | None => fileMemory (memoryFile w)
  end.

(** A category name counts as found when it is a non-empty string. *)
Definition nonEmpty (c : string) : option string :=
  if Js.truthy c then Some c else None.

(** The layers of the categorization engine, one by one. *)
Definition ruleCategory (sanitizedPayee : string) (rules : JsObject string)
  : option string :=
  match firstIncluded (Js.toLowerCase sanitizedPayee) rules with
  | Some (_, category) => nonEmpty category
  | None => None
  end.

Definition exactCategory (sanitizedPayee : string) (memory : JsObject string)
  : option string :=
  match firstIncluded (Js.toLowerCase sanitizedPayee) memory with
  | Some (_, category) => nonEmpty category
  | None => None
  end.

Definition fuzzyCategory (sanitizedPayee : string) (memory : JsObject string)
  : option string :=
  let best := findBestMatch sanitizedPayee (Object_keys memory) in
  if Qle_bool (7 # 10) (bm_rating best)
  then match bm_target best ≫= obj_get memory with
       | Some c => nonEmpty c
       | None => None
       end
  else None.

(** The category found through the memory: no rule gave one, and the
    exact match did, or else the fuzzy match did. *)
Definition memoryCategory (sanitizedPayee : string)
    (rules memory : JsObject string) : option string :=
  match ruleCategory sanitizedPayee rules with
  | Some _ => None
  | None =>
      match exactCategory sanitizedPayee memory with
      | Some c => Some c
      | None => fuzzyCategory sanitizedPayee memory
      end
  end.

(** The category chosen by the layered resolution. *)
Definition layeredCategory (sanitizedPayee : string)
    (rules memory : JsObject string) : option string :=
  match ruleCategory sanitizedPayee rules with
  | Some c => Some c
  | None => memoryCategory sanitizedPayee rules memory
  end.

(** The warning [loadMemoryOnce] prints when it has to read a file that
    does not parse. *)
Definition loadWarning (w : World) : list LogEvent :=
  match memoryCache w, memoryFile w with
  | None, FileCorrupt => [LogLoadMemoryWarning]
  | _, _ => []
  end.

(** A computation that only adds events satisfying [P] to the console. *)
Definition emits {A} (P : LogEvent → Prop) (c : M A) : Prop :=
  ∀ w r w', c w = (r, w') →
    ∃ evs, console w' = console w ++ evs ∧ Forall P evs.

(** The events of a failed batch insertion. *)
Definition isInsertError (ev : LogEvent) : Prop :=
  match ev with
  | LogBatchInsertError _ _ => True
  | _ => False
  end.

Definition quiet (ev : LogEvent) : Prop := ¬ isInsertError ev.

#[export] Instance Step_eq_dec : EqDecision Step.
Proof. solve_decision. Defined.

Section Deduplication.
Context {num : Type} `{JsNumber num} `{Sha256}.

Definition movementKey (m : Movement num) : string :=
  simpleKeyOf (mv_date m) (mv_amount m).

Definition movementFingerprint (m : Movement num) : string :=
  generateTransactionFingerprint (movementIdentity m).

(** The deduplication procedure of the specification: every candidate,
    in source order, with the method by which it is a duplicate, or
    [None] when it is new; a new candidate enters both sets at once. *)
Fixpoint classify (simpleKeys fingerprints : gset string)
    (candidates : list (Movement num))
  : list (Movement num * option DuplicateMethod) :=
  match candidates with
  | [] => []
  | m :: rest =>
      if decide (movementFingerprint m ∈ fingerprints)
      then (m, Some method_fingerprint)
             :: classify simpleKeys fingerprints rest
      else if decide (movementKey m ∈ simpleKeys)
      then (m, Some method_simple) :: classify simpleKeys fingerprints rest
      else (m, None)
             :: classify (simpleKeys ∪ {[ movementKey m ]})
                  (fingerprints ∪ {[ movementFingerprint m ]}) rest
  end.

(** The candidates classified new, and the reports of the others. *)
Definition newCandidates (cs : list (Movement num * option DuplicateMethod))
  : list (Movement num) :=
  omap (λ c, match c.2 with None => Some c.1 | Some _ => None end) cs.



(** The entries of the processing-errors list left by the outer [catch]. *)
Definition transformationErrors (errors : list (ProcessingError num))
  : list (ProcessingError num) :=
  filter (λ pe, pe_step pe = step_processing) errors.

End Deduplication.

(** A computation that, moreover, never throws. *)
Definition safe {A} (P : LogEvent → Prop) (c : M A) : Prop :=
  ∀ w r w', c w = (r, w') →
    (∃ a, r = Ok a) ∧ ∃ evs, console w' = console w ++ evs ∧ Forall P evs.

Section Outcomes.
Context {num : Type} `{JsNumber num} `{Sha256}.

(** The outcome of the categorization attempt of the loop body: the
    category id and the processing errors after it. *)
Definition categorized (env : Env) (config : Config) (st : LoopState num)
    (m : Movement num) (w : World) : option N * list (ProcessingError num) :=
  match (withRetry (assignCategoryId env (mv_payee m) (categoryRules config))
           2 None w).1 with
  | Ok categoryId => (categoryId, processingErrors st)
  | Throw err =>
      (None,
       processingErrors st
         ++ [mkProcessingError m (err_message err) step_categorization])
  end.

(** The two sets once the candidates [ms] have been classified. *)
Definition keysAfter (K F : gset string) (ms : list (Movement num))
  : gset string :=
  K ∪ list_to_set (movementKey <$> newCandidates (classify K F ms)).

Definition fingerprintsAfter (K F : gset string) (ms : list (Movement num))
  : gset string :=
  F ∪ list_to_set (movementFingerprint <$> newCandidates (classify K F ms)).

End Outcomes.



(* ================================================================= *)
(** ** Data for the examples *)

(** A stand-in for the digest in the examples: the key itself, which is
    injective. *)
Definition plainDigest : Sha256 := λ key, key.

Definition demoCategories : list Category :=
  [mkCategory "Shopping" (Some 5%N); mkCategory "Food" (Some 7%N);
   mkCategory "Coffee" (Some 9%N)].

(** The remote services answer; every write to the file succeeds. *)
Definition demoEnv : Env := mkEnv (λ _, Ok demoCategories) (λ _, true).

(** The category list cannot be fetched. *)
Definition offlineEnv : Env :=
  mkEnv (λ _, Throw (mkError "Network Error" None)) (λ _, true).

(** A process that has just started, with the given memory file. *)
Definition freshWorld (file : FileState) : World :=
  mkWorld None None file 0 [].

Definition demoConfig (rules : option (JsObject string)) : Config :=
  mkConfig "token" 7 rules (Some "CLP") None
    (Some "client") (Some "secret") (Some "refresh") "me".

Definition demoSyncEnv (movements : list (Movement Z))
    (existing : list (ExistingTx Z)) (post : nat → Result unit)
  : SyncEnv Z :=
  mkSyncEnv Z demoEnv (λ _, Ok movements) (λ _, Ok existing) post
    (λ _, Ok []).

Definition emptyLoopState : LoopState Z := mkLoopState ∅ ∅ [] [] [].

Definition coffee : Movement Z :=
  mkMovement "2024-01-02" (-3500)%Z "Cafe" None.
Definition coffeeAgain : Movement Z :=
  mkMovement "2024-01-02" (-3500)%Z "Cafe Central" (Some "gmail-18f").
Definition lunch : Movement Z :=
  mkMovement "2024-01-03" (-9900)%Z "Diner" None.



(* ================================================================= *)
(** ** Notions used to describe the retry loop *)

(** Whether [withRetry] goes on after [error], on an attempt that is not
    the last one: [!(shouldRetry && !shouldRetry(error))]. *)
Definition retried (shouldRetry : option (JsError → bool)) (error : JsError)
  : bool :=
  match shouldRetry with
  | Some p => p error
  | None => true
  end.

(** An answer that ends the loop whatever the attempt: a value, or an
    error that is not retried. *)
Definition final {A} (shouldRetry : option (JsError → bool)) (r : Result A)
  : bool :=
  match r with
  | Ok _ => true
  | Throw error => negb (retried shouldRetry error)
  end.

(** The warnings of the first [k] attempts of a call whose first attempt
    is external call number [start]. *)
Definition retryWarnings {A} (oracle : nat → Result A) (start k : nat)
  : list LogEvent :=
  (λ i, LogRetry (i + 1)
          (match oracle (start + i) with
           | Throw error => err_message error
           | Ok _ => ""
           end)) <$> seq 0 k.

(* ================================================================= *)
(** ** Notions used to describe the memory keys *)

(** What [sanitizePayee] guarantees of a key: at most 255 characters and
    none of the characters its regular expression removes. *)
Definition sanitizedKey (k : string) : Prop :=
  String.length k ≤ 255 ∧ ∀ c, Js.occurs c k → dangerous c = false.

(* ================================================================= *)
(** ** sync.js: the two parts of [sync] *)

Section SyncParts.
Context {num : Type} `{JsNumber num} `{Sha256}.

(** [sync] up to the end of the loop over the movements: the movements
    and the local variables of the loop, or [None] when [sync] has
    returned before the loop. *)
Definition syncCandidates (env : SyncEnv num) (config : Config)
  : M (option (list (Movement num) * LoopState num)) :=
  let! movements :=
    if truthyOpt (gmailClientId config)
       && truthyOpt (gmailClientSecret config)
       && truthyOpt (gmailRefreshToken config)
    then
      tryCatch
        (let! gmailTx :=
           withRetry (external (fetchBancoChileEmails env)) 3
             (Some shouldRetryHttpError) in
         do! log (LogGmailFound (List.length gmailTx)) in
         ret gmailTx)
        (λ err, do! log (LogGmailFetchError (err_message err)) in ret [])
    else ret [] in
  if Nat.eqb (List.length movements) 0
  then do! log LogNoTransactions in ret None
  else
    do! log (LogProcessing (List.length movements)) in
    let! fetched :=
      tryCatch
        (let! existing :=
           withRetry (external (fetchTransactions env)) 3
             (Some shouldRetryHttpError) in
         ret (Some existing))
        (λ err, do! log (LogExistingFetchError (err_message err)) in ret None)
    in
    match fetched with
    | None => ret None
    | Some existing =>
        do! log (LogExistingFound (List.length existing)) in
        let '(fingerprints, simpleKeys) := collectExisting existing in
        let! st :=
          processMovements env config
            (mkLoopState fingerprints simpleKeys [] [] []) movements in
        ret (Some (movements, st))
    end.

(** [sync] from the summary of the processing on. *)
Definition syncSummary (env : SyncEnv num) (dryRun : bool)
    (movements : list (Movement num)) (st : LoopState num)
  : M (option (Summary num)) :=
  do! log (LogProcessingSummary (List.length (newTransactions st))
             (List.length (skippedDuplicates st))
             (List.length (processingErrors st))) in
  if Nat.eqb (List.length (newTransactions st)) 0
  then
    do! log LogNoNewTransactions in
    ret (Some (mkSummary true (List.length movements) 0
                 (List.length (skippedDuplicates st))
                 (List.length (processingErrors st))
                 None None None None))
  else if dryRun
  then
    do! log (LogDryRun (List.length (newTransactions st))) in
    do! forEachM
          (λ _ tx, log (LogDryRunNew (tx_date tx) (tx_amount tx)
                          (tx_payee tx) (tx_category_id tx)))
          tt (newTransactions st) in
    ret (Some (mkSummary true (List.length movements)
                 (List.length (newTransactions st))
                 (List.length (skippedDuplicates st))
                 (List.length (processingErrors st))
                 (Some true) None None None))
  else
    let batchSize := 50 in
    let batches := batchArray (newTransactions st) batchSize in
    let! inserted :=
      forEachM (insertBatch env (List.length batches)) (0, [])
        (imap (λ i batch, (i, batch)) batches) in
    let '(totalInserted, insertionErrors) := inserted in
    do! log (LogFinalSummary totalInserted (List.length insertionErrors)
               (List.length (processingErrors st))) in
    ret (Some (mkSummary
                 (Nat.eqb (List.length insertionErrors) 0)
                 (List.length movements)
                 totalInserted
                 (List.length (skippedDuplicates st))
                 (List.length (processingErrors st)
                  + List.length insertionErrors)
                 None
                 (Some (List.length batches))
                 (Some insertionErrors)
                 (Some (processingErrors st)))).

End SyncParts.

(** The transactions of the batches that could not be inserted. *)
Definition failedSize (insertionErrors : list InsertionError) : nat :=
  sum_list_with batchSize insertionErrors.

(** The environment with another insertion endpoint. *)
Definition withPost {num} (env : SyncEnv num) (post : nat → Result unit)
  : SyncEnv num :=
  mkSyncEnv num (base_env env) (fetchBancoChileEmails env)
    (fetchTransactions env) post (fetchTransactionsForLearning env).

(** A computation that leaves the memory, the memory file and the cache
    of categories as they are. *)
Definition keepsMemory {A} (c : M A) : Prop :=
  ∀ w r w', c w = (r, w') →
    memoryCache w' = memoryCache w ∧ memoryFile w' = memoryFile w
    ∧ categoriesCache w' = categoriesCache w.

(* ================================================================= *)
(** ** utils.js: [RateLimiter] and [sanitizeErrorForLogging] *)

Module RateLimiter.

(** [this.requests], times in milliseconds as [Date.now()] gives them,
    and [this.limit]. *)
Record t := mk {
  requests : list Z;
  limit : nat
}.

Definition constructor (requestsPerSecond : nat) : t := mk [] requestsPerSecond.

(** [Math.min(...requests)]; [None] is the [Infinity] of no argument. *)
Definition oldest (requests : list Z) : option Z :=
  match requests with
  | [] => None
  | time :: rest => Some (foldl Z.min time rest)
  end.

(** The time given to [setTimeout]. *)
Inductive WaitTime :=
| Finite (ms : Z)
| Infinite.

(** [waitForSlot()] called at time [now]: the limiter after the call,
    and the time waited, if any. *)
Definition waitForSlot (self : t) (now : Z) : t * option WaitTime :=
  let requests := filter (λ time, (now - time < 1000)%Z) (requests self) in
  let waited :=
    if Nat.leb (limit self) (List.length requests)
    then
      Some (match oldest requests with
            | Some oldestRequest => Finite (1000 - (now - oldestRequest))
            | None => Infinite
            end)
    else None in
  (mk (requests ++ [now]) (limit self), waited).

End RateLimiter.

Section SanitizeError.
(** The values of a context object are kept abstract, with their
    truthiness and the injection of strings. *)
Context {value : Type} (truthyValue : value → bool) (ofString : string → value).

(** What [sanitizeErrorForLogging] returns; [stack] and [statusText],
    which the model of errors does not carry, are left out. *)
Record SanitizedError := mkSanitizedError {
  se_message : string;
  se_status : option nat;
  se_context : JsObject value
}.

(** [if (context.k) context.k = '[REDACTED]'] *)
Definition redact (k : string) (context : JsObject value) : JsObject value :=
  match obj_get context k with
  | Some v => if truthyValue v then obj_set context k (ofString "[REDACTED]")
              else context
  | None => context
  end.

Definition sensitiveFields : list string :=
  ["token"; "apiKey"; "lunchmoneyToken"; "fintocApiKey"].

Definition sanitizeErrorForLogging (error : JsError) (context : JsObject value)
  : SanitizedError :=
  (* { ...context } *)
  let sanitizedContext := Object_entries context in
  (* Remove sensitive fields *)
  let sanitizedContext := redact "token" sanitizedContext in
  let sanitizedContext := redact "apiKey" sanitizedContext in
  let sanitizedContext := redact "lunchmoneyToken" sanitizedContext in
  let sanitizedContext := redact "fintocApiKey" sanitizedContext in
  {| se_message := err_message error;
     se_status := err_status error;
     se_context := sanitizedContext |}.

End SanitizeError.
Arguments SanitizedError value : clear implicits.
Arguments mkSanitizedError {value} _ _ _.
Arguments se_message {value} _.
Arguments se_status {value} _.
Arguments se_context {value} _.

(* ================================================================= *)
(** ** fetchLM.js *)

Module FetchLM.

(** A transaction as the API returns it, with the fields read here. *)
Record RawTransaction := mkRaw {
  raw_date : string;
  raw_amount : string
}.

(** [response.data]: [transactions] may be missing; [has_more] holds
    [data.has_more === true]. *)
Record Page := mkPage {
  page_transactions : option (list RawTransaction);
  page_has_more : bool
}.

Section FetchLM.
Context {num : Type}.
(** [parseFloat], [None] being NaN, and the answers of the endpoint to
    the requests of one call, by external call number and by the page
    requested. *)
Variable parseFloat : string → option num.
(** [err.response?.data?.error] when the error has one that is truthy,
    as the template literal renders it. *)
Variable responseError : JsError → option string.
Variable http_get_transactions : nat → nat → Result Page.

(** [for (const tx of transactions) { .. results.push(..) }] *)
Definition collect (results : list (ExistingTx num))
    (transactions : list RawTransaction) : list (ExistingTx num) :=
  foldl (λ results tx,
           match parseFloat (raw_amount tx) with
           | Some amt =>
               results ++ [mkExistingTx (raw_date tx) amt None None None]
           | None => results
           end) results transactions.

(** [while (hasMore) { .. }] entered with [page] and [results].  The
    loop goes on as long as the server says there is more; [fuel] bounds
    the number of turns, and [None] is a loop that has not ended within
    it. *)
Fixpoint fetchPages (fuel page : nat) (results : list (ExistingTx num))
  : M (option (list (ExistingTx num))) :=
  match fuel with
  | 0 => ret None
  | S fuel' =>
      let! turn :=
        tryCatch
          (let! data := external (λ n, http_get_transactions n page) in
           let transactions := default [] (page_transactions data) in
           ret (collect results transactions, page_has_more data, page + 1))
          (λ err, throw (mkError ("Lunch Money API error: "
                                   +:+ default (err_message err)
                                         (responseError err)) None)) in
      let '(results, hasMore, page) := turn in
      if hasMore then fetchPages fuel' page results
      else ret (Some results)
  end.

Definition fetchTransactions (fuel : nat) : M (option (list (ExistingTx num))) :=
  fetchPages fuel 1 [].

(** What a page adds to the results. *)
Definition kept (data : Page) : list (ExistingTx num) :=
  collect [] (default [] (page_transactions data)).

End FetchLM.

End FetchLM.

(** The last character of a string. *)
Fixpoint lastChar (s : string) : option ascii :=
  match s with
  | EmptyString => None
  | String c EmptyString => Some c
  | String _ r => lastChar r
  end.

(* ================================================================= *)
(** ** fetchFintoc.js *)

Module FetchFintoc.

Section FetchFintoc.
(** The amount of a movement is kept abstract: [toFinite] is [Number]
    followed by [Number.isFinite], and [div100] the division by 100. *)
Context {value num : Type}.
Variable toFinite : value → option num.
Variable div100 : num → num.
(** [new Date(dateStr)] lies between [startDate] and [endDate]. *)
Variable inWindow : string → bool.

(** A movement as the API returns it, with the fields read here. *)
Record RawMovement := mkRawMovement {
  transaction_date : option string;
  post_date : option string;
  date : option string;
  description : option string;
  description_internal : option string;
  name : option string;
  concept : option string;
  source : option string;
  amount : value
}.

(** [err.response?.data?.error] when the error has one that is truthy,
    as the template literal renders it. *)
Variable responseError : JsError → option string.

(** The answers of the endpoint, by external call number and by the page
    requested; [None] is a body that is not an array. *)
Variable http_get_movements : nat → nat → Result (option (list RawMovement)).

(** The body of [for (const movement of data)]. *)
Definition collect (transactions : list (Movement num)) (movement : RawMovement)
  : list (Movement num) :=
  let dateStr :=
    orElse (transaction_date movement)
      (orElse (post_date movement) (date movement)) in
  match dateStr with
  | None => transactions                               (* continue *)
  | Some dateStr =>
      if negb (Js.truthy dateStr) then transactions
      else if inWindow dateStr then
        let payee :=
          default "Unknown"
            (orElse (description movement)
               (orElse (description_internal movement)
                  (orElse (name movement)
                     (orElse (concept movement)
                        (orElse (source movement) (Some "Unknown")))))) in
        match toFinite (amount movement) with
        | None => transactions                         (* continue *)
        | Some amountMinor =>
            let amountMajor := div100 amountMinor in
            transactions
              ++ [mkMovement (Js.substring0 dateStr 10) amountMajor payee None]
        end
      else transactions
  end.

Definition perPage : nat := 200.

(** [while (hasMore) { .. }], with [fuel] as in [FetchLM.fetchPages]. *)
Fixpoint fetchPages (fuel page : nat) (transactions : list (Movement num))
  : M (option (list (Movement num))) :=
  match fuel with
  | 0 => ret None
  | S fuel' =>
      let! turn :=
        tryCatch
          (let! data := external (λ n, http_get_movements n page) in
           match data with
           | Some ((_ :: _) as data) =>
               ret (foldl collect transactions data,
                    Nat.eqb (List.length data) perPage, page + 1)
           | _ => ret (transactions, false, page)
           end)
          (λ err, throw (mkError ("Fintoc API error: "
                                   +:+ default (err_message err)
                                         (responseError err)) None)) in
      let '(transactions, hasMore, page) := turn in
      if hasMore then fetchPages fuel' page transactions
      else ret (Some transactions)
  end.

Definition missingCredentials : JsError :=
  mkError "Missing Fintoc API key or link ID." None.

Definition fetchFintocTransactions (fuel : nat) (apiKey linkId : option string)
  : M (option (list (Movement num))) :=
  if negb (truthyOpt apiKey) || negb (truthyOpt linkId)
  then throw missingCredentials
  else fetchPages fuel 1 [].

End FetchFintoc.

End FetchFintoc.

(* ================================================================= *)
(** ** memory.js: statistics *)

(** [[...new Set(values)]]: the values without repetition, in order of
    first appearance. *)
Definition uniqueValues (values : list string) : list string :=
  foldl (λ seen v, if bool_decide (v ∈ seen) then seen else seen ++ [v])
    [] values.

(** The default order of [Array.prototype.sort] on strings: code unit by
    code unit, a proper prefix first. *)
Definition stringLe (a b : string) : Prop := String.leb a b = true.

#[export] Instance stringLe_dec a b : Decision (stringLe a b).
Proof. unfold stringLe. apply _. Defined.

Definition sortStrings (l : list string) : list string :=
  merge_sort stringLe l.

Record MemoryStats := mkMemoryStats {
  totalEntries : nat;
  uniqueCategories : nat;
  categories : list string;
  lastModified : option string
}.

(** [getMemoryStats()]; [fs_mtime] gives the modification time of the
    memory file, as an ISO string, by external call number. *)
Definition getMemoryStats (fs_mtime : nat → string) : M MemoryStats :=
  let! memory := loadMemory in
  let entries := Object_keys memory in
  let categories := uniqueValues (snd <$> Object_entries memory) in
  let! w := getWorld in
  let! lastModified :=
    match memoryFile w with
    | FileAbsent => ret None
    | _ => let! mtime := external (λ n, Ok (fs_mtime n)) in ret (Some mtime)
    end in
  ret {| totalEntries := List.length entries;
         uniqueCategories := List.length categories;
         categories := sortStrings categories;
         lastModified := lastModified |}.

(* ================================================================= *)
(** ** The process around the engine *)

(** [config.json] as [loadConfig] reads it: missing; not parsable, or
    parsed to [null]; or, for each of the three fields it looks at, the
    value of the field when it has the type asked for.  A number of days
    is an integer; [category_rules], of type 'object', is [null] or an
    object of strings. *)
Record ConfigJson := mkConfigJson {
  cj_currency : option string;
  cj_days_to_sync : option Z;
  cj_category_rules : option (option (JsObject string))
}.

Inductive ConfigFile :=
| ConfigAbsent
| ConfigCorrupt (message : string)
| ConfigParsed (json : ConfigJson).

(** The lines written to the console: those of the engine, and those of
    the code around it. *)
Inductive Line :=
| EngineLine (ev : LogEvent)
| ClearMemoryError (message : string)
| ConfigParseWarning (message : string)
| CliMemoryCleared
| CliClearMemoryFailed (message : string)
| CliStatsHeader
| CliTotalEntries (n : nat)
| CliUniqueCategories (n : nat)
| CliLastModified (time : option string)
| CliCategoriesHeader
| CliCategory (category : string)
| CliMappingsHeader
| CliMapping (payee category : string)
| CliMoreMappings (n : nat)
| CliStatsFailed (message : string)
| CliMissingToken
| CliRebuilding
| CliRebuilt (entries : nat)
| CliRebuildFailed (message : string)
| CliExportHeader
| CliExport (category_rules : JsObject string)
| CliExportFailed (message : string)
| CliMissingGmail
| CliSyncErrors
| CliSyncFailed (message : string).

Record Process := mkProcess {
  world : World;                 (* the engine: caches, memory file, clock *)
  environ : JsObject string;     (* [process.env] *)
  configFile : ConfigFile;       (* [config.json] of the working directory *)
  output : list Line             (* the console, oldest first *)
}.

(** How a computation of the process ends: it returns, it throws, or it
    calls [process.exit]. *)
Inductive Outcome (A : Type) : Type :=
| Returned (a : A)
| Raised (e : JsError)
| Exited (code : nat).
Arguments Returned {A} a.
Arguments Raised {A} e.
Arguments Exited {A} code.

Definition P (A : Type) : Type := Process → Outcome A * Process.

Definition retP {A} (a : A) : P A := λ p, (Returned a, p).
Definition raiseP {A} (e : JsError) : P A := λ p, (Raised e, p).
Definition exitP {A} (code : nat) : P A := λ p, (Exited code, p).
Definition bindP {A B} (c : P A) (k : A → P B) : P B :=
  λ p, match c p with
       | (Returned a, p') => k a p'
       | (Raised e, p') => (Raised e, p')
       | (Exited code, p') => (Exited code, p')
       end.
(** [process.exit] is not caught by a [catch]. *)
Definition tryCatchP {A} (body : P A) (handler : JsError → P A) : P A :=
  λ p, match body p with
       | (Raised e, p') => handler e p'
       | other => other
       end.

Notation "'let*' x ':=' c 'in' k" := (bindP c (λ x, k))
  (at level 10, x name, c at level 100, k at level 200, only parsing).
Notation "'do*' c 'in' k" := (bindP c (λ _, k))
  (at level 10, c at level 100, k at level 200, only parsing).

Definition getProcess : P Process := λ p, (Returned p, p).
Definition say (line : Line) : P unit :=
  λ p, (Returned tt,
        mkProcess (world p) (environ p) (configFile p) (output p ++ [line])).

(** A computation of the engine run in the process: the lines it adds to
    the console of the engine are the lines it writes. *)
Definition liftM {A} (c : M A) : P A :=
  λ p, let '(r, w') := c (world p) in
       (match r with
        | Ok a => Returned a
        | Throw e => Raised e
        end,
        mkProcess w' (environ p) (configFile p)
          (output p
           ++ (EngineLine <$> drop (List.length (console (world p)))
                                (console w')))).

(** [for (const x of l) body] in the process. *)
Fixpoint forEachP {A} (body : A → P unit) (l : list A) : P unit :=
  match l with
  | [] => retP tt
  | x :: r => do* body x in forEachP body r
  end.


(* ================================================================= *)
(** ** memory.js: [clearMemory] *)

(** [fs_unlink] answers [fs.unlinkSync], by external call number. *)
Definition clearMemory (fs_unlink : nat → Result unit) : P unit :=
  tryCatchP
    (liftM
       (let! w := getWorld in
        match memoryFile w with
        | FileAbsent => ret tt
        | _ => do! external fs_unlink in setMemoryFile FileAbsent
        end))
    (λ error, say (ClearMemoryError (err_message error))).

(* ================================================================= *)
(** ** config.js *)

(** [parseInt(s, 10)]: white space, a sign, and the longest run of
    digits; [None] is NaN. *)
Fixpoint digitsPrefix (s : string) : string :=
  match s with
  | EmptyString => EmptyString
  | String c r => if isDigit c then String c (digitsPrefix r) else EmptyString
  end.

Definition parseDigits (s : string) : option Z :=
  match digitsPrefix s with
  | EmptyString => None
  | digits => Z.of_N <$> digitsValue 0 digits
  end.

Definition parseInt10 (s : string) : option Z :=
  match Js.trimStart s with
  | String "-" r => Z.opp <$> parseDigits r
  | String "+" r => parseDigits r
  | r => parseDigits r
  end.

(** The object [loadConfig] returns.  [lunchmoneyToken] is [None] when
    the variable is not set, [daysToSync] is [None] for NaN. *)
Record LoadedConfig := mkLoadedConfig {
  lc_lunchmoneyToken : option string;
  lc_currency : string;
  lc_daysToSync : option Z;
  lc_categoryRules : option (JsObject string);
  lc_lunchmoneyAssetId : option string;
  lc_gmailClientId : option string;
  lc_gmailClientSecret : option string;
  lc_gmailRefreshToken : option string;
  lc_gmailUser : string
}.

(** [a || null] *)
Definition orNullString (a : option string) : option string :=
  if truthyOpt a then a else None.

Definition loadConfig : P LoadedConfig :=
  let* p := getProcess in
  let env := obj_get (environ p) in
  (* Defaults *)
  let defaults := mkConfigJson (Some "CLP") (Some 7%Z) (Some (Some [])) in
  (* Attempt to read config.json from current working directory *)
  let* defaults :=
    match configFile p with
    | ConfigAbsent => retP defaults
    | ConfigCorrupt message =>
        do* say (ConfigParseWarning message) in retP defaults
    | ConfigParsed json =>
        retP (mkConfigJson
                (match cj_currency json with
                 | Some currency => Some currency
                 | None => cj_currency defaults
                 end)
                (match cj_days_to_sync json with
                 | Some days => Some days
                 | None => cj_days_to_sync defaults
                 end)
                (match cj_category_rules json with
                 | Some rules => Some rules
                 | None => cj_category_rules defaults
                 end))
    end in
  retP {| lc_lunchmoneyToken := env "LUNCHMONEY_TOKEN";
          lc_currency :=
            orEmpty (orElse (env "CURRENCY_CODE") (cj_currency defaults));
          lc_daysToSync :=
            parseInt10
              (orEmpty (orElse (env "DAYS_TO_SYNC")
                          (Js.intToString <$> cj_days_to_sync defaults)));
          lc_categoryRules := mjoin (cj_category_rules defaults);
          lc_lunchmoneyAssetId :=
            orNullString (orElse (env "LUNCHMONEY_ASSET_ID")
                            (env "LM_ASSET_ID"));
          lc_gmailClientId := orNullString (env "GMAIL_CLIENT_ID");
          lc_gmailClientSecret := orNullString (env "GMAIL_CLIENT_SECRET");
          lc_gmailRefreshToken := orNullString (env "GMAIL_REFRESH_TOKEN");
          lc_gmailUser := orEmpty (orElse (env "GMAIL_USER") (Some "me")) |}.

(** The configuration as the engine reads it.  The engine reads neither
    the token nor the number of days, which only the remote calls
    see. *)
Definition asConfig (c : LoadedConfig) : Config :=
  mkConfig (orEmpty (lc_lunchmoneyToken c))
    (Z.to_nat (default 0%Z (lc_daysToSync c)))
    (lc_categoryRules c) (Some (lc_currency c)) (lc_lunchmoneyAssetId c)
    (lc_gmailClientId c) (lc_gmailClientSecret c) (lc_gmailRefreshToken c)
    (lc_gmailUser c).

(* ================================================================= *)
(** ** The command line ([run]) *)

(** [program.opts()] *)
Record Options := mkOptions {
  opt_dryRun : bool;
  opt_clearMemory : bool;
  opt_showMemory : bool;
  opt_rebuildMemory : bool;
  opt_exportMemory : bool
}.

Definition typeErrorSuccess : JsError :=
  mkError "Cannot read properties of undefined (reading 'success')" None.

Section CommandLine.
Context {num : Type} `{JsNumber num} `{Sha256}.
Variable env : SyncEnv num.
Variable fs_unlink : nat → Result unit.
Variable fs_mtime : nat → string.

(** The branch of [--show-memory]. *)
Definition showMemory : P unit :=
  tryCatchP
    (let* stats := liftM (getMemoryStats fs_mtime) in
     do* say CliStatsHeader in
     do* say (CliTotalEntries (totalEntries stats)) in
     do* say (CliUniqueCategories (uniqueCategories stats)) in
     do* say (CliLastModified (orNullString (lastModified stats))) in
     do* (if Nat.ltb 0 (List.length (categories stats))
          then
            do* say CliCategoriesHeader in
            forEachP (λ cat, say (CliCategory cat)) (categories stats)
          else retP tt) in
     do* (if Nat.ltb 0 (totalEntries stats)
          then
            do* say CliMappingsHeader in
            let* memory := liftM loadMemory in
            let all := Object_entries memory in
            let entries := drop (List.length all - 10) all in
            do* forEachP (λ '(payee, category), say (CliMapping payee category))
                  entries in
            if Nat.ltb 10 (List.length (Object_keys memory))
            then say (CliMoreMappings (List.length (Object_keys memory) - 10))
            else retP tt
          else retP tt) in
     retP tt)
    (λ err, do* say (CliStatsFailed (err_message err)) in exitP 1).

(** The branch of [--rebuild-memory]. *)
Definition rebuildMemory (config : LoadedConfig) : P unit :=
  if negb (truthyOpt (lc_lunchmoneyToken config))
  then do* say CliMissingToken in exitP 1
  else
    tryCatchP
      (do* say CliRebuilding in
       let* memory :=
         liftM (buildMemoryFromLunchMoney env "2023-01-01" true) in
       let entries := List.length (Object_keys memory) in
       do* say (CliRebuilt entries) in
       retP tt)
      (λ err, do* say (CliRebuildFailed (err_message err)) in exitP 1).

(** The branch of [--export-memory]. *)
Definition exportMemory : P unit :=
  tryCatchP
    (let* memory := liftM loadMemory in
     do* say CliExportHeader in
     do* say (CliExport (Object_entries memory)) in
     retP tt)
    (λ err, do* say (CliExportFailed (err_message err)) in exitP 1).

(** Regular sync operation. *)
Definition regularSync (opts : Options) (config : LoadedConfig) : P unit :=
  if negb (truthyOpt (lc_lunchmoneyToken config))
  then do* say CliMissingToken in exitP 1
  else if negb (truthyOpt (lc_gmailClientId config))
          || negb (truthyOpt (lc_gmailClientSecret config))
          || negb (truthyOpt (lc_gmailRefreshToken config))
  then do* say CliMissingGmail in exitP 1
  else
    tryCatchP
      (let* result := liftM (sync env (asConfig config) (opt_dryRun opts)) in
       (* Exit with error code if sync had issues *)
       let* success :=
         match result with
         | Some summary => retP (sum_success summary)
         | None => raiseP typeErrorSuccess
         end in
       if negb success
       then do* say CliSyncErrors in exitP 1
       else retP tt)
      (λ err, do* say (CliSyncFailed (err_message err)) in exitP 1).

(** [run()] *)
Definition run (opts : Options) : P unit :=
  let* config := loadConfig in
  (* Handle memory management commands first *)
  if opt_clearMemory opts
  then
    tryCatchP
      (do* clearMemory fs_unlink in
       do* say CliMemoryCleared in
       retP tt)
      (λ err, do* say (CliClearMemoryFailed (err_message err)) in exitP 1)
  else if opt_showMemory opts then showMemory
  else if opt_rebuildMemory opts then rebuildMemory config
  else if opt_exportMemory opts then exportMemory
  else regularSync opts config.

End CommandLine.

(* ================================================================= *)
(** * Properties *)

Ltac munfold :=
  unfold bind, ret, throw, tryCatch, getWorld, log, tick, external,
    setCategoriesCache, setMemoryCache, setMemoryFile in *.

Section Similarity.
Implicit Types a b s : string.

Lemma toLowerCase_length s : String.length (Js.toLowerCase s) = String.length s.
Proof. induction s as [|c r IH]; simpl; congruence. Qed.

Lemma toLowerCase_empty s : Js.toLowerCase s = "" ↔ s = "".
Proof. destruct s; simpl; split; congruence. Qed.

Lemma truthy_true s : Js.truthy s = true ↔ s ≠ "".
Proof. unfold Js.truthy. by rewrite bool_decide_eq_true. Qed.

Lemma truthy_false s : Js.truthy s = false ↔ s = "".
Proof.
  unfold Js.truthy. rewrite bool_decide_eq_false.
  split.
  - intros Hnot. destruct (decide (s = "")) as [Hs|Hs]; [done|].
    by destruct Hnot.
  - intros Hs Hnot. by apply Hnot.
Qed.

Lemma foldl_add_set (f : nat → string) (l : list nat) (acc : gset string) :
  foldl (λ set i, set ∪ {[ f i ]}) acc l = acc ∪ list_to_set (f <$> l).
Proof.
  revert acc. induction l as [|i l IH]; intros acc; simpl.
  - by rewrite (right_id_L ∅ (∪)).
  - by rewrite IH, (assoc_L (∪)).
Qed.

Lemma substring_zero_zero s : String.substring 0 0 s = "".
Proof. by destruct s. Qed.

Lemma bigramLoop_bigramSet a : bigramLoop a = bigramSet a.
Proof.
  unfold bigramLoop. rewrite foldl_add_set, (left_id_L ∅ (∪)).
  induction a as [|c r IH]; [done|].
  destruct r as [|c2 r2]; [done|].
  replace (String.length (String c (String c2 r2)) - 1)
    with (S (String.length (String c2 r2) - 1)) by (simpl; lia).
  rewrite <- cons_seq, <- fmap_S_seq. cbn [fmap list_fmap].
  rewrite <- list_fmap_compose.
  change (bigramSet (String c (String c2 r2)))
    with ({[ String c (String c2 "") ]} ∪ bigramSet (String c2 r2)).
  rewrite <- IH. f_equal.
  unfold Js.substr. simpl. by rewrite substring_zero_zero.
Qed.

Lemma filter_elem_of_inter (A B : gset string) :
  filter (λ x, x ∈ B) A = A ∩ B.
Proof.
  apply set_eq. intros x.
  rewrite elem_of_filter, elem_of_intersection. tauto.
Qed.

Lemma ratio_bounds n d : n ≤ d → (0 <= ratio n d)%Q ∧ (ratio n d <= 1)%Q.
Proof.
  intros Hle. unfold ratio.
  destruct d as [|d].
  - assert (n = 0) as -> by lia. done.
  - assert (0 < inject_Z (Z.of_nat (S d)))%Q as Hpos.
    { change 0%Q with (inject_Z 0). rewrite <- Zlt_Qlt. lia. }
    split.
    + apply Qle_shift_div_l; [done|]. rewrite Qmult_0_l.
      change 0%Q with (inject_Z 0). rewrite <- Zle_Qle. lia.
    + apply Qle_shift_div_r; [done|]. rewrite Qmult_1_l.
      rewrite <- Zle_Qle. lia.
Qed.

Lemma ratio_same n : 0 < n → (ratio n n == 1)%Q.
Proof.
  intros Hn. unfold ratio. apply Qmult_inv_r.
  change 0%Q with (inject_Z 0). rewrite inject_Z_injective. lia.
Qed.

Lemma bigramSet_nonempty s : 2 ≤ String.length s → 0 < size (bigramSet s).
Proof.
  intros Hlen.
  assert (∃ x, x ∈ bigramSet s) as [x Hin].
  { destruct s as [|c1 [|c2 r]]; simpl in Hlen; try lia.
    exists (String c1 (String c2 "")).
    cbn [bigramSet]. apply elem_of_union_l, elem_of_singleton_2. done. }
  destruct (decide (size (bigramSet s) = 0)) as [Hz|]; [|lia].
  apply size_empty_inv in Hz. by apply Hz in Hin.
Qed.

Lemma calculateSimilarity_unfold a b :
  a ≠ "" → b ≠ "" → Js.toLowerCase a ≠ Js.toLowerCase b →
  2 ≤ String.length a → 2 ≤ String.length b →
  calculateSimilarity a b = diceCoefficient a b.
Proof.
  intros Ha Hb Hne Hla Hlb. unfold calculateSimilarity, diceCoefficient.
  rewrite (proj2 (truthy_true a) Ha), (proj2 (truthy_true b) Hb). simpl.
  rewrite decide_False by done.
  rewrite !toLowerCase_length.
  destruct (Nat.ltb_spec (String.length a) 2); [lia|].
  destruct (Nat.ltb_spec (String.length b) 2); [lia|]. simpl.
  by rewrite !bigramLoop_bigramSet, filter_elem_of_inter.
Qed.

Lemma inter_size_bound (A B : gset string) :
  2 * size (A ∩ B) ≤ size A + size B.
Proof.
  pose proof (subseteq_size (A ∩ B) A (intersection_subseteq_l A B)).
  pose proof (subseteq_size (A ∩ B) B (intersection_subseteq_r A B)).
  lia.
Qed.

Lemma calculateSimilarity_bounds a b :
  (0 <= calculateSimilarity a b)%Q ∧ (calculateSimilarity a b <= 1)%Q.
Proof.
  unfold calculateSimilarity.
  destruct (negb (Js.truthy a) || negb (Js.truthy b)); [done|].
  destruct (decide (Js.toLowerCase a = Js.toLowerCase b)); [done|].
  destruct (_ || _); [done|].
  apply ratio_bounds. rewrite filter_elem_of_inter. apply inter_size_bound.
Qed.

(** C8 (as amended).  For strings of at least two characters each the
    score is the Dice coefficient of the bigram sets of the case-folded
    strings.  For all strings the score is symmetric and lies in [0,1];
    strings that are equal after case folding score 1 unless they are
    empty; strings that differ after case folding score 0 when one of
    them has fewer than two characters. *)
Theorem calculateSimilarity_dice a b :
  (2 ≤ String.length a → 2 ≤ String.length b →
   (calculateSimilarity a b == diceCoefficient a b)%Q)
  ∧ calculateSimilarity a b = calculateSimilarity b a
  ∧ (0 <= calculateSimilarity a b)%Q ∧ (calculateSimilarity a b <= 1)%Q
  ∧ (a ≠ "" → Js.toLowerCase a = Js.toLowerCase b →
     calculateSimilarity a b = 1%Q)
  ∧ (Js.toLowerCase a ≠ Js.toLowerCase b →
     String.length a < 2 ∨ String.length b < 2 →
     calculateSimilarity a b = 0%Q).
Proof.
  split; [|split; [|split; [|split; [|split]]]].
  - intros Hla Hlb.
    assert (a ≠ "") as Ha by (intros ->; simpl in Hla; lia).
    assert (b ≠ "") as Hb by (intros ->; simpl in Hlb; lia).
    destruct (decide (Js.toLowerCase a = Js.toLowerCase b)) as [Heq|Hne].
    + unfold calculateSimilarity, diceCoefficient.
      rewrite (proj2 (truthy_true a) Ha), (proj2 (truthy_true b) Hb). simpl.
      rewrite decide_True by done. rewrite <- Heq.
      rewrite (idemp_L (∩)). symmetry.
      replace (size (bigramSet (Js.toLowerCase a)) + size (bigramSet (Js.toLowerCase a)))
        with (2 * size (bigramSet (Js.toLowerCase a))) by lia.
      apply ratio_same.
      pose proof (bigramSet_nonempty (Js.toLowerCase a)) as Hpos.
      rewrite toLowerCase_length in Hpos. specialize (Hpos Hla). lia.
    + by rewrite calculateSimilarity_unfold.
  - unfold calculateSimilarity.
    destruct (Js.truthy a), (Js.truthy b); simpl; try done.
    destruct (decide (Js.toLowerCase a = Js.toLowerCase b)) as [Heq|Hne].
    { by rewrite decide_True. }
    rewrite (decide_False (P := Js.toLowerCase b = Js.toLowerCase a)) by congruence.
    rewrite (orb_comm (String.length (Js.toLowerCase b) <? 2)).
    destruct (_ || _); [done|].
    rewrite !filter_elem_of_inter.
    rewrite (comm_L (∩) (bigramLoop (Js.toLowerCase b))).
    by rewrite (Nat.add_comm (size (bigramLoop (Js.toLowerCase b)))).
  - apply calculateSimilarity_bounds.
  - apply calculateSimilarity_bounds.
  - intros Ha Heq. unfold calculateSimilarity.
    assert (b ≠ "") as Hb.
    { intros ->. apply Ha. by apply toLowerCase_empty. }
    rewrite (proj2 (truthy_true a) Ha), (proj2 (truthy_true b) Hb). simpl.
    by rewrite decide_True.
  - intros Hne Hshort. unfold calculateSimilarity.
    destruct (Js.truthy a), (Js.truthy b); simpl; try done.
    rewrite decide_False by done. rewrite !toLowerCase_length.
    destruct (Nat.ltb_spec (String.length a) 2), (Nat.ltb_spec (String.length b) 2);
      simpl; try done; lia.
Qed.
End Similarity.


Lemma append_length (s t : string) :
  String.length (s +:+ t) = String.length s + String.length t.
Proof. induction s as [|c s IH]; simpl; [done|]. by rewrite IH. Qed.

Lemma append_inj_r (s1 s2 t : string) : s1 +:+ t = s2 +:+ t → s1 = s2.
Proof.
  revert s2. induction s1 as [|c1 s1 IH]; intros [|c2 s2] Heq.
  - done.
  - apply (f_equal String.length) in Heq.
    rewrite !append_length in Heq. simpl in Heq. lia.
  - apply (f_equal String.length) in Heq.
    rewrite !append_length in Heq. simpl in Heq. lia.
  - injection Heq as -> Heq. f_equal. by apply IH.
Qed.

Lemma intToString_inj : Inj (=) (=) Js.intToString.
Proof.
  intros x y Heq. unfold Js.intToString in Heq.
  assert (∀ z, NilZero.int_of_string (NilZero.string_of_int (Z.to_int z))
               = Some (Z.to_int z)) as Hround.
  { intros z. apply NilZero.isi; destruct z; simpl; try done;
      intros [= Hnil]; by apply DecimalPos.Unsigned.to_uint_nonnil in Hnil. }
  apply to_int_inj.
  pose proof (Hround x) as Hx. rewrite Heq, Hround in Hx. congruence.
Qed.

Section FingerprintFacts.
Context {num : Type} `{JsNumber num} `{Sha256}.

(** C9 (as amended).  With an injective digest and an injective rendering
    of numbers, two identities with the same tuple (date, amount, payee,
    reference-or-empty) have the same fingerprint, and two identities
    that differ in exactly one of the four fields have different
    fingerprints. *)
Theorem fingerprint_one_field (t1 t2 : TxIdentity num) :
  Inj (=) (=) sha256_hex →
  Inj (=) (=) (num_toString (num := num)) →
  (identityTuple t1 = identityTuple t2 →
   generateTransactionFingerprint t1 = generateTransactionFingerprint t2)
  ∧ (differInOneField t1 t2 →
     generateTransactionFingerprint t1 ≠ generateTransactionFingerprint t2).
Proof.
  intros Hhash Hnum. unfold generateTransactionFingerprint, fingerprintKey.
  split.
  - unfold identityTuple. intros [= -> -> -> ->]. done.
  - intros Hdiff Heq. apply Hhash in Heq.
    destruct t1 as [d1 a1 p1 r1], t2 as [d2 a2 p2 r2].
    unfold differInOneField in Hdiff. simpl in *.
    destruct Hdiff as [(Hne & Ea & Ep & Er) | [(Ed & Hne & Ep & Er)
      | [(Ed & Ea & Hne & Er) | (Ed & Ea & Ep & Hne)]]];
      subst; try rewrite Er in Heq.
    + by apply append_inj_r in Heq.
    + do 2 apply String.app_inj in Heq. apply append_inj_r in Heq.
      by apply Hnum in Heq.
    + do 4 apply String.app_inj in Heq. by apply append_inj_r in Heq.
    + by do 6 apply String.app_inj in Heq.
Qed.
End FingerprintFacts.

Lemma fingerprint_one_field_witness :
  let hash : Sha256 := λ s, s in
  generateTransactionFingerprint (mkTxIdentity "2024-01-01" 10%Z "A" None)
  ≠ generateTransactionFingerprint (mkTxIdentity "2024-01-01" 10%Z "B" None).
Proof.
  intros hash.
  apply (fingerprint_one_field (mkTxIdentity "2024-01-01" 10%Z "A" None)
           (mkTxIdentity "2024-01-01" 10%Z "B" None)).
  - intros x y Hxy. exact Hxy.
  - exact intToString_inj.
  - right. right. left. simpl. repeat split; discriminate.
Defined.

Lemma fingerprint_key_not_injective :
  ¬ (∀ (hash : Sha256) (t1 t2 : TxIdentity Z),
       Inj (=) (=) hash →
       identityTuple t1 ≠ identityTuple t2 →
       generateTransactionFingerprint t1 ≠ generateTransactionFingerprint t2).
Proof.
  intros Hclaim.
  apply (Hclaim (λ s, s) (mkTxIdentity "2024-01-01" 10%Z "A-B" None)
           (mkTxIdentity "2024-01-01" 10%Z "A" (Some "B-"))).
  - intros x y Hxy. exact Hxy.
  - discriminate.
  - reflexivity.
Qed.

Section SanitizeFacts.
Implicit Types (s : string) (c : ascii).

Lemma substring0_length s n : String.length (Js.substring0 s n) ≤ n.
Proof.
  unfold Js.substring0. revert s. induction n as [|n IH]; intros [|c s]; simpl;
    try lia.
  specialize (IH s). lia.
Qed.

Lemma occurs_cons c c' s :
  Js.occurs c (String c' s) ↔ c = c' ∨ Js.occurs c s.
Proof. unfold Js.occurs. simpl. apply elem_of_cons. Qed.

Lemma occurs_empty c : ¬ Js.occurs c "".
Proof. unfold Js.occurs. simpl. apply not_elem_of_nil. Qed.

Lemma occurs_substring0 c s n : Js.occurs c (Js.substring0 s n) → Js.occurs c s.
Proof.
  unfold Js.substring0. revert s. induction n as [|n IH]; intros [|c' s]; simpl;
    try (by intros ?%occurs_empty).
  rewrite !occurs_cons. intros [->|Hin]; [by left|right; by apply IH].
Qed.

Lemma occurs_trimStart c s : Js.occurs c (Js.trimStart s) → Js.occurs c s.
Proof.
  induction s as [|c' s IH]; simpl; [done|].
  destruct (Js.isWhiteSpace c'); [|done].
  intros Hin. apply occurs_cons. right. by apply IH.
Qed.

Lemma occurs_trimEnd c s : Js.occurs c (Js.trimEnd s) → Js.occurs c s.
Proof.
  induction s as [|c' s IH]; simpl; [done|].
  destruct (Js.trimEnd s) as [|c'' s'] eqn:Hend.
  - destruct (Js.isWhiteSpace c'); [by intros ?%occurs_empty|].
    rewrite !occurs_cons. intros [->|?%occurs_empty]; [by left|done].
  - rewrite !(occurs_cons c c'). intros [->|Hin]; [by left|right; by apply IH].
Qed.

Lemma occurs_removeChars p c s :
  Js.occurs c (Js.removeChars p s) → p c = false ∧ Js.occurs c s.
Proof.
  induction s as [|c' s IH]; simpl; [by intros ?%occurs_empty|].
  destruct (p c') eqn:Hp.
  - intros Hin. apply IH in Hin as [? ?]. split; [done|].
    apply occurs_cons. by right.
  - rewrite !occurs_cons. intros [->|Hin]; [by split; [|left]|].
    apply IH in Hin as [? ?]. split; [done|by right].
Qed.

(** A sanitized payee has at most 255 characters and none of the
    characters the regular expression removes. *)
Lemma sanitizePayee_length payee : String.length (sanitizePayee payee) ≤ 255.
Proof.
  unfold sanitizePayee. destruct (negb _); [simpl; lia|].
  apply substring0_length.
Qed.

Lemma sanitizePayee_clean payee c :
  Js.occurs c (sanitizePayee payee) → dangerous c = false.
Proof.
  unfold sanitizePayee. destruct (negb _); [by intros ?%occurs_empty|].
  intros Hin. apply occurs_substring0 in Hin. unfold Js.trim in Hin.
  apply occurs_trimEnd, occurs_trimStart, occurs_removeChars in Hin.
  by destruct Hin.
Qed.

End SanitizeFacts.



Lemma nonEmpty_Some c name : nonEmpty c = Some name ↔ c = name ∧ name ≠ "".
Proof.
  unfold nonEmpty. destruct (Js.truthy c) eqn:Hc.
  - apply truthy_true in Hc. split.
    + by intros [= <-].
    + by intros [-> _].
  - apply truthy_false in Hc. split; [done|]. intros [-> Hname]. done.
Qed.

(** The fuzzy step, started without a category. *)
Lemma fuzzy_step sp memory categoryName matchSource :
  truthyOpt categoryName = false →
  let r :=
    if negb (truthyOpt categoryName)
       && Nat.ltb 0 (List.length (Object_keys memory))
    then
      let memorizedPayees := Object_keys memory in
      let bestMatch := findBestMatch sp memorizedPayees in
      if Qle_bool (7 # 10) (bm_rating bestMatch)
      then (bm_target bestMatch ≫= obj_get memory,
            Some (memory_fuzzy (bm_rating bestMatch)))
      else (categoryName, matchSource)
    else (categoryName, matchSource) in
  (if truthyOpt r.1 then r.1 else None) = fuzzyCategory sp memory
  ∧ (truthyOpt r.1 = true → isConfigRule r.2 = false).
Proof.
  intros Hnone. rewrite Hnone. unfold fuzzyCategory, nonEmpty. simpl.
  destruct (Object_keys memory) as [|key keys] eqn:Hkeys; simpl.
  - rewrite Hnone. done.
  - destruct (Qle_bool _ _); simpl; [|by rewrite Hnone].
    destruct (bm_target _ ≫= obj_get memory) as [c|]; simpl; [|done].
    by destruct (Js.truthy c).
Qed.

(** The category and source computed by steps 1 to 3, against the layers
    of the specification. *)
Ltac settle H :=
  repeat progress
    (rewrite ?H; cbn [negb andb fst snd truthyOpt isConfigRule]).

Ltac by_fuzzy_step sp memory cn ms H :=
  let H1 := fresh in
  let H2 := fresh in
  let Ht := fresh in
  destruct (fuzzy_step sp memory cn ms) as [H1 H2]; [by settle H|];
  settle H; cbv zeta in H1, H2; revert H1 H2; settle H; intros H1 H2;
  rewrite <- H1;
  destruct (truthyOpt (_.1)) eqn:Ht; [rewrite H2 by done|]; done.

Lemma matchCategory_layers sp rules memory :
  let r := matchCategory sp rules memory in
  (if truthyOpt r.1 then r.1 else None) = layeredCategory sp rules memory
  ∧ (if truthyOpt r.1 && negb (isConfigRule r.2) then r.1 else None)
    = memoryCategory sp rules memory.
Proof.
  unfold matchCategory, layeredCategory, memoryCategory, ruleCategory,
    exactCategory, nonEmpty. cbv zeta.
  destruct (firstIncluded (Js.toLowerCase sp) rules) as [[k c]|].
  - destruct (Js.truthy c) eqn:Hc; settle Hc; [done|].
    destruct (firstIncluded (Js.toLowerCase sp) memory) as [[k' c']|].
    + destruct (Js.truthy c') eqn:Hc'; settle Hc'; [done|].
      by_fuzzy_step sp memory (Some c') (Some memory_exact) Hc'.
    + by_fuzzy_step sp memory (Some c) (Some config_rule) Hc.
  - settle I.
    destruct (firstIncluded (Js.toLowerCase sp) memory) as [[k' c']|].
    + destruct (Js.truthy c') eqn:Hc'; settle Hc'; [done|].
      by_fuzzy_step sp memory (Some c') (Some memory_exact) Hc'.
    + by_fuzzy_step sp memory (@None string) (@None MatchSource) I.
Qed.

(** *** Running [assignCategoryId] *)


Lemma loadMemoryOnce_run w :
  loadMemoryOnce w
  = (Ok (currentMemory w),
     mkWorld (categoriesCache w) (Some (currentMemory w)) (memoryFile w)
       (clock w) (console w ++ loadWarning w)).
Proof.
  unfold loadMemoryOnce, loadMemory, currentMemory, loadWarning. munfold.
  destruct w as [cc mc mf cl co]; simpl.
  destruct mc as [m|]; simpl; [by rewrite app_nil_r|].
  destruct mf; simpl; by rewrite ?app_nil_r.
Qed.

(** The resolver reads and writes the category cache only. *)
Lemma getCategoriesMap_frame env w r w' :
  getCategoriesMap env w = (r, w') →
  memoryCache w' = memoryCache w ∧ memoryFile w' = memoryFile w.
Proof.
  unfold getCategoriesMap. munfold.
  destruct (categoriesCache w); [by intros [= <- <-]|].
  simpl. destruct (http_get_categories env (clock w)); by intros [= <- <-].
Qed.

Lemma lookUpCategory_frame env categoryName w r w' :
  lookUpCategory env categoryName w = (r, w') →
  memoryCache w' = memoryCache w ∧ memoryFile w' = memoryFile w
  ∧ ∃ id, r = Ok id.
Proof.
  unfold lookUpCategory, getCategoryId. munfold.
  destruct (truthyOpt categoryName); [|intros [= <- <-]; eauto].
  destruct (negb _); simpl; [intros [= <- <-]; eauto|].
  destruct (getCategoriesMap env w) as [[cats|e] w1] eqn:Hmap;
    apply getCategoriesMap_frame in Hmap as [Hc Hf].
  - destruct (orNull _); intros [= <- <-]; simpl; eauto.
  - intros [= <- <-]; simpl; eauto.
Qed.

Lemma sanitizePayee_nonempty payee : sanitizePayee payee ≠ "" → payee ≠ "".
Proof. by intros Hsp ->. Qed.

(** The function past its two guards and the rules check. *)
Lemma assignCategoryId_run env payee rules w :
  sanitizePayee payee ≠ "" →
  assignCategoryId env payee (Some rules) w
  = let sanitizedPayee := sanitizePayee payee in
    let memory := currentMemory w in
    let r := matchCategory sanitizedPayee rules memory in
    (do! learnMatch env sanitizedPayee memory r.1 r.2 in
     lookUpCategory env r.1) (loadMemoryOnce w).2.
Proof.
  intros Hsp. pose proof (sanitizePayee_nonempty _ Hsp) as Hp.
  unfold assignCategoryId.
  rewrite (proj2 (truthy_true _) Hp), (proj2 (truthy_true _) Hsp). simpl.
  unfold bind at 1. rewrite loadMemoryOnce_run. simpl.
  unfold bind at 1, ret at 1.
  by destruct (matchCategory _ _ _).
Qed.

(** Step 4 when nothing is to be learnt, and when something is. *)
Lemma learnMatch_skip env sp memory categoryName matchSource w :
  (if truthyOpt categoryName && negb (isConfigRule matchSource)
   then categoryName else None) = None
  ∨ obj_get memory sp = categoryName →
  learnMatch env sp memory categoryName matchSource w = (Ok tt, w).
Proof.
  unfold learnMatch. munfold.
  destruct (truthyOpt categoryName && _) eqn:Hfound; [|done].
  intros [Hnone|Hsame].
  - apply andb_true_iff in Hfound as [Hfound _].
    destruct categoryName; [done|]. by simpl in Hfound.
  - rewrite Hsame. apply andb_true_iff in Hfound as [Hfound _].
    rewrite Hfound. simpl. by rewrite bool_decide_eq_true_2.
Qed.


Lemma learnMatch_total env sp memory categoryName matchSource w :
  ∃ w', learnMatch env sp memory categoryName matchSource w = (Ok tt, w')
        ∧ categoriesCache w' = categoriesCache w.
Proof.
  unfold learnMatch, saveMemory. munfold.
  destruct (_ && _); [|eauto].
  destruct (_ || _); [|eauto]. simpl.
  destruct (fs_write_ok env (clock w)); simpl; eauto.
Qed.

Lemma find_first {A} (p : A → bool) (pre post : list A) (x : A) :
  Forall (λ e, p e = false) pre → p x = true →
  find p (pre ++ x :: post) = Some x.
Proof.
  intros Hpre Hx. induction Hpre as [|e pre He _ IH]; simpl.
  - by rewrite Hx.
  - by rewrite He.
Qed.

Lemma memoryCategory_nonEmpty sp rules memory name :
  memoryCategory sp rules memory = Some name → name ≠ "".
Proof.
  unfold memoryCategory, exactCategory, fuzzyCategory.
  destruct (ruleCategory sp rules); [done|].
  destruct (firstIncluded _ memory) as [[k c]|].
  - destruct (nonEmpty c) eqn:Hc.
    + intros [= <-]. by apply nonEmpty_Some in Hc as [_ ?].
    + destruct (Qle_bool _ _); [|done].
      destruct (_ ≫= _) as [c'|]; [|done].
      intros Hc'. by apply nonEmpty_Some in Hc' as [_ ?].
  - destruct (Qle_bool _ _); [|done].
    destruct (_ ≫= _) as [c'|]; [|done].
    intros Hc'. by apply nonEmpty_Some in Hc' as [_ ?].
Qed.

Lemma if_truthy_Some (x : option string) (b : bool) name :
  (if truthyOpt x && b then x else None) = Some name →
  x = Some name ∧ name ≠ "" ∧ b = true.
Proof.
  destruct x as [c|]; simpl; [|by destruct b].
  destruct (Js.truthy c) eqn:Hc; simpl; [|done].
  destruct b; [|done]. intros [= ->]. by apply truthy_true in Hc.
Qed.

Lemma if_found_Some (x : option string) name :
  (if truthyOpt x then x else None) = Some name → x = Some name ∧ name ≠ "".
Proof.
  intros Hx. destruct (if_truthy_Some x true name) as (? & ? & _); [|done].
  by rewrite andb_true_r.
Qed.

(** C3 (as amended).  When the sanitized payee is not empty and the first
    rule, in the order of [Object.entries], whose lower-cased key occurs
    in the lower-cased sanitized payee has a non-empty category, that
    category is the one resolved to an id, whatever the memory holds, and
    neither the memory mapping nor the memory file changes. *)
Theorem rule_match_wins env payee rules w pre k c post :
  sanitizePayee payee ≠ "" →
  Object_entries rules = pre ++ (k, c) :: post →
  Forall (λ e, Js.includes (Js.toLowerCase (sanitizePayee payee))
                 (Js.toLowerCase e.1) = false) pre →
  Js.includes (Js.toLowerCase (sanitizePayee payee)) (Js.toLowerCase k) = true →
  c ≠ "" →
  assignCategoryId env payee (Some rules) w
  = lookUpCategory env (Some c) (loadMemoryOnce w).2
  ∧ currentMemory (assignCategoryId env payee (Some rules) w).2
    = currentMemory w
  ∧ memoryFile (assignCategoryId env payee (Some rules) w).2 = memoryFile w.
Proof.
  intros Hsp Hentries Hpre Hk Hc.
  assert (ruleCategory (sanitizePayee payee) rules = Some c) as Hrule.
  { unfold ruleCategory, firstIncluded. rewrite Hentries.
    rewrite (find_first _ pre post (k, c) Hpre Hk).
    by apply nonEmpty_Some. }
  pose proof (matchCategory_layers (sanitizePayee payee) rules (currentMemory w))
    as [Hlayer Hmem].
  unfold layeredCategory, memoryCategory in Hlayer, Hmem.
  rewrite Hrule in Hlayer, Hmem. cbv zeta in Hlayer, Hmem.
  apply if_found_Some in Hlayer as [Hr1 _].
  assert (assignCategoryId env payee (Some rules) w
          = lookUpCategory env (Some c) (loadMemoryOnce w).2) as Hrun.
  { rewrite assignCategoryId_run by done. cbv zeta.
    unfold bind. rewrite learnMatch_skip by (by left). by rewrite Hr1. }
  split; [done|]. rewrite Hrun.
  destruct (lookUpCategory _ _ _) as [r w'] eqn:Hlook.
  apply lookUpCategory_frame in Hlook as (Hcache & Hfile & _).
  rewrite loadMemoryOnce_run in Hcache, Hfile. simpl in *.
  split; [|done]. unfold currentMemory at 1. by rewrite Hcache.
Qed.


Lemma assignCategoryId_null_rules env payee w :
  currentMemory (assignCategoryId env payee None w).2 = currentMemory w
  ∧ memoryFile (assignCategoryId env payee None w).2 = memoryFile w.
Proof.
  assert (assignCategoryId env payee None w = (Ok None, w)
          ∨ assignCategoryId env payee None w
            = (Throw typeErrorNullObject, (loadMemoryOnce w).2)) as [-> | ->].
  { unfold assignCategoryId.
    destruct (negb (Js.truthy payee)); [by left|].
    destruct (negb (Js.truthy (sanitizePayee payee))); [by left|].
    right. unfold bind, throw. by rewrite loadMemoryOnce_run. }
  - done.
  - by rewrite loadMemoryOnce_run.
Qed.

Lemma assignCategoryId_empty env payee categoryRules w :
  sanitizePayee payee = "" →
  assignCategoryId env payee categoryRules w = (Ok None, w).
Proof.
  intros Hsp. unfold assignCategoryId.
  destruct (negb (Js.truthy payee)); [done|].
  by rewrite Hsp.
Qed.


Lemma getCategoryId_fetch_fails env name w :
  name ≠ "" → categoriesCache w = None →
  (∀ n, ∃ e, http_get_categories env n = Throw e) →
  ∃ e w',
    getCategoryId env name w
    = (Throw (mkError ("Failed to fetch categories: " +:+ err_message e) None),
       w')
    ∧ console w' = console w.
Proof.
  intros Hname Hcache Hdown. unfold getCategoryId, getCategoriesMap. munfold.
  rewrite (proj2 (truthy_true _) Hname). simpl. rewrite Hcache. simpl.
  destruct (Hdown (clock w)) as [e ->]. eauto.
Qed.

(** C5 (as amended).  When a category name has been chosen and the remote
    fetch of the category list fails, the resolution of the name fails
    with an error, which [assignCategoryId] catches: it logs the error and
    returns null, a normal result. *)
Theorem category_fetch_failure env payee rules w name :
  sanitizePayee payee ≠ "" →
  layeredCategory (sanitizePayee payee) rules (currentMemory w) = Some name →
  categoriesCache w = None →
  (∀ n, ∃ e, http_get_categories env n = Throw e) →
  (∃ e w0, getCategoryId env name w = (Throw e, w0))
  ∧ ∃ w' message,
      assignCategoryId env payee (Some rules) w = (Ok None, w')
      ∧ LogCategoryLookupError name message ∈ console w'.
Proof.
  intros Hsp Hlayer Hcache Hdown.
  pose proof (matchCategory_layers (sanitizePayee payee) rules
                (currentMemory w)) as [Hr _].
  rewrite Hlayer in Hr. cbv zeta in Hr.
  apply if_found_Some in Hr as [Hr1 Hname].
  split.
  { destruct (getCategoryId_fetch_fails env name w) as (e & w0 & -> & _);
      eauto. }
  rewrite assignCategoryId_run by done. cbv zeta. rewrite Hr1. unfold bind.
  destruct (learnMatch_total env (sanitizePayee payee) (currentMemory w)
              (Some name)
              (matchCategory (sanitizePayee payee) rules (currentMemory w)).2
              (loadMemoryOnce w).2) as (w1 & -> & Hcache1).
  rewrite loadMemoryOnce_run in Hcache1. simpl in Hcache1.
  unfold lookUpCategory. simpl. rewrite (proj2 (truthy_true _) Hname).
  unfold tryCatch, bind at 1.
  destruct (getCategoryId_fetch_fails env name w1) as (e & w2 & -> & Hconsole);
    [done|congruence|done|].
  munfold. simpl. eexists _, _. split; [done|]. simpl.
  apply elem_of_app. right. by apply list_elem_of_singleton.
Qed.



Section Emits.
Context (P : LogEvent → Prop).

Lemma emits_ret {A} (a : A) : emits P (ret a).
Proof. intros w r w' [= <- <-]. exists []. by rewrite app_nil_r. Qed.

Lemma emits_throw {A} e : emits P (throw (A := A) e).
Proof. intros w r w' [= <- <-]. exists []. by rewrite app_nil_r. Qed.

Lemma emits_pure {A} (f : World → Result A) : emits P (λ w, (f w, w)).
Proof. intros w r w' [= <- <-]. exists []. by rewrite app_nil_r. Qed.

Lemma emits_log ev : P ev → emits P (log ev).
Proof. intros Hev w r w' [= <- <-]. exists [ev]. simpl. by repeat constructor. Qed.

Lemma emits_bind {A B} (c : M A) (k : A → M B) :
  emits P c → (∀ a, emits P (k a)) → emits P (bind c k).
Proof.
  intros Hc Hk w r w'. unfold bind.
  destruct (c w) as [[a|e] w1] eqn:Hrun; apply Hc in Hrun as (evs1 & E1 & H1).
  - intros Hrun. apply Hk in Hrun as (evs2 & E2 & H2).
    exists (evs1 ++ evs2). rewrite E2, E1, app_assoc. split; [done|].
    by apply Forall_app.
  - intros [= <- <-]. eauto.
Qed.

Lemma emits_tryCatch {A} (c : M A) (h : JsError → M A) :
  emits P c → (∀ e, emits P (h e)) → emits P (tryCatch c h).
Proof.
  intros Hc Hh w r w'. unfold tryCatch.
  destruct (c w) as [[a|e] w1] eqn:Hrun; apply Hc in Hrun as (evs1 & E1 & H1).
  - intros [= <- <-]. eauto.
  - intros Hrun. apply Hh in Hrun as (evs2 & E2 & H2).
    exists (evs1 ++ evs2). rewrite E2, E1, app_assoc. split; [done|].
    by apply Forall_app.
Qed.

Lemma emits_getWorld : emits P getWorld.
Proof. apply emits_pure. Qed.

Lemma emits_tick : emits P tick.
Proof. intros w r w' [= <- <-]. exists []. simpl. by rewrite app_nil_r. Qed.

Lemma emits_setMemoryCache c : emits P (setMemoryCache c).
Proof. intros w r w' [= <- <-]. exists []. simpl. by rewrite app_nil_r. Qed.

Lemma emits_setCategoriesCache c : emits P (setCategoriesCache c).
Proof. intros w r w' [= <- <-]. exists []. simpl. by rewrite app_nil_r. Qed.

Lemma emits_setMemoryFile f : emits P (setMemoryFile f).
Proof. intros w r w' [= <- <-]. exists []. simpl. by rewrite app_nil_r. Qed.

Lemma emits_external {A} (oracle : nat → Result A) : emits P (external oracle).
Proof.
  unfold external. apply emits_bind; [apply emits_tick|].
  intros n. apply emits_pure.
Qed.

Lemma emits_forEachM {S A} (body : S → A → M S) (l : list A) :
  (∀ s x, emits P (body s x)) → ∀ s, emits P (forEachM body s l).
Proof.
  intros Hbody. induction l as [|x l IH]; intros s; simpl.
  - apply emits_ret.
  - apply emits_bind; [apply Hbody|]. intros s'. apply IH.
Qed.

Lemma emits_withRetryFrom {A} (fn : M A) shouldRetry attempt retriesLeft :
  emits P fn → (∀ n m, P (LogRetry n m)) →
  emits P (withRetryFrom fn shouldRetry attempt retriesLeft).
Proof.
  intros Hfn Hretry. revert attempt.
  induction retriesLeft as [|n IH]; intros attempt; simpl.
  - apply emits_tryCatch; [done|]. intros e. apply emits_throw.
  - apply emits_tryCatch; [done|]. intros e.
    destruct (match shouldRetry with Some p => negb (p e) | None => false end).
    + apply emits_throw.
    + apply emits_bind; [by apply emits_log|]. intros _. apply IH.
Qed.

Lemma emits_withRetry {A} (fn : M A) maxRetries shouldRetry :
  emits P fn → (∀ n m, P (LogRetry n m)) →
  emits P (withRetry fn maxRetries shouldRetry).
Proof. apply emits_withRetryFrom. Qed.

End Emits.


Section Safe.
Context (P : LogEvent → Prop).

Lemma safe_emits {A} (c : M A) : safe P c → emits P c.
Proof. intros Hc w r w' Hrun. by apply Hc in Hrun as [_ ?]. Qed.

Lemma safe_ret {A} (a : A) : safe P (ret a).
Proof.
  intros w r w' Hrun. split; [injection Hrun as <- _; eauto|].
  by apply (emits_ret P a w r w').
Qed.

Lemma safe_log ev : P ev → safe P (log ev).
Proof.
  intros Hev w r w' Hrun. split; [injection Hrun as <- _; eauto|].
  by apply (emits_log P ev Hev w r w').
Qed.

Lemma safe_bind {A B} (c : M A) (k : A → M B) :
  safe P c → (∀ a, safe P (k a)) → safe P (bind c k).
Proof.
  intros Hc Hk w r w' Hrun. split.
  - unfold bind in Hrun. destruct (c w) as [r1 w1] eqn:Hrun1.
    apply Hc in Hrun1 as [[a ->] _]. by apply Hk in Hrun as [? _].
  - revert Hrun. apply emits_bind; [by apply safe_emits|].
    intros a. by apply safe_emits.
Qed.

Lemma safe_tryCatch {A} (c : M A) (h : JsError → M A) :
  emits P c → (∀ e, safe P (h e)) → safe P (tryCatch c h).
Proof.
  intros Hc Hh w r w' Hrun. split.
  - unfold tryCatch in Hrun. destruct (c w) as [[a|e] w1] eqn:Hrun1.
    + injection Hrun as <- _. eauto.
    + by apply Hh in Hrun as [? _].
  - revert Hrun. apply emits_tryCatch; [done|].
    intros e. by apply safe_emits.
Qed.

Lemma safe_forEachM {S A} (body : S → A → M S) (l : list A) :
  (∀ s x, safe P (body s x)) → ∀ s, safe P (forEachM body s l).
Proof.
  intros Hbody. induction l as [|x l IH]; intros s; simpl.
  - apply safe_ret.
  - apply safe_bind; [apply Hbody|]. intros s'. apply IH.
Qed.

End Safe.

Ltac emits_step :=
  first
    [ apply emits_ret | apply emits_throw | apply emits_getWorld
    | apply emits_tick | apply emits_setMemoryCache
    | apply emits_setCategoriesCache | apply emits_setMemoryFile
    | apply emits_external
    | apply emits_log; (by intros [])
    | apply emits_bind; [|intros ?]
    | apply emits_tryCatch; [|intros ?]
    | apply emits_withRetry; [|by intros ? ? []]
    | match goal with
      | |- emits _ (if ?b then _ else _) => destruct b
      | |- emits _ (match ?x with _ => _ end) => destruct x
      | |- emits _ (let '(_, _) := ?x in _) => destruct x
      end ].



Section SyncFacts.
Context {num : Type} `{JsNumber num} `{Sha256}.


End SyncFacts.

Section DedupeFacts.
Context {num : Type} `{JsNumber num} `{Sha256}.
Implicit Types (st : LoopState num) (m : Movement num) (config : Config).


(** The two sets built from the existing transactions hold all their
    simple keys and all their fingerprints. *)
Lemma collectExisting_sets (existing : list (ExistingTx num)) :
  collectExisting existing
  = (list_to_set
       ((λ tx, generateTransactionFingerprint (existingIdentity tx))
          <$> existing),
     list_to_set ((λ tx, simpleKeyOf (ex_date tx) (ex_amount tx)) <$> existing)).
Proof.
  unfold collectExisting.
  assert (∀ F K : gset string,
            foldl (λ '(existingFingerprints, existingSimpleKeys) tx,
                     let simpleKey := simpleKeyOf (ex_date tx) (ex_amount tx) in
                     let fingerprint :=
                       generateTransactionFingerprint (existingIdentity tx) in
                     (existingFingerprints ∪ {[ fingerprint ]},
                      existingSimpleKeys ∪ {[ simpleKey ]}))
                  (F, K) existing
            = (F ∪ list_to_set
                     ((λ tx, generateTransactionFingerprint
                               (existingIdentity tx)) <$> existing),
               K ∪ list_to_set
                     ((λ tx, simpleKeyOf (ex_date tx) (ex_amount tx))
                        <$> existing))) as Hfold.
  { induction existing as [|tx existing IH]; intros F K; simpl.
    - by rewrite !(right_id_L ∅ (∪)).
    - by rewrite IH, !(assoc_L (∪)). }
  by rewrite Hfold, !(left_id_L ∅ (∪)).
Qed.


Lemma processMovement_duplicate (env : Env) config st m w :
  isDuplicate st m = true →
  ∃ w',
    processMovement env config st m w
    = (Ok (mkLoopState (existingFingerprints st) (existingSimpleKeys st)
             (newTransactions st)
             (skippedDuplicates st
                ++ [mkDuplicateInfo (mv_date m) (num_toFixed2 (mv_amount m))
                      (mv_payee m)
                      (if decide (movementFingerprint m
                                    ∈ existingFingerprints st)
                       then method_fingerprint else method_simple)])
             (processingErrors st)), w').
Proof.
  intros Hdup. unfold processMovement. unfold isDuplicate in Hdup.
  rewrite Hdup. munfold. eexists. do 4 f_equal.
  unfold movementFingerprint. by destruct (decide _); [rewrite bool_decide_eq_true_2|rewrite bool_decide_eq_false_2].
Qed.

Lemma processMovement_new (env : Env) config st m w :
  isDuplicate st m = false →
  ∃ w',
    processMovement env config st m w
    = (Ok (match currency config with
           | Some cur =>
               mkLoopState
                 (existingFingerprints st ∪ {[ movementFingerprint m ]})
                 (existingSimpleKeys st ∪ {[ movementKey m ]})
                 (newTransactions st
                    ++ [buildTransaction config cur m
                          (categorized env config st m w).1])
                 (skippedDuplicates st)
                 (categorized env config st m w).2
           | None =>
               mkLoopState (existingFingerprints st) (existingSimpleKeys st)
                 (newTransactions st) (skippedDuplicates st)
                 ((categorized env config st m w).2
                    ++ [mkProcessingError m
                          (err_message typeErrorToLowerCase) step_processing])
           end), w').
Proof.
  intros Hdup. unfold processMovement, categorized. unfold isDuplicate in Hdup.
  rewrite Hdup. unfold bind at 1, tryCatch at 1, bind at 1.
  destruct (withRetry _ _ _ w) as [[categoryId|err] w1]; simpl.
  - destruct (currency config); munfold; eauto.
  - munfold. destruct (currency config); simpl; eauto.
Qed.

Lemma processMovement_total (env : Env) config st m w :
  ∃ st' w', processMovement env config st m w = (Ok st', w').
Proof.
  destruct (isDuplicate st m) eqn:Hdup.
  - destruct (processMovement_duplicate env config st m w Hdup) as [w' ->].
    eauto.
  - destruct (processMovement_new env config st m w Hdup) as [w' ->]. eauto.
Qed.

Lemma processMovements_cons (env : Env) config st m rest w st' w' :
  processMovement env config st m w = (Ok st', w') →
  processMovements env config st (m :: rest) w
  = processMovements env config st' rest w'.
Proof. intros Hstep. unfold processMovements. simpl. unfold bind. by rewrite Hstep. Qed.

Lemma processMovements_app (env : Env) config st pre post w st1 w1 :
  processMovements env config st pre w = (Ok st1, w1) →
  processMovements env config st (pre ++ post) w
  = processMovements env config st1 post w1.
Proof.
  revert st w. induction pre as [|m pre IH]; intros st w.
  - by intros [= -> ->].
  - destruct (processMovement_total env config st m w) as (st' & w' & Hstep).
    rewrite <- app_comm_cons.
    rewrite !(processMovements_cons _ _ _ _ _ _ _ _ Hstep). apply IH.
Qed.

Lemma transformationErrors_app (l1 l2 : list (ProcessingError num)) :
  transformationErrors (l1 ++ l2)
  = transformationErrors l1 ++ transformationErrors l2.
Proof. apply filter_app. Qed.

Lemma categorized_errors (env : Env) config st m w :
  transformationErrors (categorized env config st m w).2
  = transformationErrors (processingErrors st).
Proof.
  unfold categorized. destruct (_.1); simpl; [done|].
  rewrite transformationErrors_app. unfold transformationErrors at 2.
  rewrite filter_cons_False by done. by rewrite filter_nil, app_nil_r.
Qed.

(** The loop never throws, and every candidate ends in exactly one of
    the three lists: new, skipped, or failed in the transformation. *)
Lemma processMovements_total (env : Env) config movements st w :
  ∃ st' w',
    processMovements env config st movements w = (Ok st', w')
    ∧ List.length (newTransactions st') + List.length (skippedDuplicates st')
      + List.length (transformationErrors (processingErrors st'))
      = List.length (newTransactions st) + List.length (skippedDuplicates st)
        + List.length (transformationErrors (processingErrors st))
        + List.length movements.
Proof.
  revert st w. induction movements as [|m rest IH]; intros st w.
  - exists st, w. split; [done|]. simpl. lia.
  - destruct (isDuplicate st m) eqn:Hdup.
    + destruct (processMovement_duplicate env config st m w Hdup)
        as [w1 Hstep].
      rewrite (processMovements_cons _ _ _ _ _ _ _ _ Hstep).
      match goal with
      | |- context [processMovements env config ?s rest w1] =>
          destruct (IH s w1) as (st' & w' & -> & Hcount)
      end.
      exists st', w'. split; [done|]. rewrite Hcount. simpl.
      rewrite length_app. simpl. lia.
    + destruct (processMovement_new env config st m w Hdup) as [w1 Hstep].
      rewrite (processMovements_cons _ _ _ _ _ _ _ _ Hstep).
      match goal with
      | |- context [processMovements env config ?s rest w1] =>
          destruct (IH s w1) as (st' & w' & -> & Hcount)
      end.
      exists st', w'. split; [done|]. rewrite Hcount.
      destruct (currency config); simpl.
      * rewrite length_app, categorized_errors. simpl. lia.
      * rewrite transformationErrors_app, length_app, categorized_errors.
        unfold transformationErrors at 2.
        rewrite filter_cons_True by done. simpl. lia.
Qed.
End DedupeFacts.

Section ClassifyFacts.
Context {num : Type} `{JsNumber num} `{Sha256}.
Implicit Types (st : LoopState num) (m : Movement num) (config : Config).
Implicit Types (K F : gset string).







Lemma keysAfter_mono K F ms : K ⊆ keysAfter K F ms.
Proof. apply union_subseteq_l. Qed.

Lemma fingerprintsAfter_mono K F ms : F ⊆ fingerprintsAfter K F ms.
Proof. apply union_subseteq_l. Qed.

End ClassifyFacts.

Section DedupeTheorems.
Context {num : Type} `{JsNumber num} `{Sha256}.
Implicit Types (st : LoopState num) (m : Movement num) (config : Config).



(** C2 (as amended).  A candidate that is not a duplicate and whose
    categorization throws after the retries is recorded in the
    processing-errors list with step 'categorization' and, with a
    currency configured, is still added to the new transactions, without
    a category.  Only the failure of the transformation (no currency)
    keeps it out of the new transactions, recorded with step
    'processing'.  In no case does the loop stop: it never throws, it
    goes on with the remaining candidates, and every candidate ends in
    exactly one of the lists of new transactions, skipped duplicates and
    failed transformations. *)
Theorem categorization_failure_recorded (env : Env) config st m w err w1 :
  isDuplicate st m = false →
  withRetry (assignCategoryId env (mv_payee m) (categoryRules config)) 2 None w
  = (Throw err, w1) →
  ∃ st' w',
    processMovement env config st m w = (Ok st', w')
    ∧ mkProcessingError m (err_message err) step_categorization
      ∈ processingErrors st'
    ∧ (∀ cur, currency config = Some cur →
       newTransactions st'
       = newTransactions st ++ [buildTransaction config cur m None])
    ∧ (currency config = None →
       newTransactions st' = newTransactions st
       ∧ mkProcessingError m (err_message typeErrorToLowerCase) step_processing
         ∈ processingErrors st')
    ∧ (∀ rest,
       processMovements env config st (m :: rest) w
       = processMovements env config st' rest w'
       ∧ ∃ st'' w'',
           processMovements env config st' rest w' = (Ok st'', w'')
           ∧ List.length (newTransactions st'')
             + List.length (skippedDuplicates st'')
             + List.length (transformationErrors (processingErrors st''))
             = List.length (newTransactions st')
               + List.length (skippedDuplicates st')
               + List.length (transformationErrors (processingErrors st'))
               + List.length rest).
Proof.
  intros Hdup Hthrow.
  destruct (processMovement_new env config st m w Hdup) as [w' Hstep].
  eexists _, w'. split; [exact Hstep|].
  unfold categorized. rewrite Hthrow. cbn [fst snd].
  split; [|split; [|split]].
  - destruct (currency config); simpl.
    + apply elem_of_app. right. by apply list_elem_of_singleton.
    + apply elem_of_app. left. apply elem_of_app. right.
      by apply list_elem_of_singleton.
  - intros cur ->. done.
  - intros ->. simpl. split; [done|].
    apply elem_of_app. right. by apply list_elem_of_singleton.
  - intros rest. split.
    + apply processMovements_cons. rewrite Hstep. unfold categorized.
      by rewrite Hthrow.
    + apply processMovements_total.
Qed.
End DedupeTheorems.

Section SummaryFacts.
Context {num : Type} `{JsNumber num} `{Sha256}.
Implicit Types (st : LoopState num) (config : Config) (env : SyncEnv num).






End SummaryFacts.

Section SummaryTheorem.
Context {num : Type} `{JsNumber num} `{Sha256}.
Implicit Types (st : LoopState num) (config : Config) (env : SyncEnv num).

Lemma emits_fetchMovements env config :
  emits quiet
    (if truthyOpt (gmailClientId config)
        && truthyOpt (gmailClientSecret config)
        && truthyOpt (gmailRefreshToken config)
     then
       tryCatch
         (let! gmailTx :=
            withRetry (external (fetchBancoChileEmails env)) 3
              (Some shouldRetryHttpError) in
          do! log (LogGmailFound (List.length gmailTx)) in
          ret gmailTx)
         (λ err, do! log (LogGmailFetchError (err_message err)) in ret [])
     else ret []).
Proof. repeat emits_step. Qed.

Lemma emits_fetchExisting env :
  emits quiet
    (tryCatch
       (let! existing :=
          withRetry (external (fetchTransactions env)) 3
            (Some shouldRetryHttpError) in
        ret (Some existing))
       (λ err, do! log (LogExistingFetchError (err_message err)) in ret None)).
Proof. repeat emits_step. Qed.

Lemma emits_dryRunLog (txs : list Transaction) :
  emits quiet
    (forEachM
       (λ _ tx, log (LogDryRunNew (tx_date tx) (tx_amount tx) (tx_payee tx)
                       (tx_category_id tx))) tt txs).
Proof. apply emits_forEachM. intros s x. by apply emits_log; intros []. Qed.

Lemma safe_fetchMovements env config :
  safe quiet
    (if truthyOpt (gmailClientId config)
        && truthyOpt (gmailClientSecret config)
        && truthyOpt (gmailRefreshToken config)
     then
       tryCatch
         (let! gmailTx :=
            withRetry (external (fetchBancoChileEmails env)) 3
              (Some shouldRetryHttpError) in
          do! log (LogGmailFound (List.length gmailTx)) in
          ret gmailTx)
         (λ err, do! log (LogGmailFetchError (err_message err)) in ret [])
     else ret []).
Proof.
  destruct (_ && _); [|apply safe_ret].
  apply safe_tryCatch; [repeat emits_step|].
  intros err. apply safe_bind; [by apply safe_log; intros []|].
  intros _. apply safe_ret.
Qed.

Lemma safe_fetchExisting env :
  safe quiet
    (tryCatch
       (let! existing :=
          withRetry (external (fetchTransactions env)) 3
            (Some shouldRetryHttpError) in
        ret (Some existing))
       (λ err, do! log (LogExistingFetchError (err_message err)) in ret None)).
Proof.
  apply safe_tryCatch; [repeat emits_step|].
  intros err. apply safe_bind; [by apply safe_log; intros []|].
  intros _. apply safe_ret.
Qed.

Lemma safe_dryRunLog (txs : list Transaction) :
  safe quiet
    (forEachM
       (λ _ tx, log (LogDryRunNew (tx_date tx) (tx_amount tx) (tx_payee tx)
                       (tx_category_id tx))) tt txs).
Proof. apply safe_forEachM. intros s x. by apply safe_log; intros []. Qed.





End SummaryTheorem.

Section ObjectFacts.
Context {V : Type}.
Implicit Types (o : JsObject V) (k : string) (v : V).

Lemma obj_get_set_eq o k v : obj_get (obj_set o k v) k = Some v.
Proof.
  induction o as [|[k' v'] o IH]; simpl.
  - by rewrite decide_True.
  - destruct (decide (k' = k)) as [->|Hne]; simpl.
    + by rewrite decide_True.
    + by rewrite decide_False.
Qed.

Lemma obj_get_set_ne o k k' v :
  k ≠ k' → obj_get (obj_set o k v) k' = obj_get o k'.
Proof.
  intros Hne. induction o as [|[k0 v0] o IH]; simpl.
  - by rewrite decide_False.
  - destruct (decide (k0 = k)) as [->|Hne0]; simpl.
    + by rewrite !decide_False.
    + by rewrite IH.
Qed.

Lemma obj_get_None o k : obj_get o k = None ↔ k ∉ o.*1.
Proof.
  induction o as [|[k' v'] o IH]; simpl.
  - split; [intros _; apply not_elem_of_nil|done].
  - rewrite not_elem_of_cons. destruct (decide (k' = k)) as [->|Hne].
    + split; [done|]. by intros [? _].
    + rewrite IH. split; [by split|by intros [_ ?]].
Qed.

Lemma obj_get_Some_elem o k v : obj_get o k = Some v → (k, v) ∈ o.
Proof.
  induction o as [|[k' v'] o IH]; simpl; [done|].
  destruct (decide (k' = k)) as [->|Hne].
  - intros [= ->]. apply list_elem_of_here.
  - intros Hget. apply list_elem_of_further. by apply IH.
Qed.

Lemma obj_get_elem_Some o k v :
  NoDup o.*1 → (k, v) ∈ o → obj_get o k = Some v.
Proof.
  induction o as [|[k' v'] o IH]; simpl.
  - intros _ Hin. by apply elem_of_nil in Hin.
  - intros Hnodup Hin. apply NoDup_cons in Hnodup as [Hfresh Hnodup].
    apply elem_of_cons in Hin as [[= -> ->]|Hin].
    + by rewrite decide_True.
    + rewrite decide_False; [by apply IH|].
      intros ->. apply Hfresh. apply list_elem_of_fmap. by exists (k, v).
Qed.

Lemma obj_set_keys o k v :
  (obj_set o k v).*1 = if decide (k ∈ o.*1) then o.*1 else o.*1 ++ [k].
Proof.
  induction o as [|[k' v'] o IH]; cbn [obj_set fmap list_fmap fst].
  - rewrite decide_False; [done|]. apply not_elem_of_nil.
  - destruct (decide (k' = k)) as [->|Hne]; cbn [fmap list_fmap fst].
    + rewrite decide_True; [done|]. apply list_elem_of_here.
    + rewrite IH. destruct (decide (k ∈ o.*1)) as [Hin|Hnotin].
      * rewrite decide_True; [done|]. by apply list_elem_of_further.
      * rewrite decide_False; [done|].
        rewrite not_elem_of_cons. by split.
Qed.


Lemma insertIndexed_perm (e : N * (string * V)) l :
  insertIndexed e l ≡ₚ e :: l.
Proof.
  induction l as [|e' l IH]; simpl; [done|].
  destruct (_ <=? _)%N; [done|]. rewrite IH. apply Permutation_swap.
Qed.

(** [Object.entries] lists every own property exactly once. *)
Lemma Object_entries_perm o : Object_entries o ≡ₚ o.
Proof.
  unfold Object_entries, namedEntries.
  induction o as [|[k v] o IH]; [done|]. cbn [indexedEntries].
  destruct (arrayIndex k) as [n|] eqn:Hk.
  - rewrite filter_cons_False by (simpl; congruence).
    rewrite insertIndexed_perm. simpl. by rewrite IH.
  - rewrite filter_cons_True by done.
    rewrite <- Permutation_middle. by rewrite IH.
Qed.


Lemma Object_entries_get o k v :
  NoDup o.*1 → ((k, v) ∈ Object_entries o ↔ obj_get o k = Some v).
Proof.
  intros Hnodup. rewrite (Object_entries_perm o). split.
  - by apply obj_get_elem_Some.
  - apply obj_get_Some_elem.
Qed.

Lemma Object_entries_NoDup o : NoDup o.*1 → NoDup (Object_entries o).*1.
Proof. intros Hnodup. by rewrite (Object_entries_perm o). Qed.

End ObjectFacts.

Section LearningFacts.
Implicit Types (history : list HistoryTx) (tx : HistoryTx).
Implicit Types (stats : JsObject (JsObject nat)) (counts : JsObject nat).






End LearningFacts.

Section PreferredFacts.
Implicit Types (history : list HistoryTx) (tx : HistoryTx).
Implicit Types (stats : JsObject (JsObject nat)) (counts : JsObject nat).




Lemma insertIndexed_fmap {V W} (f : V → W) (e : N * (string * V)) l :
  prod_map id (prod_map id f) <$> insertIndexed e l
  = insertIndexed (prod_map id (prod_map id f) e)
      (prod_map id (prod_map id f) <$> l).
Proof.
  destruct e as [n [k v]].
  induction l as [|[n' [k' v']] l IH]; [done|].
  cbn [insertIndexed fmap list_fmap prod_map fst snd id].
  destruct (n <=? n')%N; [done|].
  cbn [fmap list_fmap prod_map fst snd id]. f_equal. apply IH.
Qed.

(** The enumeration order depends on the keys only. *)
Lemma Object_keys_fmap {V W} (f : V → W) (o : JsObject V) :
  Object_keys (prod_map id f <$> o) = Object_keys o.
Proof.
  unfold Object_keys, Object_entries, namedEntries.
  rewrite !fmap_app. f_equal.
  - assert (indexedEntries (prod_map id f <$> o)
            = prod_map id (prod_map id f) <$> indexedEntries o) as ->.
    { induction o as [|[k v] o IH]; [done|].
      cbn [indexedEntries fmap list_fmap prod_map fst snd id].
      destruct (arrayIndex k); [|done].
      change (list_fmap _ _ (prod_map id f) o) with (prod_map id f <$> o).
      by rewrite IH, insertIndexed_fmap. }
    rewrite <- !list_fmap_compose. apply list_fmap_ext.
    by intros _ [n [k v]] _.
  - induction o as [|[k v] o IH]; [done|]. rewrite fmap_cons.
    rewrite !filter_cons. cbn [prod_map fst snd id].
    destruct (decide (arrayIndex k = None)); rewrite ?fmap_cons;
      cbn [fst]; by rewrite IH.
Qed.

Lemma Object_keys_keyOrder {V} (o : JsObject V) :
  Object_keys o = keyOrder o.*1.
Proof.
  unfold keyOrder. rewrite <- list_fmap_compose.
  by rewrite <- (Object_keys_fmap (λ _, tt) o).
Qed.


End PreferredFacts.

Section LearningTheorem.
Implicit Types (history : list HistoryTx) (tx : HistoryTx).


End LearningTheorem.

(* ----------------------------------------------------------------- *)
(** *** The claims on concrete inputs *)


Lemma failed_categorization_is_still_inserted :
  (sync (H0 := plainDigest) (demoSyncEnv [coffee] [] (λ _, Ok tt))
     (demoConfig None) false (freshWorld FileAbsent)).1
  = Ok (Some (mkSummary true 1 1 0 1 None (Some 1) (Some [])
                (Some [mkProcessingError coffee
                         "Cannot convert undefined or null to object"
                         step_categorization])))
  ∧ LogBatchInserted 1 1
    ∈ console (sync (H0 := plainDigest) (demoSyncEnv [coffee] [] (λ _, Ok tt))
                 (demoConfig None) false (freshWorld FileAbsent)).2.
Proof.
  split; [vm_compute; reflexivity|].
  vm_compute. repeat (first [apply list_elem_of_here | apply list_elem_of_further]).
Qed.

Lemma categorization_failure_recorded_witness :
  isDuplicate (H0 := plainDigest) emptyLoopState coffee = false
  ∧ ∃ st' w',
      processMovement (H0 := plainDigest) demoEnv (demoConfig None)
        emptyLoopState coffee (freshWorld FileAbsent) = (Ok st', w')
      ∧ mkProcessingError coffee (err_message typeErrorNullObject)
          step_categorization ∈ processingErrors st'
      ∧ newTransactions st'
        = [buildTransaction (demoConfig None) "CLP" coffee None].
Proof.
  split; [vm_compute; reflexivity|].
  destruct (categorization_failure_recorded (H0 := plainDigest) demoEnv
              (demoConfig None) emptyLoopState coffee (freshWorld FileAbsent)
              typeErrorNullObject
              (mkWorld None (Some []) FileAbsent 0
                 [LogRetry 1 (err_message typeErrorNullObject);
                  LogRetry 2 (err_message typeErrorNullObject)]))
    as (st' & w' & Hrun & Hrecorded & Hnew & _).
  - vm_compute. reflexivity.
  - vm_compute. reflexivity.
  - exists st', w'. split; [exact Hrun|]. split; [exact Hrecorded|].
    exact (Hnew "CLP" eq_refl).
Defined.

Lemma rule_order_counterexample :
  find (λ e, Js.includes (Js.toLowerCase (sanitizePayee "SHOP 7"))
               (Js.toLowerCase e.1))
    [("shop", "Shopping"); ("7", "Food")]
  = Some ("shop", "Shopping")
  ∧ (lookUpCategory demoEnv (Some "Shopping") (freshWorld FileAbsent)).1
    = Ok (Some 5%N)
  ∧ (assignCategoryId demoEnv "SHOP 7"
       (Some [("shop", "Shopping"); ("7", "Food")]) (freshWorld FileAbsent)).1
    = Ok (Some 7%N)
  ∧ Js.includes (Js.toLowerCase (sanitizePayee "ACME CORP 55"))
      (Js.toLowerCase "acme") = true
  ∧ memoryCache
      (assignCategoryId demoEnv "ACME CORP 55" (Some [("acme", "")])
         (freshWorld (FileObject [("acme corp", "Food")]))).2
    = Some [("acme corp", "Food"); ("ACME CORP 55", "Food")]
  ∧ memoryFile
      (assignCategoryId demoEnv "ACME CORP 55" (Some [("acme", "")])
         (freshWorld (FileObject [("acme corp", "Food")]))).2
    = FileObject [("acme corp", "Food"); ("ACME CORP 55", "Food")].
Proof. repeat split; vm_compute; reflexivity. Qed.

Lemma rule_match_wins_witness :
  sanitizePayee "ACME CORP 55" ≠ ""
  ∧ (assignCategoryId demoEnv "ACME CORP 55" (Some [("acme", "Shopping")])
       (freshWorld (FileObject [("acme corp", "Food")]))).1
    = Ok (Some 5%N)
  ∧ currentMemory
      (assignCategoryId demoEnv "ACME CORP 55" (Some [("acme", "Shopping")])
         (freshWorld (FileObject [("acme corp", "Food")]))).2
    = [("acme corp", "Food")].
Proof.
  split; [vm_compute; discriminate|].
  destruct (rule_match_wins demoEnv "ACME CORP 55" [("acme", "Shopping")]
              (freshWorld (FileObject [("acme corp", "Food")]))
              [] "acme" "Shopping" [])
    as (Hrun & Hmemory & _).
  - vm_compute. discriminate.
  - reflexivity.
  - constructor.
  - vm_compute. reflexivity.
  - discriminate.
  - split; [rewrite Hrun; vm_compute; reflexivity|].
    rewrite Hmemory. reflexivity.
Defined.


Lemma fetch_failure_returns_null :
  (getCategoryId offlineEnv "Shopping" (freshWorld FileAbsent)).1
  = Throw (mkError "Failed to fetch categories: Network Error" None)
  ∧ (assignCategoryId offlineEnv "ACME CORP 55" (Some [("acme", "Shopping")])
       (freshWorld FileAbsent)).1
    = Ok None.
Proof. split; vm_compute; reflexivity. Qed.

Lemma category_fetch_failure_witness :
  layeredCategory (sanitizePayee "ACME CORP 55") [("acme", "Shopping")]
    (currentMemory (freshWorld FileAbsent)) = Some "Shopping"
  ∧ ∃ w' message,
      assignCategoryId offlineEnv "ACME CORP 55" (Some [("acme", "Shopping")])
        (freshWorld FileAbsent) = (Ok None, w')
      ∧ LogCategoryLookupError "Shopping" message ∈ console w'.
Proof.
  split; [vm_compute; reflexivity|].
  destruct (category_fetch_failure offlineEnv "ACME CORP 55"
              [("acme", "Shopping")] (freshWorld FileAbsent) "Shopping")
    as [_ Hrun].
  - vm_compute. discriminate.
  - vm_compute. reflexivity.
  - reflexivity.
  - intros n. exists (mkError "Network Error" None). reflexivity.
  - exact Hrun.
Defined.




Lemma similarity_not_a_function_of_bigrams :
  bigramSet (Js.toLowerCase "x") = ∅
  ∧ bigramSet (Js.toLowerCase "y") = ∅
  ∧ calculateSimilarity "x" "x" = 1%Q
  ∧ calculateSimilarity "x" "y" = 0%Q
  ∧ ¬ (calculateSimilarity "x" "x" == diceCoefficient "x" "x")%Q.
Proof. repeat split; try reflexivity. vm_compute. discriminate. Qed.

Lemma calculateSimilarity_dice_witness :
  2 ≤ String.length "STARBUCKS #123" ∧ 2 ≤ String.length "STARBUCKS"
  ∧ (calculateSimilarity "STARBUCKS #123" "STARBUCKS"
     == diceCoefficient "STARBUCKS #123" "STARBUCKS")%Q
  ∧ (7 # 10 <= calculateSimilarity "STARBUCKS #123" "STARBUCKS")%Q.
Proof.
  split; [simpl; lia|]. split; [simpl; lia|].
  split.
  - apply (proj1 (calculateSimilarity_dice "STARBUCKS #123" "STARBUCKS"));
      simpl; lia.
  - vm_compute. discriminate.
Defined.

(** C10.  On a history that records the payee [McDonald's] twice,
    [learnFromHistory] stores the key as the history has it, trimmed
    only: with the single quote that [sanitizePayee] removes before
    [assignCategoryId] stores a key. *)
Theorem rebuilt_memory_keeps_raw_payee :
  let history :=
    [mkHistoryTx "McDonald's" (Some "Food");
     mkHistoryTx "  McDonald's " (Some "Food")] in
  learnFromHistory history = [("McDonald's", "Food")]
  ∧ Js.occurs "'" "McDonald's" ∧ dangerous "'" = true
  ∧ sanitizePayee "McDonald's" = "McDonalds".
Proof.
  repeat split; try (vm_compute; reflexivity).
  vm_compute. repeat (first [apply list_elem_of_here | apply list_elem_of_further]).
Qed.

(** [sanitizePayee] cuts to 255 characters after it has trimmed: a long
    payee can be left with a space at its end. *)
Lemma sanitizePayee_trailing_space :
  let payee := Js.repeat "a" 254 +:+ " b" in
  sanitizePayee payee = Js.repeat "a" 254 +:+ " "
  ∧ Js.trim (sanitizePayee payee) ≠ sanitizePayee payee.
Proof. split; [vm_compute; reflexivity|vm_compute; discriminate]. Qed.

(* ================================================================= *)
(** ** utils.js: batches and retries *)

Section BatchFacts.
Context {A : Type}.
Implicit Types (array : list A) (batchSize fuel : nat).

Lemma batchLoop_concat fuel array batchSize :
  0 < batchSize → List.length array ≤ fuel →
  List.concat (batchLoop fuel array batchSize) = array.
Proof.
  intros Hpos. revert array.
  induction fuel as [|fuel IH]; intros array Hfuel.
  - destruct array; [done|simpl in Hfuel; lia].
  - destruct array as [|x rest]; [done|].
    cbn [batchLoop List.concat]. rewrite IH; [apply take_drop|].
    rewrite length_drop. simpl in *. lia.
Qed.

Lemma batchLoop_lookup fuel array batchSize i :
  0 < batchSize → List.length array ≤ fuel →
  batchLoop fuel array batchSize !! i
  = if decide (i * batchSize < List.length array)
    then Some (take batchSize (drop (i * batchSize) array))
    else None.
Proof.
  intros Hpos. revert array i.
  induction fuel as [|fuel IH]; intros array i Hfuel.
  - destruct array; [|simpl in Hfuel; lia].
    destruct (decide _) as [Hlt|]; [simpl in Hlt; lia|done].
  - destruct array as [|x rest].
    { destruct (decide _) as [Hlt|]; [simpl in Hlt; lia|done]. }
    cbn [batchLoop]. destruct i as [|i].
    + destruct (decide _) as [|Hge]; [done|simpl in Hge; lia].
    + cbn [lookup list_lookup].
      rewrite IH by (rewrite length_drop; simpl in *; lia).
      rewrite length_drop, drop_drop.
      replace (batchSize + i * batchSize) with (S i * batchSize) by lia.
      destruct (decide (i * batchSize < _)), (decide (S i * batchSize < _));
        try done; simpl in *; lia.
Qed.

(** X1.  The batches of [batchArray], for a positive batch size, laid end
    to end are the array: no element is lost, repeated or moved.  An
    empty array gives no batch at all. *)
Theorem batchArray_concat array batchSize :
  0 < batchSize →
  List.concat (batchArray array batchSize) = array
  ∧ (batchArray array batchSize = [] ↔ array = []).
Proof.
  intros Hpos. split; [by apply batchLoop_concat|].
  unfold batchArray. split.
  - intros Hnil. pose proof (batchLoop_concat (List.length array) array
                               batchSize Hpos (le_n _)) as Hcat.
    by rewrite Hnil in Hcat.
  - by intros ->.
Qed.

Lemma batchArray_lookup array batchSize i :
  0 < batchSize →
  batchArray array batchSize !! i
  = if decide (i * batchSize < List.length array)
    then Some (take batchSize (drop (i * batchSize) array))
    else None.
Proof. intros Hpos. by apply batchLoop_lookup. Qed.

Lemma batchArray_length array batchSize :
  0 < batchSize →
  List.length (batchArray array batchSize)
  = (List.length array + batchSize - 1) / batchSize.
Proof.
  intros Hpos. set (batches := batchArray array batchSize).
  assert (∀ i, i < List.length batches ↔ i * batchSize < List.length array)
    as Hlen.
  { intros i. unfold batches.
    rewrite <- lookup_lt_is_Some, batchArray_lookup by done.
    destruct (decide _); [by split; eauto|].
    split; [by intros [? [=]]|done]. }
  set (q := (List.length array + batchSize - 1) / batchSize).
  assert (∀ i, i < q ↔ i * batchSize < List.length array) as Hq.
  { intros i. unfold q. split.
    - intros Hi.
      assert (S i * batchSize ≤ List.length array + batchSize - 1); [|lia].
      etransitivity; [|apply (Nat.Div0.mul_div_le _ batchSize)].
      rewrite (Nat.mul_comm batchSize). apply Nat.mul_le_mono_r. lia.
    - intros Hi. apply Nat.div_le_lower_bound; lia. }
  destruct (Nat.lt_trichotomy (List.length batches) q) as [Hlt|[Heq|Hgt]];
    [|done|].
  - apply Hq, Hlen in Hlt. lia.
  - apply Hlen, Hq in Hgt. lia.
Qed.

(** X2.  Batch number [i] is [array.slice(i * batchSize, (i + 1) *
    batchSize)]: every batch holds between 1 and [batchSize] elements,
    every batch but the last holds exactly [batchSize], and there are
    ceil(length / batchSize) batches. *)
Theorem batchArray_shape array batchSize :
  0 < batchSize →
  let batches := batchArray array batchSize in
  List.length batches = (List.length array + batchSize - 1) / batchSize
  ∧ ∀ i batch, batches !! i = Some batch →
      batch = take batchSize (drop (i * batchSize) array)
      ∧ 0 < List.length batch ≤ batchSize
      ∧ (S i < List.length batches → List.length batch = batchSize).
Proof.
  intros Hpos batches. split; [by apply batchArray_length|].
  intros i batch Hi. unfold batches in *.
  rewrite batchArray_lookup in Hi by done.
  destruct (decide _) as [Hin|]; [|done]. injection Hi as <-.
  split; [done|]. rewrite length_take, length_drop. split; [lia|].
  intros Hnext. apply lookup_lt_is_Some in Hnext.
  rewrite batchArray_lookup in Hnext by done.
  destruct (decide _); [lia|]. by destruct Hnext.
Qed.

End BatchFacts.

Lemma batchArray_concat_witness :
  0 < 2 ∧ List.concat (batchArray [1; 2; 3; 4; 5] 2) = [1; 2; 3; 4; 5].
Proof.
  split; [lia|]. apply (batchArray_concat [1; 2; 3; 4; 5] 2). lia.
Defined.

Lemma batchArray_shape_witness :
  0 < 2 ∧ List.length (batchArray [1; 2; 3; 4; 5] 2) = 3.
Proof.
  split; [lia|]. apply (batchArray_shape [1; 2; 3; 4; 5] 2). lia.
Defined.


Section RetryFacts.
Context {A : Type}.
Implicit Types (oracle : nat → Result A) (w : World).

Lemma external_run oracle w :
  external oracle w
  = (oracle (clock w),
     mkWorld (categoriesCache w) (memoryCache w) (memoryFile w)
       (S (clock w)) (console w)).
Proof. done. Qed.

Lemma withRetryFrom_run oracle shouldRetry attempt retriesLeft w :
  ∃ k, k ≤ retriesLeft
    ∧ (∀ i, i < k → final shouldRetry (oracle (clock w + i)) = false)
    ∧ (k = retriesLeft ∨ final shouldRetry (oracle (clock w + k)) = true)
    ∧ withRetryFrom (external oracle) shouldRetry attempt retriesLeft w
      = (oracle (clock w + k),
         mkWorld (categoriesCache w) (memoryCache w) (memoryFile w)
           (clock w + k + 1)
           (console w
            ++ ((λ i, LogRetry (attempt + i + 1)
                        (match oracle (clock w + i) with
                         | Throw error => err_message error
                         | Ok _ => ""
                         end)) <$> seq 0 k))).
Proof.
  revert attempt w.
  induction retriesLeft as [|retriesLeft IH]; intros attempt w.
  - exists 0. split; [done|]. split; [intros i Hi; lia|]. split; [by left|].
    cbn [withRetryFrom]. unfold tryCatch. rewrite external_run.
    rewrite !Nat.add_0_r, Nat.add_1_r, app_nil_r.
    by destruct (oracle (clock w)).
  - cbn [withRetryFrom]. unfold tryCatch. rewrite external_run.
    destruct (oracle (clock w)) as [a|error] eqn:Hanswer.
    { exists 0. split; [lia|]. split; [intros i Hi; lia|].
      rewrite !Nat.add_0_r, Nat.add_1_r, app_nil_r, Hanswer.
      split; [by right|done]. }
    destruct (retried shouldRetry error) eqn:Hretried.
    + set (w1 := mkWorld (categoriesCache w) (memoryCache w) (memoryFile w)
                   (S (clock w))
                   (console w ++ [LogRetry (attempt + 1) (err_message error)])).
      destruct (IH (S attempt) w1) as (k & Hk & Hbefore & Hlast & Hrun).
      exists (S k). split; [lia|]. split; [|split].
      * intros [|i] Hi.
        -- rewrite Nat.add_0_r, Hanswer. simpl. by rewrite Hretried.
        -- replace (clock w + S i) with (clock w1 + i) by (simpl; lia).
           apply Hbefore. lia.
      * destruct Hlast as [->|Hlast]; [by left|right].
        by replace (clock w + S k) with (clock w1 + k) by (simpl; lia).
      * replace (match shouldRetry with
                 | Some p => negb (p error)
                 | None => false
                 end) with false
          by (unfold retried in Hretried; destruct shouldRetry; simpl;
              [by rewrite Hretried|done]).
        unfold bind at 1, log at 1.
        cbn [categoriesCache memoryCache memoryFile clock console].
        fold w1. rewrite Hrun.
        cbn [clock categoriesCache memoryCache memoryFile console w1].
        replace (S (clock w) + k) with (clock w + S k) by lia.
        do 2 f_equal.
        rewrite <- (assoc_L (++)). f_equal. cbn [seq fmap list_fmap].
        rewrite !Nat.add_0_r, Hanswer. cbn [app]. f_equal.
        rewrite <- fmap_S_seq, <- list_fmap_compose.
        apply list_fmap_ext. intros _ i _. simpl.
        replace (S (clock w + i)) with (clock w + S i) by lia.
        by replace (S (attempt + i + 1)) with (attempt + S i + 1) by lia.
    + exists 0. split; [lia|]. split; [intros i Hi; lia|].
      rewrite !Nat.add_0_r, Nat.add_1_r, app_nil_r, Hanswer.
      split; [right; simpl; by rewrite Hretried|].
      replace (match shouldRetry with
               | Some p => negb (p error)
               | None => false
               end) with true; [unfold throw; do 2 f_equal; lia|].
      unfold retried in Hretried. destruct shouldRetry; [|done].
      by rewrite Hretried.
Qed.

(** X3.  [withRetry] on a remote call returns the answer of the first
    attempt that gives a value or fails with an error that is not to be
    retried, and the answer of attempt [maxRetries + 1] when there is no
    such attempt before it.  It makes exactly that many calls, never
    more than [maxRetries + 1], and writes one warning, numbered from 1,
    for each failed attempt before the one whose answer it returns. *)
Theorem withRetry_attempts oracle shouldRetry maxRetries w :
  ∃ k, k ≤ maxRetries
    ∧ (∀ i, i < k → final shouldRetry (oracle (clock w + i)) = false)
    ∧ (k = maxRetries ∨ final shouldRetry (oracle (clock w + k)) = true)
    ∧ withRetry (external oracle) maxRetries shouldRetry w
      = (oracle (clock w + k),
         mkWorld (categoriesCache w) (memoryCache w) (memoryFile w)
           (clock w + k + 1)
           (console w ++ retryWarnings oracle (clock w) k)).
Proof.
  destruct (withRetryFrom_run oracle shouldRetry 0 maxRetries w)
    as (k & Hk & Hbefore & Hlast & Hrun).
  exists k. unfold withRetry. by rewrite Hrun.
Qed.

(** X4.  With the retry policy of the HTTP calls, a request that fails
    with a response status below 500 other than 429 is not attempted
    again: the error is thrown after one call, without a warning. *)
Theorem client_error_not_retried oracle maxRetries w error status :
  oracle (clock w) = Throw error →
  err_status error = Some status → status < 500 → status ≠ 429 →
  withRetry (external oracle) maxRetries (Some shouldRetryHttpError) w
  = (Throw error,
     mkWorld (categoriesCache w) (memoryCache w) (memoryFile w)
       (clock w + 1) (console w)).
Proof.
  intros Hanswer Hstatus Hlow Hnot.
  destruct (withRetryFrom_run oracle (Some shouldRetryHttpError) 0 maxRetries w)
    as (k & Hk & Hbefore & Hlast & Hrun).
  assert (final (Some shouldRetryHttpError) (oracle (clock w)) = true)
    as Hfinal.
  { rewrite Hanswer. simpl. unfold shouldRetryHttpError. rewrite Hstatus.
    apply negb_true_iff, orb_false_iff. split.
    - apply Nat.leb_gt. lia.
    - by apply Nat.eqb_neq. }
  destruct k as [|k].
  - unfold withRetry. rewrite Hrun, !Nat.add_0_r, Hanswer. simpl.
    by rewrite app_nil_r.
  - specialize (Hbefore 0 ltac:(lia)). rewrite Nat.add_0_r in Hbefore.
    congruence.
Qed.

End RetryFacts.

Lemma client_error_not_retried_witness :
  withRetry (external (λ _, Throw (mkError "Unauthorized" (Some 401)))) 3
    (Some shouldRetryHttpError) (freshWorld FileAbsent)
  = (Throw (A := unit) (mkError "Unauthorized" (Some 401)),
     mkWorld None None FileAbsent 1 []).
Proof.
  apply (client_error_not_retried (A := unit)
           (λ _, Throw (mkError "Unauthorized" (Some 401))) 3
           (freshWorld FileAbsent) (mkError "Unauthorized" (Some 401)) 401);
    [reflexivity|reflexivity|simpl; lia|simpl; lia].
Defined.


(* ================================================================= *)
(** ** categorize.js: best match and category resolver *)

Section BestMatchFacts.
Implicit Types (target : string) (candidates : list string).

Lemma findBestMatch_snoc target candidates x :
  findBestMatch target (candidates ++ [x])
  = let best := findBestMatch target candidates in
    let rating := calculateSimilarity target x in
    if negb (Qle_bool rating (bm_rating best))
    then mkBestMatch (Some x) rating
    else best.
Proof. unfold findBestMatch. by rewrite foldl_app. Qed.

Lemma findBestMatch_invariant target candidates :
  let best := findBestMatch target candidates in
  (∀ c, c ∈ candidates → (calculateSimilarity target c <= bm_rating best)%Q)
  ∧ match bm_target best with
    | None => bm_rating best = 0%Q
    | Some t =>
        ∃ pre post,
          candidates = pre ++ t :: post
          ∧ bm_rating best = calculateSimilarity target t
          ∧ (0 < bm_rating best)%Q
          ∧ ∀ c, c ∈ pre → (calculateSimilarity target c < bm_rating best)%Q
    end.
Proof.
  induction candidates as [|x candidates IH] using rev_ind.
  - simpl. split; [|done]. intros c Hc. by apply elem_of_nil in Hc.
  - rewrite findBestMatch_snoc. cbv zeta in *.
    destruct IH as [Hall Hbest].
    set (best := findBestMatch target candidates) in *.
    assert (0 <= bm_rating best)%Q as Hnonneg.
    { destruct (bm_target best).
      - destruct Hbest as (_ & _ & _ & _ & Hpos & _). by apply Qlt_le_weak.
      - rewrite Hbest. apply Qle_refl. }
    destruct (Qle_bool (calculateSimilarity target x) (bm_rating best))
      eqn:Hle; simpl.
    + apply Qle_bool_iff in Hle. split.
      * intros c [Hc| ->%list_elem_of_singleton]%elem_of_app; [by apply Hall|done].
      * destruct (bm_target best) as [t|]; [|done].
        destruct Hbest as (pre & post & -> & Hrating & Hpos & Hpre).
        exists pre, (post ++ [x]).
        by rewrite <- (assoc_L (++)), <- app_comm_cons.
    + assert (bm_rating best < calculateSimilarity target x)%Q as Hlt.
      { apply Qnot_le_lt. intros Hle'. apply Qle_bool_iff in Hle'. congruence. }
      split.
      * intros c [Hc| ->%list_elem_of_singleton]%elem_of_app.
        -- apply Qlt_le_weak. eapply Qle_lt_trans; [by apply Hall|done].
        -- apply Qle_refl.
      * exists candidates, []. split; [done|]. split; [done|]. split.
        -- eapply Qle_lt_trans; [exact Hnonneg|done].
        -- intros c Hc. eapply Qle_lt_trans; [by apply Hall|done].
Qed.

(** X5.  [findBestMatch] returns a rating that no candidate exceeds.
    When some candidate has a positive similarity to the target, the
    match is the first candidate that reaches this highest rating;
    when none has (an empty list included), the match is [null] with
    rating 0. *)
Theorem findBestMatch_first_highest target candidates :
  let best := findBestMatch target candidates in
  (∀ c, c ∈ candidates → (calculateSimilarity target c <= bm_rating best)%Q)
  ∧ match bm_target best with
    | None =>
        bm_rating best = 0%Q
        ∧ ∀ c, c ∈ candidates → (calculateSimilarity target c == 0)%Q
    | Some t =>
        ∃ pre post,
          candidates = pre ++ t :: post
          ∧ bm_rating best = calculateSimilarity target t
          ∧ (0 < bm_rating best)%Q
          ∧ ∀ c, c ∈ pre → (calculateSimilarity target c < bm_rating best)%Q
    end.
Proof.
  cbv zeta. destruct (findBestMatch_invariant target candidates)
    as [Hall Hbest].
  split; [done|].
  destruct (bm_target (findBestMatch target candidates)); [done|].
  split; [done|]. intros c Hc. apply Qle_antisym.
  - rewrite <- Hbest. by apply Hall.
  - apply calculateSimilarity_bounds.
Qed.

End BestMatchFacts.

Section ResolverFacts.
Implicit Types (env : Env) (w : World) (categories : list Category).


(** X6.  The category list is requested at most once per call, and no
    more once a request has succeeded: a successful call leaves the map
    in the cache, and every later call returns it without a request and
    without any effect.  A failed request leaves the cache empty, so the
    next call asks again. *)
Theorem getCategoriesMap_cached env w :
  match getCategoriesMap env w with
  | (Ok map, w') =>
      categoriesCache w' = Some map
      ∧ clock w' ≤ clock w + 1
      ∧ ∀ env', getCategoriesMap env' w' = (Ok map, w')
  | (Throw error, w') =>
      categoriesCache w = None ∧ categoriesCache w' = None
      ∧ clock w' = clock w + 1
  end.
Proof.
  unfold getCategoriesMap at 1. unfold bind at 1, getWorld at 1.
  destruct (categoriesCache w) as [cache|] eqn:Hcache.
  - unfold ret. split; [done|]. split; [lia|]. intros env'.
    unfold getCategoriesMap. munfold. by rewrite Hcache.
  - unfold tryCatch, bind at 1. rewrite external_run.
    destruct (http_get_categories env (clock w)) as [categories|error].
    + munfold. simpl. split; [done|]. split; [lia|]. intros env'.
      unfold getCategoriesMap. by munfold.
    + unfold throw. simpl. split; [done|]. split; [done|lia].
Qed.


End ResolverFacts.



(* ================================================================= *)
(** ** categorize.js: sanitized payees and the memory keys *)

Section TrimFacts.
Implicit Types (s : string) (c : ascii).

Lemma removeChars_id p s :
  (∀ c, Js.occurs c s → p c = false) → Js.removeChars p s = s.
Proof.
  induction s as [|c s IH]; [done|]. intros Hclean. simpl.
  rewrite (Hclean c) by (apply occurs_cons; by left).
  rewrite IH; [done|]. intros c' Hc'. apply Hclean, occurs_cons. by right.
Qed.

Lemma removeChars_all p s :
  (∀ c, Js.occurs c s → p c = true) → Js.removeChars p s = "".
Proof.
  induction s as [|c s IH]; [done|]. intros Hall. simpl.
  rewrite (Hall c) by (apply occurs_cons; by left).
  apply IH. intros c' Hc'. apply Hall, occurs_cons. by right.
Qed.

Lemma substring0_id s n : String.length s ≤ n → Js.substring0 s n = s.
Proof.
  unfold Js.substring0. revert n.
  induction s as [|c s IH]; intros [|n] Hlen; simpl in *; try done; try lia.
  rewrite IH; [done|lia].
Qed.

Lemma trimEnd_cons c s :
  Js.trimEnd (String c s)
  = match Js.trimEnd s with
    | EmptyString => if Js.isWhiteSpace c then EmptyString
                     else String c EmptyString
    | r' => String c r'
    end.
Proof. done. Qed.

Lemma trimEnd_idempotent s : Js.trimEnd (Js.trimEnd s) = Js.trimEnd s.
Proof.
  induction s as [|c s IH]; [done|]. rewrite trimEnd_cons.
  destruct (Js.trimEnd s) as [|c' s'] eqn:Hend.
  - destruct (Js.isWhiteSpace c) eqn:Hc; [done|].
    rewrite trimEnd_cons. simpl. by rewrite Hc.
  - by rewrite trimEnd_cons, IH.
Qed.

Lemma trimStart_head s c r :
  Js.trimStart s = String c r → Js.isWhiteSpace c = false.
Proof.
  induction s as [|c' s IH]; [done|]. simpl.
  destruct (Js.isWhiteSpace c') eqn:Hc'; [done|]. by intros [= <- <-].
Qed.

Lemma trimStart_whitespace s :
  (∀ c, Js.occurs c s → Js.isWhiteSpace c = true) → Js.trimStart s = "".
Proof.
  induction s as [|c s IH]; [done|]. intros Hall. simpl.
  rewrite (Hall c) by (apply occurs_cons; by left).
  apply IH. intros c' Hc'. apply Hall, occurs_cons. by right.
Qed.

Lemma trim_idempotent s : Js.trim (Js.trim s) = Js.trim s.
Proof.
  unfold Js.trim.
  destruct (Js.trimStart s) as [|c r] eqn:Hstart; [done|].
  apply trimStart_head in Hstart.
  assert (∃ r', Js.trimEnd (String c r) = String c r') as [r' Hend].
  { simpl. destruct (Js.trimEnd r); [|by eexists].
    rewrite Hstart. by eexists. }
  rewrite Hend. cbn [Js.trimStart]. rewrite Hstart, <- Hend.
  apply trimEnd_idempotent.
Qed.

(** X8.  On a payee that, once the six characters are removed and the
    ends trimmed, has at most 255 characters, [sanitizePayee] is
    idempotent: sanitizing a sanitized payee changes nothing. *)
Theorem sanitizePayee_idempotent payee :
  String.length (Js.trim (Js.removeChars dangerous payee)) ≤ 255 →
  sanitizePayee (sanitizePayee payee) = sanitizePayee payee.
Proof.
  intros Hlen.
  assert (sanitizePayee payee
          = Js.trim (Js.removeChars dangerous payee)) as Hshort.
  { unfold sanitizePayee. destruct (Js.truthy payee) eqn:Hp; simpl.
    - by apply substring0_id.
    - apply truthy_false in Hp. by subst. }
  destruct (decide (sanitizePayee payee = "")) as [Hempty|Hne].
  { by rewrite Hempty. }
  unfold sanitizePayee at 1. rewrite (proj2 (truthy_true _) Hne). simpl.
  rewrite removeChars_id by apply sanitizePayee_clean.
  rewrite Hshort, trim_idempotent. by apply substring0_id.
Qed.

End TrimFacts.

Lemma sanitizePayee_idempotent_witness :
  sanitizePayee (sanitizePayee "  <b>Cafe 'Central'</b> ")
  = sanitizePayee "  <b>Cafe 'Central'</b> ".
Proof.
  apply (sanitizePayee_idempotent "  <b>Cafe 'Central'</b> ").
  vm_compute. lia.
Defined.

Section MemoryKeys.
Implicit Types (env : Env) (w : World) (memory : JsObject string).

Lemma sanitizePayee_sanitized payee : sanitizedKey (sanitizePayee payee).
Proof. split; [apply sanitizePayee_length|apply sanitizePayee_clean]. Qed.

(** What step 4 leaves behind, whatever it is given. *)
Lemma learnMatch_cases env sp memory categoryName matchSource w :
  ∃ w',
    learnMatch env sp memory categoryName matchSource w = (Ok tt, w')
    ∧ categoriesCache w' = categoriesCache w
    ∧ ((memoryCache w' = memoryCache w ∧ memoryFile w' = memoryFile w)
       ∨ ∃ name,
           memoryCache w' = Some (obj_set memory sp name)
           ∧ (memoryFile w' = memoryFile w
              ∨ memoryFile w'
                = FileObject (Object_entries (obj_set memory sp name)))).
Proof.
  unfold learnMatch, saveMemory. munfold.
  destruct (_ && _); [|eauto 6].
  destruct (_ || _); [|eauto 6]. simpl.
  destruct (fs_write_ok env (clock w)); simpl; eauto 10.
Qed.

(** X9.  [assignCategoryId] keeps the keys of the memory sanitized: if
    every key of the memory the program sees, and every key of the
    memory file, has at most 255 characters and none of the six removed
    characters, the same holds after the call, whatever it has learnt. *)
Theorem assignCategoryId_keys_sanitized env payee categoryRules w :
  Forall sanitizedKey (currentMemory w).*1 →
  Forall sanitizedKey (fileMemory (memoryFile w)).*1 →
  let w' := (assignCategoryId env payee categoryRules w).2 in
  Forall sanitizedKey (currentMemory w').*1
  ∧ Forall sanitizedKey (fileMemory (memoryFile w')).*1.
Proof.
  intros Hcache Hfile. cbv zeta.
  destruct categoryRules as [rules|]; cycle 1.
  { destruct (assignCategoryId_null_rules env payee w) as [-> ->]. done. }
  destruct (decide (sanitizePayee payee = "")) as [Hsp|Hsp].
  { by rewrite assignCategoryId_empty. }
  rewrite assignCategoryId_run by done. cbv zeta. unfold bind.
  destruct (learnMatch_cases env (sanitizePayee payee) (currentMemory w)
              (matchCategory (sanitizePayee payee) rules (currentMemory w)).1
              (matchCategory (sanitizePayee payee) rules (currentMemory w)).2
              (loadMemoryOnce w).2) as (w1 & -> & _ & Hlearn).
  destruct (lookUpCategory _ _ _) as [r w'] eqn:Hlook.
  apply lookUpCategory_frame in Hlook as (Hc & Hf & _). simpl.
  unfold currentMemory at 1. rewrite Hc, Hf.
  rewrite loadMemoryOnce_run in Hlearn. simpl in Hlearn.
  destruct Hlearn as [[-> ->]|(name & -> & Hsaved)]; [done|].
  assert (Forall sanitizedKey
            (obj_set (currentMemory w) (sanitizePayee payee) name).*1)
    as Hkeys.
  { rewrite obj_set_keys. destruct (decide _); [done|].
    apply Forall_app. split; [done|].
    apply Forall_singleton, sanitizePayee_sanitized. }
  split; [done|].
  destruct Hsaved as [-> | ->]; [done|]. simpl.
  by rewrite (Object_entries_perm _).
Qed.


(** X11.  A payee made only of white space and of the six removed
    characters is not categorized: the call returns [null] and has no
    effect at all, it does not even read the memory, and it does so
    also when the rules are [null]. *)
Theorem assignCategoryId_blank env payee categoryRules w :
  (∀ c, Js.occurs c payee → dangerous c = true ∨ Js.isWhiteSpace c = true) →
  assignCategoryId env payee categoryRules w = (Ok None, w).
Proof.
  intros Hblank. apply assignCategoryId_empty.
  unfold sanitizePayee. destruct (negb _); [done|].
  assert (Js.trimStart (Js.removeChars dangerous payee) = "") as Hstart.
  { apply trimStart_whitespace. intros c Hc.
    apply occurs_removeChars in Hc as [Hsafe Hc].
    destruct (Hblank c Hc); congruence. }
  unfold Js.trim. by rewrite Hstart.
Qed.

End MemoryKeys.

Lemma assignCategoryId_keys_sanitized_witness :
  Forall sanitizedKey
    (currentMemory
       (assignCategoryId demoEnv "Cafe <Central> 12" (Some [])
          (freshWorld (FileObject [("cafe central", "Coffee")]))).2).*1.
Proof.
  apply (assignCategoryId_keys_sanitized demoEnv "Cafe <Central> 12" (Some [])
           (freshWorld (FileObject [("cafe central", "Coffee")]))).
  - apply Forall_singleton. split; [simpl; lia|].
    intros c Hc. unfold Js.occurs in Hc. simpl in Hc.
    repeat (apply elem_of_cons in Hc as [->|Hc]; [by vm_compute|]).
    by apply elem_of_nil in Hc.
  - apply Forall_singleton. split; [simpl; lia|].
    intros c Hc. unfold Js.occurs in Hc. simpl in Hc.
    repeat (apply elem_of_cons in Hc as [->|Hc]; [by vm_compute|]).
    by apply elem_of_nil in Hc.
Defined.

Lemma assignCategoryId_blank_witness :
  assignCategoryId offlineEnv " </> " None (freshWorld FileCorrupt)
  = (Ok None, freshWorld FileCorrupt).
Proof.
  apply (assignCategoryId_blank offlineEnv " </> " None (freshWorld FileCorrupt)).
  intros c Hc. unfold Js.occurs in Hc. simpl in Hc.
  repeat (apply elem_of_cons in Hc as [->|Hc];
          [first [by left; vm_compute | by right; vm_compute]|]).
  by apply elem_of_nil in Hc.
Defined.


(* ================================================================= *)
(** ** sync.js: what a run leaves behind *)

Section KeepsMemory.

Lemma keeps_ret {A} (a : A) : keepsMemory (ret a).
Proof. by intros w r w' [= <- <-]. Qed.

Lemma keeps_throw {A} e : keepsMemory (throw (A := A) e).
Proof. by intros w r w' [= <- <-]. Qed.

Lemma keeps_log ev : keepsMemory (log ev).
Proof. by intros w r w' [= <- <-]. Qed.

Lemma keeps_external {A} (oracle : nat → Result A) :
  keepsMemory (external oracle).
Proof. intros w r w'. rewrite external_run. by intros [= <- <-]. Qed.

Lemma keeps_bind {A B} (c : M A) (k : A → M B) :
  keepsMemory c → (∀ a, keepsMemory (k a)) → keepsMemory (bind c k).
Proof.
  intros Hc Hk w r w'. unfold bind.
  destruct (c w) as [[a|e] w1] eqn:Hrun; apply Hc in Hrun as (<- & <- & <-).
  - apply Hk.
  - by intros [= <- <-].
Qed.

Lemma keeps_tryCatch {A} (c : M A) (h : JsError → M A) :
  keepsMemory c → (∀ e, keepsMemory (h e)) → keepsMemory (tryCatch c h).
Proof.
  intros Hc Hh w r w'. unfold tryCatch.
  destruct (c w) as [[a|e] w1] eqn:Hrun; apply Hc in Hrun as (<- & <- & <-).
  - by intros [= <- <-].
  - apply Hh.
Qed.

Lemma keeps_forEachM {S A} (body : S → A → M S) (l : list A) :
  (∀ s x, keepsMemory (body s x)) → ∀ s, keepsMemory (forEachM body s l).
Proof.
  intros Hbody. induction l as [|x l IH]; intros s; simpl.
  - apply keeps_ret.
  - apply keeps_bind; [apply Hbody|apply IH].
Qed.

Lemma keeps_withRetryFrom {A} (fn : M A) shouldRetry attempt retriesLeft :
  keepsMemory fn →
  keepsMemory (withRetryFrom fn shouldRetry attempt retriesLeft).
Proof.
  intros Hfn. revert attempt.
  induction retriesLeft as [|n IH]; intros attempt; simpl.
  - apply keeps_tryCatch; [done|]. intros e. apply keeps_throw.
  - apply keeps_tryCatch; [done|]. intros e.
    destruct (match shouldRetry with Some _ => _ | None => _ end);
      [apply keeps_throw|].
    apply keeps_bind; [apply keeps_log|]. intros _. apply IH.
Qed.

Lemma keeps_withRetry {A} (fn : M A) maxRetries shouldRetry :
  keepsMemory fn → keepsMemory (withRetry fn maxRetries shouldRetry).
Proof. apply keeps_withRetryFrom. Qed.

End KeepsMemory.

Ltac keeps_step :=
  first
    [ apply keeps_ret | apply keeps_throw | apply keeps_external
    | apply keeps_log
    | apply keeps_bind; [|intros ?]
    | apply keeps_tryCatch; [|intros ?]
    | apply keeps_withRetry
    | apply keeps_forEachM; intros ? ?
    | match goal with
      | |- keepsMemory (if ?b then _ else _) => destruct b
      | |- keepsMemory (match ?x with _ => _ end) => destruct x
      | |- keepsMemory (let '(_, _) := ?x in _) => destruct x
      end ].

Section SyncRuns.
Context {num : Type} `{JsNumber num} `{Sha256}.
Implicit Types (st : LoopState num) (config : Config) (env : SyncEnv num).

Lemma sync_parts env config dryRun w :
  sync env config dryRun w
  = (let! candidates := syncCandidates env config in
     match candidates with
     | None => ret None
     | Some (movements, st) => syncSummary env dryRun movements st
     end) w.
Proof.
  unfold sync, syncCandidates, syncSummary, bind, log, ret.
  match goal with
  | |- context [match ?c w with _ => _ end] =>
      destruct (c w) as [[movements|e] w1]; [|done]
  end.
  destruct (Nat.eqb (List.length movements) 0); [done|].
  match goal with
  | |- context [tryCatch ?c ?h ?w0] =>
      destruct (tryCatch c h w0) as [[[existing|]|e] w2]; [|done|done]
  end.
  destruct (collectExisting existing) as [fingerprints simpleKeys].
  match goal with
  | |- context [processMovements ?e0 ?c ?s ?ms ?w0] =>
      destruct (processMovements e0 c s ms w0) as [[st|err] w3]; [|done]
  end.
  done.
Qed.

Lemma keeps_insertBatch env nbatches acc ib :
  keepsMemory (insertBatch env nbatches acc ib).
Proof. unfold insertBatch. repeat keeps_step. Qed.

Lemma keeps_syncSummary env dryRun movements st :
  keepsMemory (syncSummary env dryRun movements st).
Proof.
  unfold syncSummary.
  repeat first [apply keeps_insertBatch | keeps_step].
Qed.

(** The loop over the batches accounts for every transaction: inserted,
    or part of a failed batch. *)
Lemma insertBatches_account env nbatches
    (batches : list (nat * list Transaction)) acc w r w' :
  forEachM (insertBatch env nbatches) acc batches w = (r, w') →
  ∃ total errs,
    r = Ok (total, errs)
    ∧ total + failedSize errs
      = acc.1 + failedSize acc.2 + List.length (List.concat batches.*2).
Proof.
  revert acc w. induction batches as [|[i batch] rest IH];
    intros [totalInserted insertionErrors] w; cbn [forEachM].
  - intros [= <- <-]. eexists _, _. split; [done|]. simpl. lia.
  - unfold bind at 1, insertBatch at 1.
    unfold bind at 1, log at 1, tryCatch at 1, bind at 1.
    match goal with
    | |- context [withRetry ?fn ?n ?p ?w0] =>
        destruct (withRetry fn n p w0) as [[[]|err] w1]
    end.
    + munfold. intros Hrest. apply IH in Hrest as (total & errs & -> & Hsum).
      eexists _, _. split; [done|]. rewrite Hsum. cbn [fst snd].
      change (List.concat ((i, batch) :: rest).*2)
        with (batch ++ List.concat rest.*2).
      rewrite length_app. lia.
    + munfold. intros Hrest. apply IH in Hrest as (total & errs & -> & Hsum).
      eexists _, _. split; [done|]. rewrite Hsum. cbn [fst snd].
      change (List.concat ((i, batch) :: rest).*2)
        with (batch ++ List.concat rest.*2).
      unfold failedSize. rewrite sum_list_with_app, length_app.
      cbn [sum_list_with batchSize]. lia.
Qed.

Lemma imap_pair_snd {A} (l : list A) :
  (imap (λ i x, (i, x)) l).*2 = l.
Proof.
  assert (∀ (f : nat → nat), (imap (λ i x, (f i, x)) l).*2 = l) as Hgen.
  { induction l as [|x l IH]; intros f; [done|]. simpl. f_equal.
    apply (IH (f ∘ S)). }
  apply (Hgen id).
Qed.

(** With a currency configured the transformation never fails. *)
Lemma processMovements_transformed (env0 : Env) config cur movements st w :
  currency config = Some cur →
  transformationErrors (processingErrors
                          (match (processMovements env0 config st movements w).1
                           with Ok st' => st' | Throw _ => st end))
  = transformationErrors (processingErrors st).
Proof.
  intros Hcur. revert st w.
  induction movements as [|m rest IH]; intros st w; [done|].
  destruct (isDuplicate st m) eqn:Hdup.
  - destruct (processMovement_duplicate env0 config st m w Hdup)
      as [w1 Hstep].
    rewrite (processMovements_cons _ _ _ _ _ _ _ _ Hstep).
    match goal with
    | |- context [processMovements env0 config ?s rest w1] =>
        pose proof (IH s w1) as Hrest;
        destruct (processMovements_total env0 config rest s w1)
          as (st' & w' & Hrun & _)
    end.
    rewrite Hrun in *. by simpl in *.
  - destruct (processMovement_new env0 config st m w Hdup) as [w1 Hstep].
    rewrite (processMovements_cons _ _ _ _ _ _ _ _ Hstep).
    match goal with
    | |- context [processMovements env0 config ?s rest w1] =>
        pose proof (IH s w1) as Hrest;
        destruct (processMovements_total env0 config rest s w1)
          as (st' & w' & Hrun & _)
    end.
    rewrite Hrun in *. simpl in *. rewrite Hrest, Hcur. simpl.
    apply categorized_errors.
Qed.

End SyncRuns.


Section SyncTheorems.
Context {num : Type} `{JsNumber num} `{Sha256}.
Implicit Types (st : LoopState num) (config : Config) (env : SyncEnv num).

(** The first part of [sync]: it never throws; when it ends before the
    loop it has left the memory alone and has said why; when it ends
    after the loop every movement is in one of the three lists. *)
Lemma syncCandidates_run env config w r w1 :
  syncCandidates env config w = (r, w1) →
  ∃ candidates,
    r = Ok candidates
    ∧ (candidates = None →
       (memoryCache w1 = memoryCache w ∧ memoryFile w1 = memoryFile w
        ∧ categoriesCache w1 = categoriesCache w)
       ∧ (LogNoTransactions ∈ console w1
          ∨ ∃ message, LogExistingFetchError message ∈ console w1))
    ∧ ∀ movements st,
        candidates = Some (movements, st) →
        movements ≠ []
        ∧ List.length (newTransactions st)
          + List.length (skippedDuplicates st)
          + List.length (transformationErrors (processingErrors st))
          = List.length movements
        ∧ (∀ cur, currency config = Some cur →
           transformationErrors (processingErrors st) = []).
Proof.
  unfold syncCandidates. intros Hrun. unfold bind at 1 in Hrun.
  match type of Hrun with
  | (let (_, _) := ?c ?w0 in _) = _ =>
      destruct (c w0) as [r0 w0'] eqn:Hc1;
      assert (keepsMemory c) as Hk1 by (repeat keeps_step)
  end.
  pose proof (Hk1 _ _ _ Hc1) as (Hm1 & Hf1 & Hcc1).
  apply safe_fetchMovements in Hc1 as [[movements ->] _].
  destruct (Nat.eqb (List.length movements) 0) eqn:Hlen.
  { munfold. injection Hrun as <- <-. exists None. split; [done|]. split.
    - intros _. simpl. split; [done|]. left.
      apply elem_of_app. right. by apply list_elem_of_singleton.
    - by intros ? ? [=]. }
  unfold bind at 1, log at 1 in Hrun. unfold bind at 1 in Hrun.
  match type of Hrun with
  | (let (_, _) := ?c ?w0 in _) = _ =>
      destruct (c w0) as [r0 w2] eqn:Hc2;
      assert (keepsMemory c) as Hk2 by (repeat keeps_step);
      assert (emits (λ _, True) c) as He2
        by (repeat first [apply emits_log; done
                         | apply emits_withRetry; [|done]
                         | emits_step])
  end.
  pose proof (Hk2 _ _ _ Hc2) as (Hm2 & Hf2 & Hcc2). simpl in Hm2, Hf2, Hcc2.
  pose proof Hc2 as Hc2'.
  apply safe_fetchExisting in Hc2 as [[fetched ->] _].
  destruct fetched as [existing|]; cycle 1.
  { munfold. injection Hrun as <- <-. exists None. split; [done|]. split.
    - intros _. split; [by rewrite Hm2, Hf2, Hcc2|]. right.
      revert Hc2'. unfold tryCatch, bind at 1.
      match goal with
      | |- context [withRetry ?fn ?n ?p ?w0] =>
          destruct (withRetry fn n p w0) as [[existing|err] w2'];
          [by munfold|]
      end.
      munfold. intros [= <-]. exists (err_message err). simpl.
      apply elem_of_app. right. by apply list_elem_of_singleton.
    - by intros ? ? [=]. }
  unfold bind at 1, log at 1 in Hrun.
  destruct (collectExisting existing) as [fingerprints simpleKeys].
  unfold bind at 1 in Hrun.
  match type of Hrun with
  | context [processMovements ?e0 ?c ?s ?ms ?w0] =>
      destruct (processMovements_total e0 c ms s w0)
        as (st & w3 & Hloop & Hcount);
      pose proof (λ cur Hcur,
                  processMovements_transformed e0 c cur ms s w0 Hcur) as Hnone
  end.
  rewrite Hloop in Hrun, Hnone. munfold. injection Hrun as <- <-.
  exists (Some (movements, st)). split; [done|]. split; [done|].
  intros ? ? [= <- <-]. simpl in Hcount. split; [|split].
  - intros ->. done.
  - lia.
  - intros cur Hcur. by apply Hnone in Hcur.
Qed.

Lemma syncCandidates_post env config post :
  syncCandidates (withPost env post) config = syncCandidates env config.
Proof. done. Qed.

(** The second part of [sync]: it always returns a summary, which
    accounts for every new transaction. *)
Lemma syncSummary_run env dryRun movements st w :
  ∃ s w',
    syncSummary env dryRun movements st w = (Ok (Some s), w')
    ∧ sum_processed s = List.length movements
    ∧ sum_skipped s = List.length (skippedDuplicates st)
    ∧ sum_inserted s + failedSize (default [] (sum_insertionErrors s))
      = List.length (newTransactions st)
    ∧ (dryRun = true → sum_insertionErrors s = None)
    ∧ ∀ n, sum_batches s = Some n →
           n = (List.length (newTransactions st) + 49) / 50.
Proof.
  unfold syncSummary. unfold bind at 1, log at 1.
  destruct (Nat.eqb (List.length (newTransactions st)) 0) eqn:Hnew.
  { munfold. eexists _, _. split; [done|]. apply Nat.eqb_eq in Hnew.
    cbn [sum_processed sum_skipped sum_inserted sum_insertionErrors
         sum_batches default from_option id failedSize sum_list_with].
    repeat split; try done; try lia. }
  destruct dryRun.
  { unfold bind at 1, log at 1. unfold bind at 1.
    match goal with
    | |- context [forEachM ?b tt ?l ?w0] =>
        destruct (forEachM b tt l w0) as [r2 w2] eqn:Hlog;
        apply safe_dryRunLog in Hlog as [[u ->] _]
    end.
    munfold. eexists _, _. split; [done|].
    cbn [sum_processed sum_skipped sum_inserted sum_insertionErrors
         sum_batches default from_option id failedSize sum_list_with].
    repeat split; try done; try lia. }
  cbv zeta. unfold bind at 1.
  match goal with
  | |- context [forEachM (insertBatch ?e0 ?n) ?acc ?l ?w0] =>
      destruct (forEachM (insertBatch e0 n) acc l w0) as [r3 w3] eqn:Hinsert
  end.
  apply insertBatches_account in Hinsert as (total & errs & -> & Hsum).
  rewrite imap_pair_snd in Hsum. unfold batchArray in Hsum at 1.
  rewrite (batchLoop_concat _ _ 50) in Hsum by lia.
  cbn [fst snd failedSize sum_list_with] in Hsum.
  munfold. eexists _, _. split; [done|].
  cbn [sum_processed sum_skipped sum_inserted sum_insertionErrors
       sum_batches default from_option id].
  split; [done|]. split; [done|]. split; [unfold failedSize in *; lia|].
  split; [done|]. intros n [= <-].
  rewrite batchArray_length by lia. f_equal. lia.
Qed.

(** X12.  The summary of a run accounts for every fetched movement: with
    a currency configured, [processed] is the sum of [skipped], of
    [inserted] and of the sizes of the batches that failed to insert; a
    summary is only returned for at least one movement; and the number
    of batches is the number of transactions to insert divided by 50,
    rounded up. *)
Theorem sync_accounts_for_every_movement env config dryRun cur w s w' :
  currency config = Some cur →
  sync env config dryRun w = (Ok (Some s), w') →
  let failed := failedSize (default [] (sum_insertionErrors s)) in
  sum_processed s = sum_skipped s + sum_inserted s + failed
  ∧ 0 < sum_processed s
  ∧ ∀ n, sum_batches s = Some n → n = (sum_inserted s + failed + 49) / 50.
Proof.
  intros Hcur Hrun. rewrite sync_parts in Hrun. unfold bind at 1 in Hrun.
  destruct (syncCandidates env config w) as [r1 w1] eqn:Hfirst.
  apply syncCandidates_run in Hfirst as (candidates & -> & _ & Hsome).
  destruct candidates as [[movements st]|]; [|by munfold].
  destruct (Hsome movements st eq_refl) as (Hne & Hcount & Hnone).
  rewrite (Hnone cur Hcur) in Hcount. simpl in Hcount.
  assert (0 < List.length movements) as Hpos.
  { destruct movements; [done|simpl; lia]. }
  destruct (syncSummary_run env dryRun movements st w1)
    as (s' & w2 & Hsummary & Hp & Hs & Hi & _ & Hb).
  rewrite Hsummary in Hrun. injection Hrun as -> ->. cbv zeta.
  split; [lia|]. split; [lia|]. intros n Hn. rewrite Hi. by apply Hb.
Qed.

(** X13.  A dry run differs from a real run in the insertion only.  It
    leaves the memory, the memory file and the cache of categories
    exactly as the real run does: it learns and saves as much.  What the
    insertion endpoint would answer has no influence on it.  It returns
    a summary when the real run does, with the same [processed] and
    [skipped], and its [inserted] is the number of transactions the real
    run submits, inserted or not. *)
Theorem dry_run_skips_insertion_only env config w :
  let dry := sync env config true w in
  let real := sync env config false w in
  (memoryCache dry.2 = memoryCache real.2
   ∧ memoryFile dry.2 = memoryFile real.2
   ∧ categoriesCache dry.2 = categoriesCache real.2)
  ∧ (∀ post, sync (withPost env post) config true w = dry)
  ∧ (dry.1 = Ok None ↔ real.1 = Ok None)
  ∧ ∀ sd, dry.1 = Ok (Some sd) →
      ∃ sr, real.1 = Ok (Some sr)
            ∧ sum_processed sd = sum_processed sr
            ∧ sum_skipped sd = sum_skipped sr
            ∧ sum_inserted sd
              = sum_inserted sr
                + failedSize (default [] (sum_insertionErrors sr)).
Proof.
  cbv zeta. split; [|split; [done|]].
  - rewrite !sync_parts. unfold bind.
    destruct (syncCandidates env config w) as [[[[movements st]|]|e] w1];
      [|done|done].
    destruct (syncSummary env true movements st w1) as [rd wd] eqn:Hdry.
    destruct (syncSummary env false movements st w1) as [rr wr] eqn:Hreal.
    simpl.
    apply keeps_syncSummary in Hdry as (-> & -> & ->).
    by apply keeps_syncSummary in Hreal as (-> & -> & ->).
  - rewrite !sync_parts. unfold bind.
    destruct (syncCandidates env config w) as [[[[movements st]|]|e] w1];
      [|done|by split].
    destruct (syncSummary_run env true movements st w1)
      as (sd & wd & -> & Hpd & Hsd & Hid & Hnone & _).
    destruct (syncSummary_run env false movements st w1)
      as (sr & wr & -> & Hpr & Hsr & Hir & _ & _).
    simpl. split; [done|]. intros ? [= <-]. exists sr.
    rewrite (Hnone eq_refl) in Hid.
    cbn [default from_option id failedSize sum_list_with] in Hid.
    split; [done|]. unfold failedSize in *. lia.
Qed.

(** X14.  A run that returns no summary has changed neither the memory,
    nor the memory file, nor the cache of categories, and the insertion
    endpoint plays no part in it; it has said on the console either that
    there are no transactions or that the existing transactions could
    not be fetched. *)
Theorem sync_without_summary env config dryRun w w' :
  sync env config dryRun w = (Ok None, w') →
  (memoryCache w' = memoryCache w ∧ memoryFile w' = memoryFile w
   ∧ categoriesCache w' = categoriesCache w)
  ∧ (LogNoTransactions ∈ console w'
     ∨ ∃ message, LogExistingFetchError message ∈ console w')
  ∧ ∀ post dryRun',
      sync (withPost env post) config dryRun' w = (Ok None, w').
Proof.
  intros Hrun. rewrite sync_parts in Hrun. unfold bind at 1 in Hrun.
  destruct (syncCandidates env config w) as [r1 w1] eqn:Hfirst.
  pose proof Hfirst as Hfirst'.
  apply syncCandidates_run in Hfirst as (candidates & -> & Hnone & _).
  destruct candidates as [[movements st]|].
  - destruct (syncSummary_run env dryRun movements st w1)
      as (s & w2 & Hsummary & _).
    by rewrite Hsummary in Hrun.
  - munfold. injection Hrun as <-. destruct (Hnone eq_refl) as [Hkeep Hwhy].
    split; [done|]. split; [done|]. intros post dryRun'.
    rewrite sync_parts. unfold bind.
    by rewrite syncCandidates_post, Hfirst'.
Qed.

End SyncTheorems.


Lemma sync_accounts_for_every_movement_witness :
  ∃ s,
    (sync (H0 := plainDigest)
       (demoSyncEnv [coffee; coffeeAgain; lunch] []
          (λ _, Throw (mkError "Bad Request" (Some 400))))
       (demoConfig (Some [])) false (freshWorld FileAbsent)).1
    = Ok (Some s)
    ∧ sum_processed s = 3 ∧ sum_skipped s = 1 ∧ sum_inserted s = 0
    ∧ sum_processed s
      = sum_skipped s + sum_inserted s
        + failedSize (default [] (sum_insertionErrors s)).
Proof.
  destruct (sync (H0 := plainDigest)
              (demoSyncEnv [coffee; coffeeAgain; lunch] []
                 (λ _, Throw (mkError "Bad Request" (Some 400))))
              (demoConfig (Some [])) false (freshWorld FileAbsent))
    as [r w'] eqn:Hrun.
  assert (∃ s, r = Ok (Some s) ∧ sum_processed s = 3 ∧ sum_skipped s = 1
               ∧ sum_inserted s = 0) as (s & -> & Hp & Hs & Hi).
  { vm_compute in Hrun. injection Hrun as <- _. eexists. by split. }
  exists s. split; [done|]. split; [done|]. split; [done|]. split; [done|].
  apply (sync_accounts_for_every_movement (H0 := plainDigest)
           (demoSyncEnv [coffee; coffeeAgain; lunch] []
              (λ _, Throw (mkError "Bad Request" (Some 400))))
           (demoConfig (Some [])) false "CLP" (freshWorld FileAbsent) s w'
           eq_refl Hrun).
Defined.

Lemma sync_without_summary_witness :
  memoryFile
    (sync (H0 := plainDigest) (demoSyncEnv [coffee] [] (λ _, Ok tt))
       (mkConfig "token" 7 (Some []) (Some "CLP") None None None None "me")
       false (freshWorld (FileObject [("cafe", "Coffee")]))).2
  = FileObject [("cafe", "Coffee")].
Proof.
  destruct (sync (H0 := plainDigest) (demoSyncEnv [coffee] [] (λ _, Ok tt))
              (mkConfig "token" 7 (Some []) (Some "CLP") None None None None
                 "me")
              false (freshWorld (FileObject [("cafe", "Coffee")])))
    as [r w'] eqn:Hrun.
  assert (r = Ok None) as ->.
  { vm_compute in Hrun. by injection Hrun as <- _. }
  apply (sync_without_summary (H0 := plainDigest)) in Hrun
    as [(_ & Hfile & _) _].
  exact Hfile.
Defined.


(* ================================================================= *)
(** ** memory.js: what is saved is what is loaded *)

Section EntriesOrder.
Context {V : Type}.
Implicit Types (o : JsObject V) (l : list (N * (string * V))).

Lemma insertIndexed_sorted (e : N * (string * V)) l :
  Sorted (λ a b : N * (string * V), (a.1 ≤ b.1)%N) l →
  Sorted (λ a b : N * (string * V), (a.1 ≤ b.1)%N) (insertIndexed e l).
Proof.
  induction 1 as [|e' r Hsorted IH Hhd]; simpl.
  - by repeat constructor.
  - destruct (N.leb_spec e.1 e'.1) as [Hle|Hgt].
    + constructor; [by constructor|]. by constructor.
    + constructor; [done|].
      destruct r as [|e'' r]; simpl.
      * constructor. lia.
      * destruct (_ <=? _)%N; constructor; [lia|by inversion Hhd].
Qed.

Lemma indexedEntries_sorted o :
  Sorted (λ a b : N * (string * V), (a.1 ≤ b.1)%N) (indexedEntries o).
Proof.
  induction o as [|[k v] o IH]; simpl; [constructor|].
  destruct (arrayIndex k); [by apply insertIndexed_sorted|done].
Qed.

Lemma indexedEntries_indices o :
  Forall (λ e, arrayIndex e.2.1 = Some e.1) (indexedEntries o).
Proof.
  induction o as [|[k v] o IH]; simpl; [constructor|].
  destruct (arrayIndex k) as [n|] eqn:Hk; [|done].
  rewrite (insertIndexed_perm _ _). by constructor.
Qed.

Lemma indexedEntries_of_sorted l :
  Forall (λ e, arrayIndex e.2.1 = Some e.1) l →
  Sorted (λ a b : N * (string * V), (a.1 ≤ b.1)%N) l →
  indexedEntries (snd <$> l) = l.
Proof.
  intros Hwf Hsorted. induction Hsorted as [|[n [k v]] r Hsorted IH Hhd];
    [done|].
  apply Forall_cons in Hwf as [Hk Hwf]. simpl in Hk.
  cbn [fmap list_fmap snd indexedEntries]. rewrite Hk.
  change (list_fmap _ _ snd r) with (snd <$> r). rewrite IH by done.
  destruct Hhd as [|e' r' Hle]; [done|]. simpl in *.
  by destruct (N.leb_spec n e'.1); [|lia].
Qed.

Lemma indexedEntries_app_named (entries named : JsObject V) :
  Forall (λ e, arrayIndex e.1 = None) named →
  indexedEntries (entries ++ named) = indexedEntries entries.
Proof.
  intros Hnamed. induction entries as [|[k v] entries IH]; simpl.
  - induction Hnamed as [|[k v] named Hk _ IH]; [done|]. simpl in *.
    by rewrite Hk.
  - by rewrite IH.
Qed.

(** Enumerating an object created in enumeration order changes nothing. *)
Lemma Object_entries_idempotent o :
  Object_entries (Object_entries o) = Object_entries o.
Proof.
  unfold Object_entries at 1 3.
  assert (Forall (λ e : string * V, arrayIndex e.1 = None) (namedEntries o))
    as Hnamed.
  { unfold namedEntries. apply Forall_forall. intros e He.
    by apply list_elem_of_filter in He as [? _]. }
  f_equal.
  - f_equal. unfold Object_entries.
    rewrite indexedEntries_app_named by done.
    apply indexedEntries_of_sorted;
      [apply indexedEntries_indices|apply indexedEntries_sorted].
  - unfold Object_entries, namedEntries at 1. rewrite filter_app.
    assert (filter (λ e : string * V, arrayIndex e.1 = None)
              (snd <$> indexedEntries o) = []) as ->.
    { pose proof (indexedEntries_indices o) as Hwf.
      induction Hwf as [|[n [k v]] r Hk _ IH]; [done|].
      cbn [fmap list_fmap snd]. rewrite filter_cons_False; [done|].
      simpl in *. congruence. }
    simpl. unfold namedEntries. apply list_filter_filter_l.
    by intros e He.
Qed.

Lemma Object_entries_lookup o k :
  NoDup o.*1 → obj_get (Object_entries o) k = obj_get o k.
Proof.
  intros Hnodup. destruct (obj_get o k) as [v|] eqn:Hget.
  - apply obj_get_elem_Some; [by apply Object_entries_NoDup|].
    by apply Object_entries_get.
  - apply obj_get_None. apply obj_get_None in Hget.
    by rewrite (Object_entries_perm o).
Qed.

End EntriesOrder.

Section MemoryFile.
Implicit Types (env : Env) (w : World) (memory : JsObject string).

(** X15.  Saving and loading agree.  After a write that succeeds,
    [loadMemory] returns, without a warning, an object with the
    properties of the saved one: every lookup gives the same, and the
    properties are enumerated in the same order.  A write that fails is
    reported on the console and nothing else happens: no error is
    thrown and the file is as it was. *)
Theorem saveMemory_loadMemory env memory w :
  NoDup memory.*1 →
  let saved := saveMemory env memory w in
  saved.1 = Ok tt
  ∧ if fs_write_ok env (clock w)
    then ∃ loaded,
           loadMemory saved.2 = (Ok loaded, saved.2)
           ∧ (∀ k, obj_get loaded k = obj_get memory k)
           ∧ Object_entries loaded = Object_entries memory
    else memoryFile saved.2 = memoryFile w
         ∧ console saved.2 = console w ++ [LogSaveMemoryError].
Proof.
  intros Hnodup. unfold saveMemory. munfold. simpl.
  destruct (fs_write_ok env (clock w)); simpl; [|done].
  split; [done|]. exists (Object_entries memory). unfold loadMemory. munfold.
  simpl. split; [done|]. split; [|apply Object_entries_idempotent].
  intros k. by apply Object_entries_lookup.
Qed.

End MemoryFile.

Lemma saveMemory_loadMemory_witness :
  ∃ loaded,
    loadMemory
      (saveMemory demoEnv [("uber", "Transport"); ("7", "Food")]
         (freshWorld FileAbsent)).2
    = (Ok loaded,
       (saveMemory demoEnv [("uber", "Transport"); ("7", "Food")]
          (freshWorld FileAbsent)).2)
    ∧ obj_get loaded "uber" = Some "Transport".
Proof.
  destruct (saveMemory_loadMemory demoEnv [("uber", "Transport"); ("7", "Food")]
              (freshWorld FileAbsent)) as [_ (loaded & Hload & Hget & _)].
  - apply NoDup_cons. split; [|apply NoDup_singleton].
    intros Hin. apply list_elem_of_singleton in Hin. discriminate.
  - exists loaded. split; [exact Hload|]. by rewrite Hget.
Defined.


(* ================================================================= *)
(** ** learnLunchMoney.js: rebuilding the memory *)

Section Rebuild.
Context {num : Type}.
Implicit Types (env : SyncEnv num) (w : World) (history : list HistoryTx).

(** X16.  When the history is fetched at the first attempt, the rebuild
    returns the learned memory; it does not touch the memory the engine
    has loaded; with [saveToFile] and a write that succeeds the memory
    file holds the learned memory alone, whatever it held before, and
    otherwise the file is as it was.  With [saveToFile] the console
    says that the memory has been saved also when the write has
    failed. *)
Theorem rebuild_replaces_memory_file env startDate saveToFile w history :
  fetchTransactionsForLearning env (clock w) = Ok history →
  ∃ w',
    buildMemoryFromLunchMoney env startDate saveToFile w
    = (Ok (learnFromHistory history), w')
    ∧ memoryCache w' = memoryCache w
    ∧ memoryFile w'
      = (if saveToFile && fs_write_ok env (S (clock w))
         then FileObject (Object_entries (learnFromHistory history))
         else memoryFile w)
    ∧ (saveToFile = true → last (console w') = Some LogMemorySaved).
Proof.
  intros Hfetch. unfold buildMemoryFromLunchMoney.
  unfold bind at 1, log at 1, tryCatch, bind at 1.
  unfold withRetry. cbn [withRetryFrom]. unfold tryCatch at 1.
  rewrite external_run. cbn [clock]. rewrite Hfetch.
  unfold bind at 1, log at 1. unfold bind at 1, log at 1.
  destruct saveToFile; cbn [andb].
  - unfold bind at 1, bind at 1, saveMemory, bind at 1, tick at 1.
    cbn [clock]. destruct (fs_write_ok env (S (clock w))); munfold; simpl.
    + eexists. split; [done|]. split; [done|]. split; [done|].
      intros _. cbn [console]. by rewrite last_snoc.
    + eexists. split; [done|]. split; [done|]. split; [done|].
      intros _. cbn [console]. by rewrite last_snoc.
  - munfold. simpl. eexists. by repeat split.
Qed.

(** X17.  A rebuild that fails throws the error of its last attempt to
    fetch the history, made after at most three retries, reports it on
    the console, and leaves the memory and the memory file as they
    were. *)
Theorem rebuild_failure_leaves_memory env startDate saveToFile w error w' :
  buildMemoryFromLunchMoney env startDate saveToFile w = (Throw error, w') →
  memoryCache w' = memoryCache w ∧ memoryFile w' = memoryFile w
  ∧ last (console w') = Some (LogLearningError (err_message error))
  ∧ ∃ k, k ≤ 3
         ∧ fetchTransactionsForLearning env (clock w + k) = Throw error
         ∧ clock w' = clock w + k + 1.
Proof.
  unfold buildMemoryFromLunchMoney.
  unfold bind at 1, log at 1, tryCatch, bind at 1.
  set (w0 := mkWorld (categoriesCache w) (memoryCache w) (memoryFile w)
               (clock w) (console w ++ [LogLearningFrom startDate])).
  destruct (withRetryFrom_run (fetchTransactionsForLearning env)
              (Some shouldRetryHttpError) 0 3 w0)
    as (k & Hk & _ & _ & Hrun).
  unfold withRetry. rewrite Hrun. cbn [clock w0] in *.
  destruct (fetchTransactionsForLearning env (clock w + k))
    as [history|error'] eqn:Hanswer.
  - unfold bind at 1, log at 1. unfold bind at 1, log at 1.
    destruct saveToFile.
    + unfold bind at 1, bind at 1, saveMemory, bind at 1, tick at 1.
      destruct (fs_write_ok _ _); by munfold.
    + by munfold.
  - munfold. intros [= <- <-]. simpl. split; [done|]. split; [done|].
    split; [by rewrite last_snoc|]. by exists k.
Qed.

End Rebuild.

Section Completeness.
Implicit Types (history : list HistoryTx) (tx : HistoryTx).




End Completeness.

Lemma rebuild_replaces_memory_file_witness :
  ∃ w',
    buildMemoryFromLunchMoney
      (mkSyncEnv Z demoEnv (λ _, Ok []) (λ _, Ok []) (λ _, Ok tt)
         (λ _, Ok [mkHistoryTx "Uber" (Some "Transport");
                   mkHistoryTx "Uber " (Some "Transport")]))
      "2023-01-01" true (freshWorld (FileObject [("old", "Entry")]))
    = (Ok [("Uber", "Transport")], w')
    ∧ memoryFile w' = FileObject [("Uber", "Transport")].
Proof.
  destruct (rebuild_replaces_memory_file
              (mkSyncEnv Z demoEnv (λ _, Ok []) (λ _, Ok []) (λ _, Ok tt)
                 (λ _, Ok [mkHistoryTx "Uber" (Some "Transport");
                           mkHistoryTx "Uber " (Some "Transport")]))
              "2023-01-01" true (freshWorld (FileObject [("old", "Entry")]))
              [mkHistoryTx "Uber" (Some "Transport");
               mkHistoryTx "Uber " (Some "Transport")] eq_refl)
    as (w' & Hrun & _ & Hfile & _).
  exists w'. split; [exact Hrun|]. rewrite Hfile. reflexivity.
Defined.

Lemma rebuild_failure_leaves_memory_witness :
  memoryFile
    (buildMemoryFromLunchMoney
       (mkSyncEnv Z demoEnv (λ _, Ok []) (λ _, Ok []) (λ _, Ok tt)
          (λ _, Throw (mkError "Unauthorized" (Some 401))))
       "2023-01-01" true (freshWorld (FileObject [("old", "Entry")]))).2
  = FileObject [("old", "Entry")].
Proof.
  destruct (buildMemoryFromLunchMoney
              (mkSyncEnv Z demoEnv (λ _, Ok []) (λ _, Ok []) (λ _, Ok tt)
                 (λ _, Throw (mkError "Unauthorized" (Some 401))))
              "2023-01-01" true (freshWorld (FileObject [("old", "Entry")])))
    as [r w'] eqn:Hrun.
  assert (r = Throw (mkError "Unauthorized" (Some 401))) as ->.
  { vm_compute in Hrun. by injection Hrun as <- _. }
  apply rebuild_failure_leaves_memory in Hrun as (_ & Hfile & _).
  exact Hfile.
Defined.



(* ================================================================= *)
(** ** utils.js: the rate limiter and the sanitizing of errors *)

Section RateLimiterFacts.
Import RateLimiter.
Implicit Types (self : RateLimiter.t) (now : Z).
Local Open Scope Z_scope.

Lemma oldest_spec (requests : list Z) o :
  oldest requests = Some o → o ∈ requests ∧ Forall (λ time, o ≤ time) requests.
Proof.
  destruct requests as [|time rest]; [done|]. intros [= <-].
  assert (∀ acc,
            (foldl Z.min acc rest = acc ∨ foldl Z.min acc rest ∈ rest)
            ∧ foldl Z.min acc rest ≤ acc
            ∧ Forall (λ t, foldl Z.min acc rest ≤ t) rest) as Hfold.
  { induction rest as [|t rest IH]; intros acc; simpl.
    - split; [by left|]. split; [lia|constructor].
    - destruct (IH (Z.min acc t)) as (Hin & Hle & Hall).
      split; [|split].
      + destruct Hin as [Heq|Hin]; [|right; by apply list_elem_of_further].
        rewrite Heq. destruct (Z.min_spec acc t) as [[_ ->]|[_ ->]];
          [by left|right; apply list_elem_of_here].
      + lia.
      + constructor; [lia|done]. }
  destruct (Hfold time) as (Hin & Hle & Hall). split.
  - destruct Hin as [->|Hin]; [apply list_elem_of_here|].
    by apply list_elem_of_further.
  - by constructor.
Qed.

(** X19.  After [waitForSlot], called at time [now], the limiter holds
    the earlier requests of the last second, in their order, followed by
    [now]: every recorded time is less than 1000 ms old.  The call is
    recorded also when it has had to wait, so that the limiter then
    holds more than [limit] requests. *)
Theorem waitForSlot_records self now :
  let after := (waitForSlot self now).1 in
  let waited := (waitForSlot self now).2 in
  limit after = limit self
  ∧ requests after
    = filter (λ time, now - time < 1000) (requests self) ++ [now]
  ∧ Forall (λ time, now - time < 1000) (requests after)
  ∧ (is_Some waited ↔ (limit self < List.length (requests after))%nat).
Proof.
  unfold waitForSlot. cbn [fst snd requests limit].
  split; [done|]. split; [done|]. split.
  - apply Forall_app. split.
    + apply Forall_forall. intros time Hin.
      by apply list_elem_of_filter in Hin as [? _].
    + apply Forall_singleton. lia.
  - rewrite length_app. cbn [List.length].
    destruct (Nat.leb_spec (limit self)
                (List.length (filter (λ time, now - time < 1000)
                                (requests self)))) as [Hle|Hgt].
    + split; [intros _; lia|by eauto].
    + split; [by intros [? [=]]|lia].
Qed.

(** X20.  When [waitForSlot] waits with at least one request in the last
    second, the time it waits is positive, and at most 1000 ms if no
    recorded time lies in the future; it is the time after which the
    oldest request of the last second is a full second old. *)
Theorem waitForSlot_wait_time self now ms :
  (waitForSlot self now).2 = Some (Finite ms) →
  0 < ms
  ∧ (Forall (λ time, time ≤ now) (requests self) → ms ≤ 1000)
  ∧ ∃ oldestRequest,
      oldestRequest ∈ requests self
      ∧ now - oldestRequest < 1000
      ∧ Forall (λ time, now - time < 1000 → oldestRequest ≤ time)
          (requests self)
      ∧ (now + ms) - oldestRequest = 1000.
Proof.
  unfold waitForSlot. cbn [snd].
  destruct (Nat.leb _ _); [|done].
  destruct (oldest _) as [o|] eqn:Holdest; [|done].
  intros [= <-]. apply oldest_spec in Holdest as [Hin Hmin].
  apply list_elem_of_filter in Hin as [Hrecent Hin].
  split; [lia|]. split.
  - intros Hpast. rewrite Forall_forall in Hpast. apply Hpast in Hin. lia.
  - exists o. split; [done|]. split; [done|]. split; [|lia].
    apply Forall_forall. intros time Htime Hrecent'.
    rewrite Forall_forall in Hmin. apply Hmin.
    by apply list_elem_of_filter.
Qed.

End RateLimiterFacts.

Lemma waitForSlot_wait_time_witness :
  (RateLimiter.waitForSlot (RateLimiter.mk [100; 400; 900]%Z 2) 1200%Z).2
  = Some (RateLimiter.Finite 200%Z)
  ∧ (0 < 200)%Z.
Proof.
  split; [reflexivity|].
  apply (waitForSlot_wait_time (RateLimiter.mk [100; 400; 900]%Z 2)
           1200%Z 200%Z).
  reflexivity.
Defined.

Section SanitizeErrorFacts.
Context {value : Type} (truthyValue : value → bool) (ofString : string → value).
Implicit Types (context : JsObject value) (k : string).

Lemma redact_get k context k' :
  obj_get (redact truthyValue ofString k context) k'
  = if decide (k' = k)
    then (λ v, if truthyValue v then ofString "[REDACTED]" else v)
           <$> obj_get context k
    else obj_get context k'.
Proof.
  unfold redact. destruct (obj_get context k) as [v|] eqn:Hk.
  - destruct (truthyValue v) eqn:Hv.
    + destruct (decide (k' = k)) as [->|Hne].
      * rewrite obj_get_set_eq. simpl. by rewrite Hv.
      * by rewrite obj_get_set_ne.
    + destruct (decide (k' = k)) as [->|Hne]; [|done].
      rewrite Hk. simpl. by rewrite Hv.
  - destruct (decide (k' = k)) as [->|Hne]; [by rewrite Hk|done].
Qed.

Lemma redact_keys k context :
  (redact truthyValue ofString k context).*1 = context.*1.
Proof.
  unfold redact. destruct (obj_get context k) as [v|] eqn:Hk; [|done].
  destruct (truthyValue v); [|done].
  rewrite obj_set_keys. rewrite decide_True; [done|].
  apply obj_get_Some_elem in Hk. apply list_elem_of_fmap. by exists (k, v).
Qed.

(** X21.  [sanitizeErrorForLogging] replaces by '[REDACTED]' the truthy
    values of the four fields [token], [apiKey], [lunchmoneyToken] and
    [fintocApiKey] of the context, and nothing else: the other fields,
    and these four when their value is falsy, keep their values, and the
    context keeps its fields and their order.  The error message is
    copied as it is. *)
Theorem sanitizeErrorForLogging_redacts error context :
  NoDup context.*1 →
  let sanitized := sanitizeErrorForLogging truthyValue ofString error context in
  se_message sanitized = err_message error
  ∧ Object_keys (se_context sanitized) = Object_keys context
  ∧ ∀ k, obj_get (se_context sanitized) k
         = (λ v, if bool_decide (k ∈ sensitiveFields) && truthyValue v
                 then ofString "[REDACTED]" else v) <$> obj_get context k.
Proof.
  intros Hnodup. unfold sanitizeErrorForLogging. cbn [se_message se_context].
  split; [done|]. split.
  - rewrite Object_keys_keyOrder, !redact_keys.
    rewrite <- Object_keys_keyOrder. unfold Object_keys.
    by rewrite Object_entries_idempotent.
  - intros k. rewrite !redact_get, !Object_entries_lookup by done.
    unfold sensitiveFields.
    repeat case_decide; try discriminate; subst.
    all: destruct (obj_get context _) as [v|]; [|done]; simpl.
    all: try done.
    all: exfalso.
    all: match goal with
         | Hout : _ ∉ _ |- _ =>
             apply Hout;
             repeat first [apply list_elem_of_here | apply list_elem_of_further]
         | Hin : _ ∈ _ |- _ =>
             repeat (apply elem_of_cons in Hin as [?|Hin]; [done|]);
             by apply elem_of_nil in Hin
         end.
Qed.

End SanitizeErrorFacts.

Lemma sanitizeErrorForLogging_redacts_witness :
  obj_get
    (se_context
       (sanitizeErrorForLogging Js.truthy id (mkError "Bad Request" (Some 400))
          [("operation", "fetch"); ("token", "secret"); ("apiKey", "")]))
    "token"
  = Some "[REDACTED]".
Proof.
  destruct (sanitizeErrorForLogging_redacts Js.truthy id
              (mkError "Bad Request" (Some 400))
              [("operation", "fetch"); ("token", "secret"); ("apiKey", "")])
    as (_ & _ & Hget).
  - repeat (apply NoDup_cons; split;
            [intros Hin;
             repeat (apply elem_of_cons in Hin as [?|Hin]; [done|]);
             by apply elem_of_nil in Hin|]).
    apply NoDup_nil_2.
  - rewrite Hget. reflexivity.
Defined.


(* ================================================================= *)
(** ** fetchLM.js: the existing transactions *)

Section FetchLMFacts.
Context {num : Type}.
Variable parseFloat : string → option num.
Variable responseError : JsError → option string.
Variable http_get_transactions : nat → nat → Result FetchLM.Page.
Implicit Types (results : list (ExistingTx num)) (w : World).

Lemma collect_app results transactions :
  FetchLM.collect parseFloat results transactions
  = results ++ FetchLM.collect parseFloat [] transactions.
Proof.
  unfold FetchLM.collect. revert results.
  induction transactions as [|tx transactions IH] using rev_ind;
    intros results; [by rewrite app_nil_r|].
  rewrite !foldl_app. cbn [foldl].
  destruct (parseFloat _); [|done]. by rewrite IH, (assoc_L (++)).
Qed.

Lemma collect_bare results transactions :
  Forall (λ tx, ex_payee tx = None ∧ ex_external_id tx = None
                ∧ ex_id tx = None) results →
  Forall (λ tx, ex_payee tx = None ∧ ex_external_id tx = None
                ∧ ex_id tx = None)
    (FetchLM.collect parseFloat results transactions).
Proof.
  unfold FetchLM.collect. revert results.
  induction transactions as [|tx transactions IH]; intros results Hbare;
    [done|].
  cbn [foldl]. apply IH. destruct (parseFloat _); [|done].
  apply Forall_app. split; [done|]. by apply Forall_singleton.
Qed.

(** The loop over the pages, on a server that says there is more for the
    pages of [pages] and then gives a last answer. *)
Lemma fetchPages_run (pages : list FetchLM.Page) answer fuel page results w :
  (∀ i data, pages !! i = Some data →
     http_get_transactions (clock w + i) (page + i) = Ok data
     ∧ FetchLM.page_has_more data = true) →
  http_get_transactions (clock w + List.length pages)
    (page + List.length pages) = answer →
  (∀ data, answer = Ok data → FetchLM.page_has_more data = false) →
  List.length pages < fuel →
  FetchLM.fetchPages parseFloat responseError http_get_transactions fuel page results w
  = (match answer with
     | Ok data =>
         Ok (Some (results ++ List.concat (FetchLM.kept parseFloat <$> pages)
                   ++ FetchLM.kept parseFloat data))
     | Throw err =>
         Throw (mkError ("Lunch Money API error: "
                         +:+ default (err_message err) (responseError err))
                  None)
     end,
     mkWorld (categoriesCache w) (memoryCache w) (memoryFile w)
       (clock w + List.length pages + 1) (console w)).
Proof.
  revert fuel page results w.
  induction pages as [|first pages IH]; intros fuel page results w
    Hpages Hanswer Hlast Hfuel.
  - destruct fuel as [|fuel]; [simpl in Hfuel; lia|].
    cbn [FetchLM.fetchPages List.length] in *.
    rewrite !Nat.add_0_r in Hanswer.
    unfold bind at 1, tryCatch at 1, bind at 1. rewrite external_run, Hanswer.
    rewrite Nat.add_0_r.
    destruct answer as [data|err]; [|unfold throw; do 2 f_equal; lia].
    unfold ret at 1. rewrite (Hlast data eq_refl). unfold ret.
    rewrite collect_app. unfold FetchLM.kept. cbn [fmap list_fmap List.concat app].
    do 2 f_equal. lia.
  - destruct fuel as [|fuel]; [simpl in Hfuel; lia|].
    destruct (Hpages 0 first eq_refl) as [Hfirst Hmore].
    rewrite !Nat.add_0_r in Hfirst.
    cbn [FetchLM.fetchPages].
    unfold bind at 1, tryCatch at 1, bind at 1. rewrite external_run, Hfirst.
    unfold ret at 1. rewrite Hmore.
    set (w1 := mkWorld (categoriesCache w) (memoryCache w) (memoryFile w)
                 (S (clock w)) (console w)).
    rewrite (IH fuel (page + 1) _ w1).
    + cbn [clock categoriesCache memoryCache memoryFile console w1
           List.length].
      f_equal.
      * destruct answer; [|done]. do 2 f_equal.
        rewrite collect_app, <- (assoc_L (++)). f_equal.
        cbn [fmap list_fmap List.concat]. by rewrite <- (assoc_L (++)).
      * f_equal. lia.
    + intros i data Hi. cbn [clock w1].
      replace (S (clock w) + i) with (clock w + S i) by lia.
      replace (page + 1 + i) with (page + S i) by lia.
      by apply Hpages.
    + cbn [clock w1]. cbn [List.length] in Hanswer.
      replace (S (clock w) + List.length pages)
        with (clock w + S (List.length pages)) by lia.
      by replace (page + 1 + List.length pages)
        with (page + S (List.length pages)) by lia.
    + done.
    + simpl in Hfuel. lia.
Qed.

(** X22.  [fetchTransactions] asks for the pages 1, 2, ... one after the
    other, as long as the server says there is more.  When the server
    ends after finitely many pages, the call returns, in the order of
    the pages, the transactions whose amount parses as a number, each
    with its date and amount only, having made one request per page.
    When a request fails, the call throws 'Lunch Money API error: '
    followed by the error of the response, or by the message of the
    failure when the response gives none, and the pages fetched before
    are lost. *)
Theorem fetchTransactions_pages (pages : list FetchLM.Page) answer fuel w :
  (∀ i data, pages !! i = Some data →
     http_get_transactions (clock w + i) (1 + i) = Ok data
     ∧ FetchLM.page_has_more data = true) →
  http_get_transactions (clock w + List.length pages)
    (1 + List.length pages) = answer →
  (∀ data, answer = Ok data → FetchLM.page_has_more data = false) →
  List.length pages < fuel →
  FetchLM.fetchTransactions parseFloat responseError http_get_transactions fuel w
  = (match answer with
     | Ok data => Ok (Some (List.concat (FetchLM.kept parseFloat <$> pages)
                   ++ FetchLM.kept parseFloat data))
     | Throw err =>
         Throw (mkError ("Lunch Money API error: "
                         +:+ default (err_message err) (responseError err))
                  None)
     end,
     mkWorld (categoriesCache w) (memoryCache w) (memoryFile w)
       (clock w + List.length pages + 1) (console w)).
Proof.
  intros Hpages Hanswer Hlast Hfuel. unfold FetchLM.fetchTransactions.
  by rewrite (fetchPages_run pages answer fuel 1 [] w).
Qed.

Lemma fetchPages_outcome fuel page results w r w' :
  FetchLM.fetchPages parseFloat responseError http_get_transactions fuel page results w = (r, w') →
  Forall (λ tx, ex_payee tx = None ∧ ex_external_id tx = None
                ∧ ex_id tx = None) results →
  match r with
  | Ok (Some existing) =>
      Forall (λ tx, ex_payee tx = None ∧ ex_external_id tx = None
                    ∧ ex_id tx = None) existing
  | Ok None => True
  | Throw error =>
      err_status error = None
      ∧ ∃ message,
          err_message error = "Lunch Money API error: " +:+ message
  end.
Proof.
  revert page results w.
  induction fuel as [|fuel IH]; intros page results w;
    cbn [FetchLM.fetchPages].
  - by intros [= <- <-].
  - unfold bind at 1, tryCatch at 1, bind at 1. rewrite external_run.
    destruct (http_get_transactions (clock w) page) as [data|err].
    + unfold ret at 1. intros Hrun Hbare.
      destruct (FetchLM.page_has_more data).
      * apply IH in Hrun; [done|]. by apply collect_bare.
      * injection Hrun as <- <-. by apply collect_bare.
    + intros [= <- <-] _. split; [done|]. by eexists.
Qed.

(** X23.  Whatever makes [fetchTransactions] fail, the error it throws
    carries the message only and no response status: for
    [shouldRetryHttpError] it is a network error, to be retried.  So a
    request refused with a client error, which the retry policy does not
    retry, is retried when it is made through [fetchTransactions]. *)
Theorem fetchTransactions_errors_are_retried fuel w error w' :
  FetchLM.fetchTransactions parseFloat responseError http_get_transactions fuel w = (Throw error, w') →
  err_status error = None
  ∧ shouldRetryHttpError error = true
  ∧ ∃ message, err_message error = "Lunch Money API error: " +:+ message.
Proof.
  intros Hrun. apply fetchPages_outcome in Hrun as [Hstatus Hmessage]; [|done].
  split; [done|]. split; [|done].
  unfold shouldRetryHttpError. by rewrite Hstatus.
Qed.

End FetchLMFacts.

Section Fingerprints.
Context {num : Type} `{JsNumber num} `{Sha256}.
Variable parseFloat : string → option num.
Variable responseError : JsError → option string.
Variable http_get_transactions : nat → nat → Result FetchLM.Page.

Lemma lastChar_None (s : string) : lastChar s = None → s = "".
Proof.
  induction s as [|c s IH]; [done|]. cbn [lastChar].
  destruct s; [done|]. intros Hnone. by apply IH in Hnone.
Qed.

Lemma lastChar_app (s t : string) :
  lastChar (s +:+ t)
  = match lastChar t with
    | Some c => Some c
    | None => lastChar s
    end.
Proof.
  induction s as [|c s IH].
  - change ("" +:+ t) with t. by destruct (lastChar t).
  - change (String c s +:+ t) with (String c (s +:+ t)).
    cbn [lastChar]. rewrite IH.
    destruct s as [|c' s'].
    + change ("" +:+ t) with t.
      destruct (lastChar t) eqn:Ht; [by destruct t|].
      by rewrite (lastChar_None t Ht).
    + change (String c' s' +:+ t) with (String c' (s' +:+ t)).
      by destruct (lastChar t).
Qed.

(** X24.  The existing transactions that [fetchTransactions] returns
    carry a date and an amount, and neither payee nor identifier.  With
    an injective digest, the fingerprint of such a transaction is never
    the fingerprint of a movement with a reference that does not end
    with '-': a movement from Gmail is found to be a duplicate of an
    existing transaction through the simple key only. *)
Theorem fetched_existing_match_by_simple_key_only fuel w existing w'
    (m : Movement num) reference c :
  FetchLM.fetchTransactions parseFloat responseError http_get_transactions fuel w
  = (Ok (Some existing), w') →
  Inj (=) (=) sha256_hex →
  mv_reference m = Some reference →
  lastChar reference = Some c → c ≠ "-"%char →
  Forall (λ tx, ex_payee tx = None ∧ ex_external_id tx = None
                ∧ ex_id tx = None) existing
  ∧ movementFingerprint m ∉ (collectExisting existing).1.
Proof.
  intros Hrun Hinj Href Hlast Hc.
  apply fetchPages_outcome in Hrun; [|done]. split; [done|].
  rewrite collectExisting_sets. cbn [fst].
  rewrite elem_of_list_to_set, list_elem_of_fmap.
  intros (tx & Hfp & Hin).
  rewrite Forall_forall in Hrun. destruct (Hrun tx Hin) as (Hp & He & Hi).
  unfold movementFingerprint, generateTransactionFingerprint in Hfp.
  apply Hinj in Hfp.
  assert (lastChar (fingerprintKey (movementIdentity m)) = Some c) as Hm.
  { unfold fingerprintKey, movementIdentity. cbn [id_reference].
    rewrite Href. unfold orEmpty. cbn [default from_option id].
    by rewrite !lastChar_app, Hlast. }
  assert (lastChar (fingerprintKey (existingIdentity tx)) = Some "-"%char)
    as Htx.
  { unfold fingerprintKey, existingIdentity. cbn [id_reference id_payee].
    rewrite Hp, He, Hi. unfold orEmpty.
    cbn [orElse default from_option id truthyOpt idReference].
    by rewrite !lastChar_app. }
  congruence.
Qed.

End Fingerprints.

Lemma fetchTransactions_pages_witness :
  (FetchLM.fetchTransactions (num := Z)
     (λ s, if decide (s = "12.50") then Some 12%Z else None)
     (λ _, None)
     (λ _ page,
        Ok (FetchLM.mkPage
              (Some [FetchLM.mkRaw "2024-01-02" "12.50";
                     FetchLM.mkRaw "2024-01-03" "n/a"])
              (Nat.eqb page 1)))
     5 (freshWorld FileAbsent)).1
  = Ok (Some [mkExistingTx "2024-01-02" 12%Z None None None;
              mkExistingTx "2024-01-02" 12%Z None None None]).
Proof.
  rewrite (fetchTransactions_pages
             (λ s, if decide (s = "12.50") then Some 12%Z else None)
             (λ _, None)
             (λ _ page,
                Ok (FetchLM.mkPage
                      (Some [FetchLM.mkRaw "2024-01-02" "12.50";
                             FetchLM.mkRaw "2024-01-03" "n/a"])
                      (Nat.eqb page 1)))
             [FetchLM.mkPage
                (Some [FetchLM.mkRaw "2024-01-02" "12.50";
                       FetchLM.mkRaw "2024-01-03" "n/a"]) true]
             (Ok (FetchLM.mkPage
                    (Some [FetchLM.mkRaw "2024-01-02" "12.50";
                           FetchLM.mkRaw "2024-01-03" "n/a"]) false))
             5 (freshWorld FileAbsent)).
  - reflexivity.
  - intros [|[|i]] data; [|done..]. by intros [= <-].
  - reflexivity.
  - by intros data [= <-].
  - simpl. lia.
Defined.

Lemma fetchTransactions_errors_are_retried_witness :
  shouldRetryHttpError
    (mkError "Lunch Money API error: Unauthorized" None) = true.
Proof.
  apply (fetchTransactions_errors_are_retried (num := Z) (λ _, None)
           (λ _, None)
           (λ _ _, Throw (mkError "Unauthorized" (Some 401)))
           1 (freshWorld FileAbsent)
           (mkError "Lunch Money API error: Unauthorized" None)
           (mkWorld None None FileAbsent 1 [])).
  reflexivity.
Defined.

Lemma fetched_existing_match_by_simple_key_only_witness :
  movementFingerprint (H0 := plainDigest) coffeeAgain
  ∉ (collectExisting (H0 := plainDigest)
       [mkExistingTx "2024-01-02" (-3500)%Z None None None]).1.
Proof.
  apply (fetched_existing_match_by_simple_key_only (H0 := plainDigest)
           (λ _, Some (-3500)%Z) (λ _, None)
           (λ _ _, Ok (FetchLM.mkPage (Some [FetchLM.mkRaw "2024-01-02" "-3500"])
                         false))
           1 (freshWorld FileAbsent)
           [mkExistingTx "2024-01-02" (-3500)%Z None None None]
           (mkWorld None None FileAbsent 1 [])
           coffeeAgain "gmail-18f" "f"%char).
  - reflexivity.
  - by intros x y.
  - reflexivity.
  - reflexivity.
  - discriminate.
Defined.


(* ================================================================= *)
(** ** fetchFintoc.js: the movements of Fintoc *)

Section FetchFintocFacts.
Context {value num : Type}.
Variable toFinite : value → option num.
Variable div100 : num → num.
Variable inWindow : string → bool.
Variable responseError : JsError → option string.
Variable http_get_movements
  : nat → nat → Result (option (list (FetchFintoc.RawMovement (value := value)))).
Implicit Types (transactions : list (Movement num)) (w : World).

Lemma orElse_truthy (a b : option string) :
  truthyOpt b = true → truthyOpt (orElse a b) = true.
Proof. intros Hb. unfold orElse. by destruct (truthyOpt a) eqn:Ha. Qed.

Lemma substring0_nonempty (s : string) n : s ≠ "" → 0 < n → Js.substring0 s n ≠ "".
Proof. intros Hs Hn. destruct s; [done|]. by destruct n; [lia|]. Qed.

Lemma collect_wellformed transactions movement :
  Forall (λ m, mv_payee m ≠ "" ∧ mv_reference m = None
               ∧ mv_date m ≠ "" ∧ String.length (mv_date m) ≤ 10)
    transactions →
  Forall (λ m, mv_payee m ≠ "" ∧ mv_reference m = None
               ∧ mv_date m ≠ "" ∧ String.length (mv_date m) ≤ 10)
    (FetchFintoc.collect toFinite div100 inWindow transactions movement).
Proof.
  intros Hall. unfold FetchFintoc.collect.
  destruct (orElse _ _) as [dateStr|]; [|done].
  destruct (Js.truthy dateStr) eqn:Hdate; [|done]. simpl.
  destruct (inWindow dateStr); [|done].
  destruct (toFinite _) as [amountMinor|]; [|done].
  apply Forall_app. split; [done|]. apply Forall_singleton. simpl.
  apply truthy_true in Hdate. split; [|split; [done|split]].
  - assert (truthyOpt
              (orElse (FetchFintoc.description movement)
                 (orElse (FetchFintoc.description_internal movement)
                    (orElse (FetchFintoc.name movement)
                       (orElse (FetchFintoc.concept movement)
                          (orElse (FetchFintoc.source movement)
                             (Some "Unknown")))))) = true) as Hpayee.
    { by do 5 apply orElse_truthy. }
    destruct (orElse _ _) as [payee|]; [|done]. simpl.
    by apply truthy_true.
  - apply substring0_nonempty; [done|lia].
  - apply substring0_length.
Qed.

Lemma fetchFintocPages_wellformed fuel page transactions w movements w' :
  FetchFintoc.fetchPages toFinite div100 inWindow responseError http_get_movements fuel page
    transactions w = (Ok (Some movements), w') →
  Forall (λ m, mv_payee m ≠ "" ∧ mv_reference m = None
               ∧ mv_date m ≠ "" ∧ String.length (mv_date m) ≤ 10)
    transactions →
  Forall (λ m, mv_payee m ≠ "" ∧ mv_reference m = None
               ∧ mv_date m ≠ "" ∧ String.length (mv_date m) ≤ 10)
    movements.
Proof.
  revert page transactions w.
  induction fuel as [|fuel IH]; intros page transactions w;
    cbn [FetchFintoc.fetchPages]; [done|].
  unfold bind at 1, tryCatch at 1, bind at 1. rewrite external_run.
  destruct (http_get_movements (clock w) page) as [[[|movement data]|]|err];
    try (by intros [= <- <-]).
  unfold ret at 1. intros Hrun Hall.
  assert (Forall (λ m, mv_payee m ≠ "" ∧ mv_reference m = None
                       ∧ mv_date m ≠ "" ∧ String.length (mv_date m) ≤ 10)
            (foldl (FetchFintoc.collect toFinite div100 inWindow) transactions
               (movement :: data))) as Hstep.
  { revert Hall. generalize (movement :: data). clear.
    intros l. revert transactions.
    induction l as [|x l IH]; intros transactions Hall; [done|].
    cbn [foldl]. apply IH. by apply collect_wellformed. }
  destruct (Nat.eqb _ _).
  - eapply IH; [exact Hrun|exact Hstep].
  - by injection Hrun as <- <-.
Qed.

(** X25.  Every movement that [fetchFintocTransactions] returns has a
    payee that is not empty ('Unknown' when the movement has no
    description of any kind), a date that is not empty and has at most
    ten characters, and no reference. *)
Theorem fetchFintocTransactions_wellformed fuel apiKey linkId w movements w' :
  FetchFintoc.fetchFintocTransactions toFinite div100 inWindow responseError
    http_get_movements fuel apiKey linkId w = (Ok (Some movements), w') →
  Forall (λ m, mv_payee m ≠ "" ∧ mv_reference m = None
               ∧ mv_date m ≠ "" ∧ String.length (mv_date m) ≤ 10)
    movements.
Proof.
  unfold FetchFintoc.fetchFintocTransactions.
  destruct (_ || _); [done|]. intros Hrun.
  by apply fetchFintocPages_wellformed in Hrun.
Qed.

(** X26.  Without an API key or without a link id
    [fetchFintocTransactions] throws before any request.  The error has
    no response status, so the retry policy of the HTTP calls takes it
    for a network error: under [withRetry], as [sync] calls it, the call
    is made four times, with three warnings, and no request is ever
    sent. *)
Theorem missing_fintoc_credentials_are_retried fuel apiKey linkId w :
  truthyOpt apiKey = false ∨ truthyOpt linkId = false →
  FetchFintoc.fetchFintocTransactions toFinite div100 inWindow responseError
    http_get_movements fuel apiKey linkId w
  = (Throw FetchFintoc.missingCredentials, w)
  ∧ withRetry
      (FetchFintoc.fetchFintocTransactions toFinite div100 inWindow responseError
         http_get_movements fuel apiKey linkId)
      3 (Some shouldRetryHttpError) w
    = (Throw FetchFintoc.missingCredentials,
       mkWorld (categoriesCache w) (memoryCache w) (memoryFile w) (clock w)
         (console w
          ++ [LogRetry 1 "Missing Fintoc API key or link ID.";
              LogRetry 2 "Missing Fintoc API key or link ID.";
              LogRetry 3 "Missing Fintoc API key or link ID."])).
Proof.
  intros Hmissing.
  assert (FetchFintoc.fetchFintocTransactions toFinite div100 inWindow responseError
            http_get_movements fuel apiKey linkId
          = throw FetchFintoc.missingCredentials) as ->.
  { unfold FetchFintoc.fetchFintocTransactions.
    by destruct Hmissing as [-> | ->]; rewrite ?orb_true_r. }
  split; [done|]. unfold withRetry. cbn. by rewrite <- !(assoc_L (++)).
Qed.

End FetchFintocFacts.

Lemma fetchFintocTransactions_wellformed_witness :
  ∃ movements,
    (FetchFintoc.fetchFintocTransactions (value := Z) (num := Z) Some id
       (λ _, true) (λ _, None)
       (λ _ _, Ok (Some [FetchFintoc.mkRawMovement None (Some "2024-01-05T10:00:00Z")
                           None None None None None None 125000%Z]))
       3 (Some "key") (Some "link") (freshWorld FileAbsent)).1
    = Ok (Some movements)
    ∧ Forall (λ m, mv_payee m ≠ "") movements.
Proof.
  eexists. split; [reflexivity|].
  eapply Forall_impl.
  - apply (fetchFintocTransactions_wellformed (value := Z) (num := Z) Some id
             (λ _, true) (λ _, None)
             (λ _ _, Ok (Some [FetchFintoc.mkRawMovement None
                                 (Some "2024-01-05T10:00:00Z")
                                 None None None None None None 125000%Z]))
             3 (Some "key") (Some "link") (freshWorld FileAbsent) _
             (mkWorld None None FileAbsent 1 [])).
    reflexivity.
  - by intros m [? _].
Defined.

Lemma missing_fintoc_credentials_are_retried_witness :
  (withRetry
     (FetchFintoc.fetchFintocTransactions (value := Z) (num := Z) Some id
        (λ _, true) (λ _, None) (λ _ _, Ok None) 3 None (Some "link"))
     3 (Some shouldRetryHttpError) (freshWorld FileAbsent)).1
  = Throw FetchFintoc.missingCredentials.
Proof.
  destruct (missing_fintoc_credentials_are_retried (value := Z) (num := Z)
              Some id (λ _, true) (λ _, None) (λ _ _, Ok None) 3 None (Some "link")
              (freshWorld FileAbsent)) as [_ ->]; [by left|done].
Defined.


(* ================================================================= *)
(** ** memory.js: the statistics of the memory *)

Section StatsFacts.
Implicit Types (values : list string) (w : World).





End StatsFacts.


(* ================================================================= *)
(** ** config.js and the command line *)

Section Configuration.
Context {num : Type} `{JsNumber num} `{Sha256}.
Implicit Types (p : Process) (config : LoadedConfig).

Lemma loadConfig_run p :
  ∃ config,
    loadConfig p
    = (Returned config,
       mkProcess (world p) (environ p) (configFile p)
         (output p
          ++ match configFile p with
             | ConfigCorrupt message => [ConfigParseWarning message]
             | _ => []
             end))
    ∧ lc_currency config
      = (let fileCurrency :=
           match configFile p with
           | ConfigParsed json => default "CLP" (cj_currency json)
           | _ => "CLP"
           end in
         match obj_get (environ p) "CURRENCY_CODE" with
         | Some currency => if Js.truthy currency then currency
                            else fileCurrency
         | None => fileCurrency
         end)
    ∧ lc_categoryRules config
      = match configFile p with
        | ConfigParsed json => default (Some []) (cj_category_rules json)
        | _ => Some []
        end
    ∧ lc_lunchmoneyToken config = obj_get (environ p) "LUNCHMONEY_TOKEN"
    ∧ lc_gmailClientId config
      = orNullString (obj_get (environ p) "GMAIL_CLIENT_ID")
    ∧ lc_gmailClientSecret config
      = orNullString (obj_get (environ p) "GMAIL_CLIENT_SECRET")
    ∧ lc_gmailRefreshToken config
      = orNullString (obj_get (environ p) "GMAIL_REFRESH_TOKEN").
Proof.
  unfold loadConfig, bindP, getProcess, retP, say.
  destruct p as [w environment file out]. cbn [world environ configFile output].
  destruct file as [|message|[currency days rules]]; cbn -[obj_get].
  - rewrite app_nil_r. eexists. split; [done|].
    cbn [lc_currency lc_categoryRules lc_lunchmoneyToken lc_gmailClientId
         lc_gmailClientSecret lc_gmailRefreshToken].
    repeat split. unfold orElse, truthyOpt.
    destruct (obj_get environment "CURRENCY_CODE") as [c|]; [|done].
    by destruct (Js.truthy c).
  - eexists. split; [done|].
    cbn [lc_currency lc_categoryRules lc_lunchmoneyToken lc_gmailClientId
         lc_gmailClientSecret lc_gmailRefreshToken].
    repeat split. unfold orElse, truthyOpt.
    destruct (obj_get environment "CURRENCY_CODE") as [c|]; [|done].
    by destruct (Js.truthy c).
  - rewrite app_nil_r. eexists. split; [done|].
    cbn [lc_currency lc_categoryRules lc_lunchmoneyToken lc_gmailClientId
         lc_gmailClientSecret lc_gmailRefreshToken].
    split; [|split; [by destruct rules|done]].
    unfold orElse, truthyOpt.
    destruct (obj_get environment "CURRENCY_CODE") as [c|];
      [destruct (Js.truthy c)|]; by destruct currency.
Qed.

(** X28.  [loadConfig] always returns a configuration, and touches
    nothing but the console, where it warns of a [config.json] that does
    not parse.  The currency is always a string: the variable
    [CURRENCY_CODE] when set and not empty, else the currency of
    [config.json] when that is a string, else 'CLP'.  The rules are
    [null] exactly when [config.json] says [null] for them.  With this
    configuration the loop of [sync] never fails to transform a
    movement, so that no movement is kept from the insertion with step
    'processing'. *)
Theorem loadConfig_configuration p :
  ∃ config p',
    loadConfig p = (Returned config, p')
    ∧ world p' = world p
    ∧ output p'
      = output p
        ++ match configFile p with
           | ConfigCorrupt message => [ConfigParseWarning message]
           | _ => []
           end
    ∧ lc_currency config
      = (let fileCurrency :=
           match configFile p with
           | ConfigParsed json => default "CLP" (cj_currency json)
           | _ => "CLP"
           end in
         match obj_get (environ p) "CURRENCY_CODE" with
         | Some currency => if Js.truthy currency then currency
                            else fileCurrency
         | None => fileCurrency
         end)
    ∧ (categoryRules (asConfig config) = None
       ↔ ∃ json, configFile p = ConfigParsed json
                 ∧ cj_category_rules json = Some None)
    ∧ ∀ (env0 : Env) (st : LoopState num) movements w,
        ∃ st' w',
          processMovements env0 (asConfig config) st movements w = (Ok st', w')
          ∧ transformationErrors (processingErrors st')
            = transformationErrors (processingErrors st).
Proof.
  destruct (loadConfig_run p) as (config & Hrun & Hcurrency & Hrules & _).
  eexists config, _. split; [exact Hrun|]. split; [done|]. split; [done|].
  split; [done|]. split.
  - cbn [asConfig categoryRules]. rewrite Hrules.
    destruct (configFile p) as [| |json]; try (by split; [|intros (? & [=] & _)]).
    split.
    + intros Hnull. exists json. split; [done|].
      by destruct (cj_category_rules json) as [[|]|].
    + intros (json' & [= <-] & ->). done.
  - intros env0 st movements w.
    destruct (processMovements_total env0 (asConfig config) movements st w)
      as (st' & w' & Hloop & _).
    exists st', w'. split; [done|].
    pose proof (processMovements_transformed env0 (asConfig config)
                  (lc_currency config) movements st w eq_refl) as Hnone.
    by rewrite Hloop in Hnone.
Qed.

End Configuration.

Section CommandLineFacts.
Context {num : Type} `{JsNumber num} `{Sha256}.
Variable env : SyncEnv num.
Variable fs_unlink : nat → Result unit.
Variable fs_mtime : nat → string.
Implicit Types (p : Process) (opts : Options).


(** X29.  [--clear-memory] always reports success and ends with status
    0.  The memory file is gone afterwards unless it could not be
    removed; in that case the error is written to the console, the file
    is as it was, and success is reported all the same. *)
Theorem run_clear_memory opts p :
  opt_clearMemory opts = true →
  ∃ p',
    run env fs_unlink fs_mtime opts p = (Returned tt, p')
    ∧ last (output p') = Some CliMemoryCleared
    ∧ match memoryFile (world p), fs_unlink (clock (world p)) with
      | FileAbsent, _ => memoryFile (world p') = FileAbsent
      | _, Ok _ => memoryFile (world p') = FileAbsent
      | _, Throw error =>
          memoryFile (world p') = memoryFile (world p)
          ∧ ClearMemoryError (err_message error) ∈ output p'
      end.
Proof.
  intros Hclear. unfold run. rewrite Hclear. unfold bindP at 1.
  destruct (loadConfig_run p) as (config & -> & _).
  unfold tryCatchP at 1, bindP at 1, clearMemory, tryCatchP at 1, liftM.
  cbn [world environ configFile output].
  unfold bind at 1, getWorld at 1.
  destruct (memoryFile (world p)) eqn:Hfile.
  - unfold ret, bindP, say, retP. cbn [world environ configFile output].
    eexists. split; [done|]. cbn [world output memoryFile].
    split; [by rewrite last_snoc|done].
  - unfold bind at 1. rewrite external_run.
    destruct (fs_unlink (clock (world p))) as [[]|error].
    + unfold setMemoryFile, bindP, say, retP.
      cbn [world environ configFile output memoryFile].
      eexists. split; [done|]. cbn [world output memoryFile].
      split; [by rewrite last_snoc|done].
    + unfold bindP, say, retP.
      cbn [world environ configFile output memoryFile].
      eexists. split; [done|]. cbn [world output memoryFile].
      split; [by rewrite last_snoc|]. split; [done|].
      rewrite !elem_of_app. left. right. by apply list_elem_of_singleton.
  - unfold bind at 1. rewrite external_run.
    destruct (fs_unlink (clock (world p))) as [[]|error].
    + unfold setMemoryFile, bindP, say, retP.
      cbn [world environ configFile output memoryFile].
      eexists. split; [done|]. cbn [world output memoryFile].
      split; [by rewrite last_snoc|done].
    + unfold bindP, say, retP.
      cbn [world environ configFile output memoryFile].
      eexists. split; [done|]. cbn [world output memoryFile].
      split; [by rewrite last_snoc|]. split; [done|].
      rewrite !elem_of_app. left. right. by apply list_elem_of_singleton.
Qed.


End CommandLineFacts.


Lemma run_clear_memory_witness :
  ∃ p',
    run (H0 := plainDigest) (demoSyncEnv [] [] (λ _, Ok tt))
      (λ _, Throw (mkError "EACCES: permission denied" None)) (λ _, "")
      (mkOptions false true false false false)
      (mkProcess (freshWorld (FileObject [("cafe", "Coffee")])) []
         ConfigAbsent [])
    = (Returned tt, p')
    ∧ last (output p') = Some CliMemoryCleared
    ∧ memoryFile (world p') = FileObject [("cafe", "Coffee")]
    ∧ ClearMemoryError "EACCES: permission denied" ∈ output p'.
Proof.
  destruct (run_clear_memory (H0 := plainDigest)
              (demoSyncEnv [] [] (λ _, Ok tt))
              (λ _, Throw (mkError "EACCES: permission denied" None))
              (λ _, "") (mkOptions false true false false false)
              (mkProcess (freshWorld (FileObject [("cafe", "Coffee")])) []
                 ConfigAbsent [])
              eq_refl) as (p' & Hrun & Hlast & Hfile).
  exists p'. split; [exact Hrun|]. split; [exact Hlast|]. exact Hfile.
Defined.


